(** * Voxel forest: grid building, collision resolution and greedy meshing

    A shallow embedding of [voxel_grid.py] (class [VoxelGrid]) and the
    properties of its collision resolver, its greedy mesher and its
    grid builder.

    Conventions of the embedding.
    - A numpy array is a record of its shape and its elements in C order
      (row-major), as numpy stores them.
    - Integer fancy indexing follows numpy: an index in [-n, 0) wraps
      around, an index outside [-n, n) raises [IndexError].
    - Python exceptions are the [Err] results of a small error monad.
    - The resolver mutates the two grids it is handed; it is written in a
      state monad over a store holding both grids, the record of every
      index used on an array, and the position in the stream of random
      draws.
    - Floating point numbers that are only compared (distances) are the
      rationals they denote; the numbers of a tree configuration are
      rationals with exact arithmetic.
    - A Python dict is an association list in insertion order and a
      Python set a list without duplicates; the order in which a set is
      iterated is a parameter of the mesher.
    - A [while] loop of the mesher takes fuel, one unit per turn; the
      callers pass more than the number of turns the loop can make.

    The first part is the program, the second its properties. *)

From Stdlib Require Import ZArith QArith Qround Lia Lqa String Sorted.
From stdpp Require Import base decidable option list numbers.

Open Scope Z_scope.

(** * The program *)

(** ** Python exceptions and the error monad *)

Inductive exn : Set :=
  | IndexError | KeyError | ValueError | StopIteration | OutOfFuel.

Inductive result (A : Type) : Type :=
  | Ok (a : A)
  | Err (e : exn).
Arguments Ok {A} a.
Arguments Err {A} e.

Definition rbind {A B} (r : result A) (k : A → result B) : result B :=
  match r with Ok a => k a | Err e => Err e end.

Definition of_option {A} (e : exn) (o : option A) : result A :=
  match o with Some a => Ok a | None => Err e end.

(** ** Cells and arrays *)

Definition cell : Type := Z * Z * Z.

Definition cell_add (a b : cell) : cell :=
  let '(x, y, z) := a in let '(u, v, w) := b in (x + u, y + v, z + w).

Definition cell_sub (a b : cell) : cell :=
  let '(x, y, z) := a in let '(u, v, w) := b in (x - u, y - v, z - w).

Record ndarray (A : Type) : Type := NDArray { shape : cell; data : list A }.
Arguments NDArray {A} shape data.
Arguments shape {A} n.
Arguments data {A} n.

Definition size_of (sh : cell) : Z := let '(nx, ny, nz) := sh in nx * ny * nz.

Definition in_bounds (sh c : cell) : bool :=
  let '(nx, ny, nz) := sh in
  let '(x, y, z) := c in
  (0 <=? x) && (x <? nx) && (0 <=? y) && (y <? ny) && (0 <=? z) && (z <? nz).

(** Position of a cell in the C-order element list, and its inverse. *)
Definition ravel (sh c : cell) : Z :=
  let '(_, ny, nz) := sh in let '(x, y, z) := c in (x * ny + y) * nz + z.

Definition unravel (sh : cell) (i : Z) : cell :=
  let '(_, ny, nz) := sh in (i / (ny * nz), (i / nz) mod ny, i mod nz).

Definition all_cells (sh : cell) : list cell :=
  unravel sh <$> seqZ 0 (size_of sh).

Definition wf_shape (sh : cell) : Prop :=
  let '(nx, ny, nz) := sh in 0 ≤ nx ∧ 0 ≤ ny ∧ 0 ≤ nz.

Definition wf_array {A} (a : ndarray A) : Prop :=
  wf_shape (shape a) ∧ Z.of_nat (length (data a)) = size_of (shape a).

(** [a[x, y, z]] for one in-range index triple. *)
Definition get {A} (a : ndarray A) (c : cell) : option A :=
  if in_bounds (shape a) c then data a !! Z.to_nat (ravel (shape a) c) else None.

(** [a[x, y, z] = v] for one in-range index triple. *)
Definition set {A} (a : ndarray A) (c : cell) (v : A) : ndarray A :=
  if in_bounds (shape a) c
  then NDArray (shape a) (<[Z.to_nat (ravel (shape a) c) := v]> (data a))
  else a.

(** An array given by its value at every cell ([np.zeros], element-wise
    results). *)
Definition tabulate {A} (sh : cell) (f : cell → A) : ndarray A :=
  NDArray sh (f <$> all_cells sh).

Definition np_zeros (sh : cell) : ndarray Z := tabulate sh (λ _, 0).

(** Element-wise operation on one array. *)
Definition np_map {A B} (f : A → B) (a : ndarray A) : ndarray B :=
  NDArray (shape a) (f <$> data a).

(** ** numpy integer indexing *)

Definition normalize_index (n i : Z) : option Z :=
  if (0 <=? i) && (i <? n) then Some i
  else if (- n <=? i) && (i <? 0) then Some (i + n)
  else None.

Definition normalize_cell (sh c : cell) : option cell :=
  let '(nx, ny, nz) := sh in
  let '(x, y, z) := c in
  x' ← normalize_index nx x;
  y' ← normalize_index ny y;
  z' ← normalize_index nz z;
  Some (x', y', z').

(** [a[cells[:,0], cells[:,1], cells[:,2]]]: every index is checked. *)
Definition np_getitem {A} (a : ndarray A) (cells : list cell) : result (list A) :=
  of_option IndexError (mapM (λ c, normalize_cell (shape a) c ≫= get a) cells).

(** [a[cells[:,0], cells[:,1], cells[:,2]] = v]: numpy checks every index
    before it writes the first element. *)
Definition np_setitem {A} (a : ndarray A) (cells : list cell) (v : A)
  : result (ndarray A) :=
  rbind (of_option IndexError (mapM (normalize_cell (shape a)) cells))
        (λ cs, Ok (foldl (λ acc c, set acc c v) a cs)).

(** [np.argwhere(a == v)]: the cells holding [v], in C order. *)
Definition argwhere_eq (a : ndarray Z) (v : Z) : list cell :=
  filter (λ c, get a c = Some v) (all_cells (shape a)).

(** [cells[flags]]: selection by a boolean array of the same length. *)
Definition select {A} (cells : list A) (flags : list bool) : list A :=
  fst <$> filter (λ p, snd p = true) (zip cells flags).

(** ** Cell types ([class CellType(Enum)]) *)

Inductive CellType : Set := no_tree | stem | crown | collision.

Definition value (t : CellType) : Z :=
  match t with no_tree => 0 | stem => 1 | crown => 2 | collision => 3 end.

(** ** The store of a pairwise resolution

    [resolve_collision] receives two trees and mutates their two grids in
    place.  [accesses] records, for every integer-indexed read or write,
    the shape of the array addressed and the index triple used; [draws]
    counts the calls made to the random source so far. *)

Inductive gref : Set := Tree1 | Tree2.

Record store : Type := Store {
  tree1_grid : ndarray Z;
  tree2_grid : ndarray Z;
  accesses : list (cell * cell);
  draws : nat
}.

Definition M (A : Type) : Type := store → result (A * store).

Definition mret_M {A} (a : A) : M A := λ s, Ok (a, s).

Definition mbind_M {A B} (m : M A) (k : A → M B) : M B :=
  λ s, match m s with Ok (a, s') => k a s' | Err e => Err e end.

Declare Scope M_scope.
Delimit Scope M_scope with M.
Notation "x <- m ;; k" := (mbind_M m (λ x, k))
  (at level 100, m at next level, right associativity) : M_scope.
Notation "m ;;; k" := (mbind_M m (λ _, k))
  (at level 100, right associativity) : M_scope.
Open Scope M_scope.

Definition grid_of (r : gref) (s : store) : ndarray Z :=
  match r with Tree1 => tree1_grid s | Tree2 => tree2_grid s end.

Definition with_grid (r : gref) (g : ndarray Z) (s : store) : store :=
  match r with
  | Tree1 => Store g (tree2_grid s) (accesses s) (draws s)
  | Tree2 => Store (tree1_grid s) g (accesses s) (draws s)
  end.

Definition record_access (sh : cell) (cells : list cell) (s : store) : store :=
  Store (tree1_grid s) (tree2_grid s)
        (accesses s ++ ((λ c, (sh, c)) <$> cells)) (draws s).

(** The array a grid parameter refers to (whole-array operations read
    it without integer indices). *)
Definition read (r : gref) : M (ndarray Z) := λ s, Ok (grid_of r s, s).

(** Integer-indexed read of any array. *)
Definition take {A} (arr : ndarray A) (cells : list cell) : M (list A) :=
  λ s, rbind (np_getitem arr cells)
             (λ vs, Ok (vs, record_access (shape arr) cells s)).

(** [grid[cells[:,0], cells[:,1], cells[:,2]]] *)
Definition getitem (r : gref) (cells : list cell) : M (list Z) :=
  g <- read r ;; take g cells.

(** [grid[cells[:,0], cells[:,1], cells[:,2]] = v] *)
Definition setitem (r : gref) (cells : list cell) (v : Z) : M unit :=
  λ s, rbind (np_setitem (grid_of r s) cells v)
             (λ g, Ok (tt, with_grid r g (record_access (shape (grid_of r s)) cells s))).

(** Comparison of two float arrays, element by element; finite floats
    compare as the rationals they are. *)
Definition fle (a b : Q) : bool := Qle_bool a b.
Definition flt (a b : Q) : bool := negb (Qle_bool b a).
Definition fgt (a b : Q) : bool := flt b a.
Definition fge (a b : Q) : bool := fle b a.

(** Element-wise operation on two arrays of one shape. *)
Definition np_zip_with {A B C} (f : A → B → C) (a : ndarray A) (b : ndarray B)
  : ndarray C :=
  NDArray (shape a) (zip_with f (data a) (data b)).

(** [(tree_grid != CellType.stem.value) | (tree_grid != CellType.crown.value)] *)
Definition not_owned_mask (tree_grid : ndarray Z) : ndarray bool :=
  np_zip_with orb
    (np_map (λ v, negb (v =? value stem)) tree_grid)
    (np_map (λ v, negb (v =? value crown)) tree_grid).

Definition np_arange (start stop : Z) : list Z := seqZ start (stop - start).

(** ** Collision resolution *)

Section Resolver.

(** The random source: [random_source n] is the raw outcome of the
    [n]-th draw; every sequence of choices is some [random_source]. *)
Variable random_source : nat → nat.

(** [scipy.ndimage.distance_transform_edt], a library function. *)
Variable distance_transform_edt : ndarray bool → ndarray Q.

Definition randbelow (n : nat) : M nat :=
  λ s, Ok ((random_source (draws s) `mod` n)%nat,
           Store (tree1_grid s) (tree2_grid s) (accesses s) (S (draws s))).

(** [random.randint(a, b)] *)
Definition randint (a b : Z) : M Z :=
  k <- randbelow (Z.to_nat (b - a + 1)) ;; mret_M (a + Z.of_nat k).

(** [random.choice(seq)] *)
Definition choice {A} (seq : list A) : M A :=
  match seq with
  | [] => λ _, Err IndexError
  | _ => k <- randbelow (length seq) ;;
         λ s, rbind (of_option IndexError (seq !! k)) (λ x, Ok (x, s))
  end.

Definition trim_mask (tree_grid : gref) (mask : list cell) : M (list cell) :=
  g <- read tree_grid ;;
  mret_M (filter (λ c, in_bounds (shape g) c = true) mask).

Definition get_colliding_cells (tree_grid : gref)
    (filled_translated_cells : list cell) : M (list cell) :=
  contained_cells <- trim_mask tree_grid filled_translated_cells ;;
  vals <- getitem tree_grid contained_cells ;;
  mret_M (select contained_cells ((λ v, v =? value crown) <$> vals)).

Definition neighbor_offsets : list cell :=
  [(1, 0, 0); (-1, 0, 0); (0, 1, 0); (0, -1, 0); (0, 0, 1); (0, 0, -1)].

Definition get_collision_edge_cells (tree_grid : gref)
    (collision_cells : list cell) : M (list cell) :=
  let neighbors :=
    c ← collision_cells; (λ o, cell_add c o) <$> neighbor_offsets in
  neighbors <- trim_mask tree_grid neighbors ;;
  vals <- getitem tree_grid neighbors ;;
  mret_M (select neighbors ((λ v, v =? value crown) <$> vals)).

Definition get_cells_for_sphere (radius : Z) : list cell :=
  let r := np_arange (- radius) (radius + 1) in
  let grid := z ← r; x ← r; y ← r; [(x, y, z)] in
  filter (λ c : cell, c.1.1 ^ 2 + c.1.2 ^ 2 + c.2 ^ 2 ≤ radius ^ 2) grid.

Definition assign_rest_of_collision_cells (translation : cell) : M unit :=
  tree1_grid <- read Tree1 ;;
  let tree1_collision_cells := argwhere_eq tree1_grid (value collision) in
  let tree1_distances := distance_transform_edt (not_owned_mask tree1_grid) in
  tree1_conflicted_distances <- take tree1_distances tree1_collision_cells ;;
  let tree2_collision_cells :=
    (λ c, cell_add c translation) <$> tree1_collision_cells in
  tree2_grid <- read Tree2 ;;
  let tree2_distances := distance_transform_edt (not_owned_mask tree2_grid) in
  tree2_conflicted_distances <- take tree2_distances tree2_collision_cells ;;
  let tree1_cells_closer :=
    select tree1_collision_cells
      (zip_with fle tree1_conflicted_distances tree2_conflicted_distances) in
  let tree1_cells_farther :=
    select tree1_collision_cells
      (zip_with fgt tree1_conflicted_distances tree2_conflicted_distances) in
  setitem Tree1 tree1_cells_closer (value crown) ;;;
  setitem Tree1 tree1_cells_farther (value no_tree) ;;;
  let tree2_cells_closer :=
    select tree2_collision_cells
      (zip_with flt tree2_conflicted_distances tree1_conflicted_distances) in
  let tree2_cells_farther :=
    select tree2_collision_cells
      (zip_with fge tree2_conflicted_distances tree1_conflicted_distances) in
  setitem Tree2 tree2_cells_closer (value crown) ;;;
  setitem Tree2 tree2_cells_farther (value no_tree).

(** One iteration of the [for round in range(rounds)] loop. *)
Definition growth_round (tree1_collision_edge_cells tree2_collision_edge_cells
    : list cell) (translation : cell) : M unit :=
  let min_radius := 1 in
  let max_radius := 3 in
  sphere_radius <- randint min_radius max_radius ;;
  let sphere_cells := get_cells_for_sphere sphere_radius in
  collision_edge_cell <- choice tree1_collision_edge_cells ;;
  mask <- trim_mask Tree2
    ((λ c, cell_add c (cell_add collision_edge_cell translation)) <$> sphere_cells) ;;
  mask <- trim_mask Tree1 ((λ c, cell_sub c translation) <$> mask) ;;
  vals <- getitem Tree1 mask ;;
  let conflicted_contained_cells :=
    select mask ((λ v, v =? value collision) <$> vals) in
  setitem Tree1 conflicted_contained_cells (value crown) ;;;
  let conflicted_contained_cells :=
    (λ c, cell_add c translation) <$> conflicted_contained_cells in
  setitem Tree2 conflicted_contained_cells (value no_tree) ;;;
  collision_edge_cell <- choice tree2_collision_edge_cells ;;
  mask <- trim_mask Tree1
    ((λ c, cell_add c (cell_sub collision_edge_cell translation)) <$> sphere_cells) ;;
  mask <- trim_mask Tree2 ((λ c, cell_add c translation) <$> mask) ;;
  vals <- getitem Tree2 mask ;;
  let conflicted_contained_cells :=
    select mask ((λ v, v =? value collision) <$> vals) in
  setitem Tree2 conflicted_contained_cells (value crown) ;;;
  let conflicted_contained_cells :=
    (λ c, cell_sub c translation) <$> conflicted_contained_cells in
  setitem Tree1 conflicted_contained_cells (value no_tree).

Fixpoint for_range (n : nat) (body : M unit) : M unit :=
  match n with
  | O => mret_M tt
  | S n' => body ;;; for_range n' body
  end.

Definition assign_collision_cells (tree1_collision_edge_cells
    tree2_collision_edge_cells : list cell) (translation : cell) : M unit :=
  let rounds := 5%nat in
  if decide (length tree1_collision_edge_cells = 0%nat
             ∨ length tree2_collision_edge_cells = 0%nat)
  then assign_rest_of_collision_cells translation
  else
    for_range rounds
      (growth_round tree1_collision_edge_cells tree2_collision_edge_cells
         translation) ;;;
    assign_rest_of_collision_cells translation.

(** [resolve_collision] up to and including the marking of the
    colliding cells: [None] when the pair does not overlap (the early
    [return]), else the edge cells of both grids. *)
Definition mark_collision_cells (translation : cell)
  : M (option (list cell * list cell)) :=
  g1 <- read Tree1 ;;
  let tree1_filled_cells := argwhere_eq g1 (value crown) in
  let tree1_filled_cells :=
    (λ c, cell_add c translation) <$> tree1_filled_cells in
  tree2_collision_cells <- get_colliding_cells Tree2 tree1_filled_cells ;;
  let tree1_collision_cells :=
    (λ c, cell_sub c translation) <$> tree2_collision_cells in
  if decide (length tree2_collision_cells = 0%nat) then mret_M None
  else
    tree1_collision_edge_cells <-
      get_collision_edge_cells Tree1
        ((λ c, cell_sub c translation) <$> tree2_collision_cells) ;;
    tree2_collision_edge_cells <-
      get_collision_edge_cells Tree2 tree2_collision_cells ;;
    setitem Tree1 tree1_collision_cells (value collision) ;;;
    setitem Tree2 tree2_collision_cells (value collision) ;;;
    mret_M (Some (tree1_collision_edge_cells, tree2_collision_edge_cells)).

(** [resolve_collision(tree1, tree2)] on the store holding the two
    grids; [tree1] and [tree2] are the anchor positions. *)
Definition resolve_collision (tree1 tree2 : cell) : M unit :=
  let translation := cell_sub tree1 tree2 in
  marked <- mark_collision_cells translation ;;
  match marked with
  | None => mret_M tt
  | Some (tree1_collision_edge_cells, tree2_collision_edge_cells) =>
      assign_collision_cells tree1_collision_edge_cells
        tree2_collision_edge_cells translation
  end.

End Resolver.

(** ** The evaluation pass over the candidate pairs

    A tree is the tuple [(x, y, z, configuration_identifier, tree_grid)].
    [evaluate_forest] builds the list of candidate pairs with a k-d tree
    and shuffles it (library code); the loop over that list is
    [evaluate_pairs].  Every pair is [(i, j)] with [i < j], so the two
    grids handed to [resolve_collision] are different arrays. *)

Record tree : Type := Tree {
  position : cell;
  configuration_identifier : Z;
  grid : ndarray Z
}.

Definition with_tree_grid (t : tree) (g : ndarray Z) : tree :=
  Tree (position t) (configuration_identifier t) g.

Definition resolve_trees (rand : nat → nat) (edt : ndarray bool → ndarray Q)
    (trees : list tree) (pair : nat * nat) (n : nat)
  : result (list tree * nat) :=
  rbind (of_option IndexError (trees !! pair.1)) (λ tree,
  rbind (of_option IndexError (trees !! pair.2)) (λ other_tree,
  rbind (resolve_collision rand edt (position tree) (position other_tree)
           (Store (grid tree) (grid other_tree) [] n)) (λ r,
  Ok (<[pair.2 := with_tree_grid other_tree (tree2_grid r.2)]>
        (<[pair.1 := with_tree_grid tree (tree1_grid r.2)]> trees),
      draws r.2)))).

Fixpoint evaluate_pairs (rand : nat → nat) (edt : ndarray bool → ndarray Q)
    (pairs_to_evaluate_list : list (nat * nat)) (trees : list tree) (n : nat)
  : result (list tree * nat) :=
  match pairs_to_evaluate_list with
  | [] => Ok (trees, n)
  | p :: rest =>
      rbind (resolve_trees rand edt trees p n)
            (λ r, evaluate_pairs rand edt rest r.1 r.2)
  end.

(** ** Greedy meshing

    A Python dict is the list of its items in insertion order.  A Python
    set is the list of its elements, without repeats; the order in which
    a set is iterated is not fixed by the language, so [next(iter(s))]
    takes the element an iteration order picks, and the mesher is
    parameterised by these orders. *)

Section PyCollections.
Context {K V : Type} `{EqDecision K}.

(** [d[k]], [None] when [k not in d] *)
Fixpoint dict_get (k : K) (d : list (K * V)) : option V :=
  match d with
  | [] => None
  | (k', v) :: d' => if decide (k' = k) then Some v else dict_get k d'
  end.

(** [d[k] = v] *)
Fixpoint dict_set (k : K) (v : V) (d : list (K * V)) : list (K * V) :=
  match d with
  | [] => [(k, v)]
  | (k', v') :: d' =>
      if decide (k' = k) then (k, v) :: d' else (k', v') :: dict_set k v d'
  end.

(** [del d[k]] *)
Fixpoint dict_del (k : K) (d : list (K * V)) : list (K * V) :=
  match d with
  | [] => []
  | (k', v') :: d' =>
      if decide (k' = k) then d' else (k', v') :: dict_del k d'
  end.

End PyCollections.

Section PySets.
Context {A : Type} `{EqDecision A}.

(** [s.add(x)] *)
Definition set_add (x : A) (s : list A) : list A :=
  if decide (x ∈ s) then s else s ++ [x].

(** [s.remove(x)] for an element of [s] *)
Fixpoint set_remove (x : A) (s : list A) : list A :=
  match s with
  | [] => []
  | y :: s' => if decide (y = x) then s' else y :: set_remove x s'
  end.

(** [next(iter(s))] under an iteration order *)
Definition next_iter (order : list A → nat) (s : list A) : result A :=
  of_option StopIteration (s !! (order s `mod` length s)%nat).

End PySets.

(** A run of Crown cells along x: [(x_start, x_end)], both inclusive. *)
Abbreviation segment := (Z * Z)%type.
(** [(x_start, y_start, x_end, y_end)] *)
Abbreviation plane := (Z * Z * Z * Z)%type.
(** [(x_start, y_start, z_start, x_end, y_end, z_end)] *)
Abbreviation quad := (Z * Z * Z * Z * Z * Z)%type.

(** [row_matches_segment_length] and [plane_matches_segment_length] are
    one procedure on two types of keys and segments: when the segment is
    in the set stored under the key it is removed from it, the key is
    deleted when its set becomes empty, and the answer is [True]. *)
Definition matches_segment_length {K S} `{EqDecision K} `{EqDecision S}
    (key : K) (seg : S) (d : list (K * list S)) : bool * list (K * list S) :=
  match dict_get key d with
  | None => (false, d)
  | Some segments =>
      if decide (seg ∈ segments) then
        let segments := set_remove seg segments in
        (true, if decide (length segments = 0%nat) then dict_del key d
               else dict_set key segments d)
      else (false, d)
  end.

Definition row_matches_segment_length (y_position z_position x_start x_end : Z)
    (rows : list (Z * Z * list segment)) : bool * list (Z * Z * list segment) :=
  matches_segment_length (y_position, z_position) (x_start, x_end) rows.

Definition plane_matches_segment_length
    (z_position x_start x_end y_start y_end : Z)
    (planes : list (Z * list plane)) : bool * list (Z * list plane) :=
  matches_segment_length z_position (x_start, y_start, x_end, y_end) planes.

(** The number of segments a dict of sets holds. *)
Definition dict_size {K S} (d : list (K * list S)) : nat :=
  sum_list_with (λ kv, length kv.2) d.

(** [while matches(offset): offset += step], giving the offset at which
    the match failed.  Every turn removes a segment, so the loop makes at
    most [dict_size d] turns; [fuel] bounds them. *)
Fixpoint while_matches {K S} `{EqDecision K} `{EqDecision S}
    (matches : Z → list (K * list S) → bool * list (K * list S))
    (fuel : nat) (offset step : Z) (d : list (K * list S))
  : result (Z * list (K * list S)) :=
  match fuel with
  | O => Err OutOfFuel
  | S fuel' =>
      let '(found, d') := matches offset d in
      if found then while_matches matches fuel' (offset + step) step d'
      else Ok (offset, d')
  end.

Definition capture_plane (y_position z_position x_start x_end : Z)
    (rows : list (Z * Z * list segment))
  : result (plane * list (Z * Z * list segment)) :=
  rbind (while_matches
           (λ offset_minus,
              row_matches_segment_length (y_position + offset_minus) z_position
                x_start x_end)
           (S (dict_size rows)) 0 (-1) rows) (λ r,
  let offset_minus := r.1 + 1 in
  rbind (while_matches
           (λ offset_plus,
              row_matches_segment_length (y_position + offset_plus) z_position
                x_start x_end)
           (S (dict_size r.2)) 1 1 r.2) (λ r',
  let offset_plus := r'.1 - 1 in
  Ok ((x_start, y_position + offset_minus, x_end, y_position + offset_plus),
      r'.2))).

Definition capture_quad (z_position x_start y_start x_end y_end : Z)
    (planes : list (Z * list plane))
  : result (quad * list (Z * list plane)) :=
  rbind (while_matches
           (λ offset_minus,
              plane_matches_segment_length (z_position + offset_minus)
                x_start x_end y_start y_end)
           (S (dict_size planes)) 0 (-1) planes) (λ r,
  let offset_minus := r.1 + 1 in
  rbind (while_matches
           (λ offset_plus,
              plane_matches_segment_length (z_position + offset_plus)
                x_start x_end y_start y_end)
           (S (dict_size r.2)) 1 1 r.2) (λ r',
  let offset_plus := r'.1 - 1 in
  Ok ((x_start, y_start, z_position + offset_minus,
       x_end, y_end, z_position + offset_plus),
      r'.2))).

(** [np.where(p(a))]: the cells whose element satisfies [p], in C order. *)
Definition np_where (p : Z → bool) (a : ndarray Z) : list cell :=
  filter (λ c, p <$> get a c = Some true) (all_cells (shape a)).

(** [np.diff(a, axis=0, append=0, prepend=0)]: one more layer along x
    than [a]; the element before the first and after the last is the
    padding 0. *)
Definition np_diff_axis0 (a : ndarray Z) : ndarray Z :=
  let '(nx, ny, nz) := shape a in
  tabulate (nx + 1, ny, nz)
    (λ c, let '(x, y, z) := c in
          default 0 (get a (x, y, z)) - default 0 (get a (x - 1, y, z))).

(** [sorted(l, key=...)] with a key of two numbers compared
    lexicographically; the sort is stable. *)
Definition key_lt (a b : Z * Z) : bool :=
  (a.1 <? b.1) || ((a.1 =? b.1) && (a.2 <? b.2)).

Fixpoint insert_sorted {A} (key : A → Z * Z) (x : A) (l : list A) : list A :=
  match l with
  | [] => [x]
  | y :: l' =>
      if key_lt (key y) (key x) then y :: insert_sorted key x l'
      else x :: y :: l'
  end.

Definition sorted {A} (key : A → Z * Z) (l : list A) : list A :=
  foldr (insert_sorted key) [] l.

(** The loop of [capture_rows] over the sorted border positions. *)
Fixpoint pair_borders (borders : list (Z * Z * Z * Z))
    (start_map : list (Z * Z * Z)) (rows : list (Z * Z * list segment))
  : result (list (Z * Z * list segment)) :=
  match borders with
  | [] => Ok rows
  | (x, y, z, flag) :: rest =>
      if flag =? 0 then pair_borders rest (dict_set (y, z) x start_map) rows
      else
        rbind (of_option KeyError (dict_get (y, z) start_map)) (λ start,
        match dict_get (y, z) rows with
        | Some row_set =>
            pair_borders rest start_map
              (dict_set (y, z) (set_add (start, x) row_set) rows)
        | None =>
            pair_borders rest start_map (dict_set (y, z) [(start, x)] rows)
        end)
  end.

Definition capture_rows (instance_matrix : ndarray Z)
  : result (list (Z * Z * list segment)) :=
  let instance_matrix :=
    np_map (λ v, if v =? value crown then 1 else 0) instance_matrix in
  let diff_x := np_diff_axis0 instance_matrix in
  let starts := np_where (λ v, 0 <? v) diff_x in
  let ends := np_where (λ v, v <? 0) diff_x in
  let border_positions :=
    ((λ c : cell, (c.1.1, c.1.2, c.2, 0)) <$> starts)
    ++ ((λ c : cell, (c.1.1 - 1, c.1.2, c.2, 1)) <$> ends) in
  let sorted_start_and_end :=
    sorted (λ b : Z * Z * Z * Z, (b.1.1.1, b.2)) border_positions in
  pair_borders sorted_start_and_end [] [].

Section Mesher.

(** The orders in which the sets of row segments and of planes are
    iterated. *)
Variable segment_order : list segment → nat.
Variable plane_order : list plane → nat.

(** The [while len(rows) > 0] loop of [capture_planes]; every turn
    removes a segment from [rows]. *)
Fixpoint capture_planes_loop (fuel : nat) (rows : list (Z * Z * list segment))
    (planes : list (Z * list plane)) : result (list (Z * list plane)) :=
  match fuel with
  | O => Err OutOfFuel
  | S fuel' =>
      match rows with
      | [] => Ok planes
      | (y_position, z_position, row_set) :: _ =>
          rbind (next_iter segment_order row_set) (λ seg,
          rbind (capture_plane y_position z_position seg.1 seg.2 rows) (λ r,
          let planes :=
            match dict_get z_position planes with
            | Some plane_set =>
                dict_set z_position (set_add r.1 plane_set) planes
            | None => dict_set z_position [r.1] planes
            end in
          capture_planes_loop fuel' r.2 planes))
      end
  end.

Definition capture_planes (instance_matrix : ndarray Z)
  : result (list (Z * list plane)) :=
  rbind (capture_rows instance_matrix) (λ rows,
  capture_planes_loop (S (dict_size rows)) rows []).

(** The [while len(planes) > 0] loop of [capture_quads]. *)
Fixpoint capture_quads_loop (fuel : nat) (planes : list (Z * list plane))
    (quads : list quad) : result (list quad) :=
  match fuel with
  | O => Err OutOfFuel
  | S fuel' =>
      match planes with
      | [] => Ok quads
      | (z_position, plane_set) :: _ =>
          rbind (next_iter plane_order plane_set) (λ p,
          let '(x_start, y_start, x_end, y_end) := p in
          rbind (capture_quad z_position x_start y_start x_end y_end planes)
            (λ r, capture_quads_loop fuel' r.2 (quads ++ [r.1])))
      end
  end.

Definition capture_quads (trees : list tree) (index : nat) : result (list quad) :=
  rbind (of_option IndexError (trees !! index)) (λ t,
  let instance_matrix := grid t in
  rbind (capture_planes instance_matrix) (λ planes,
  capture_quads_loop (S (dict_size planes)) planes [])).

End Mesher.

(** ** Grid building ([add_tree] and the fills)

    The numbers of a tree configuration are finite floats; they are the
    rationals they denote and their arithmetic is exact.  The element-wise
    float arithmetic of the crown masks divides by numbers that can be
    zero, where numpy gives an infinity or not-a-number instead of raising;
    [float] has these values. *)

Inductive float : Set :=
  | Finite (q : Q)
  | Infinity (negative : bool)
  | NaN.

(** [i / n] on an integer array and an integer: float division. *)
Definition true_divide (i n : Z) : float :=
  if n =? 0 then (if i =? 0 then NaN else Infinity (i <? 0))
  else Finite (inject_Z i / inject_Z n).

(** [x ** 2] *)
Definition float_square (x : float) : float :=
  match x with
  | Finite q => Finite (q * q)
  | Infinity _ => Infinity false
  | NaN => NaN
  end.

Definition float_add (x y : float) : float :=
  match x, y with
  | NaN, _ | _, NaN => NaN
  | Finite p, Finite q => Finite (p + q)
  | Infinity a, Infinity b => if Bool.eqb a b then Infinity a else NaN
  | Infinity a, Finite _ | Finite _, Infinity a => Infinity a
  end.

(** [x <= n] for a float and an integer; a comparison with
    not-a-number is false. *)
Definition float_le_int (x : float) (n : Z) : bool :=
  match x with
  | Finite q => Qle_bool q (inject_Z n)
  | Infinity negative => negative
  | NaN => false
  end.

(** Python's [int(x)] on a float: truncation toward zero. *)
Definition py_int (q : Q) : Z := Z.quot (Qnum q) (Z.pos (Qden q)).

(** [self.cube_size = 0.5] *)
Definition cube_size : Q := 1 # 2.

(** The dict [tree_configuration]. *)
Record tree_configuration : Type := TreeConfiguration {
  stem_height : Q;
  stem_diameter : Q;
  crown_width : Q;
  crown_height : Q;
  crown_offset : Q;
  crown_type : string
}.

(** [np.zeros(shape)] raises [ValueError] on a negative dimension. *)
Definition np_zeros_checked (sh : cell) : result (ndarray Z) :=
  let '(nx, ny, nz) := sh in
  if (nx <? 0) || (ny <? 0) || (nz <? 0) then Err ValueError
  else Ok (np_zeros sh).

(** [np.meshgrid(..., indexing='ij')], as the list of index tuples in C
    order. *)
Definition meshgrid2 (js ks : list Z) : list (Z * Z) :=
  j ← js; k ← ks; [(j, k)].

Definition meshgrid3 (is_ js ks : list Z) : list cell :=
  i ← is_; j ← js; k ← ks; [(i, j, k)].

(** [for x in xs: body], threading the array the body writes to. *)
Fixpoint for_each {A S} (xs : list A) (body : A → S → result S) (s : S)
  : result S :=
  match xs with
  | [] => Ok s
  | x :: xs' => rbind (body x s) (for_each xs' body)
  end.

Definition add_stem (tree_grid : ndarray Z) (stem_diameter stem_height : Q)
  : result (ndarray Z) :=
  let stem_radius := py_int (stem_diameter / 2 / cube_size) in
  let stem_height_range := np_arange 0 (py_int (stem_height / cube_size)) in
  let stem_diameter_range :=
    np_arange (- py_int (stem_diameter / cube_size))
              (py_int (stem_diameter / cube_size)) in
  let jk := meshgrid2 stem_diameter_range stem_diameter_range in
  let masked := filter (λ p, p.1 ^ 2 + p.2 ^ 2 ≤ stem_radius ^ 2) jk in
  for_each stem_height_range
    (λ i tree_grid,
       np_setitem tree_grid
         ((λ p : Z * Z, (p.1 + (shape tree_grid).1.1 `div` 2,
                         p.2 + (shape tree_grid).1.2 `div` 2, i)) <$> masked)
         (value stem))
    tree_grid.

(** [(i/hw)**2 + (j/hw)**2 + (k/hh)**2] *)
Definition ellipsoid_sum (half_width_cube_size half_height_cube_size : Z)
    (c : cell) : float :=
  float_add
    (float_add (float_square (true_divide c.1.1 half_width_cube_size))
               (float_square (true_divide c.1.2 half_width_cube_size)))
    (float_square (true_divide c.2 half_height_cube_size)).

(** The mask of [add_ellipsoid_tree]: [... <= 1]. *)
Definition ellipsoid_mask (half_width_cube_size half_height_cube_size : Z)
    (c : cell) : bool :=
  float_le_int (ellipsoid_sum half_width_cube_size half_height_cube_size c) 1.

(** The mask of [add_spreading_tree]: [... <= 1 & (k >= 0)].  In Python
    [&] binds tighter than [<=]: the sum is compared with the integer
    [1 & (k >= 0)]. *)
Definition spreading_mask (half_width_cube_size half_height_cube_size : Z)
    (c : cell) : bool :=
  float_le_int (ellipsoid_sum half_width_cube_size half_height_cube_size c)
               (Z.land 1 (Z.b2z (0 <=? c.2))).

Definition add_ellipsoid_tree (tree_grid : ndarray Z) (cfg : tree_configuration)
  : result (ndarray Z) :=
  let half_width_cube_size := py_int (crown_width cfg / 2 / cube_size) in
  let half_height_cube_size := py_int (crown_height cfg / 2 / cube_size) in
  let crown_range_xy :=
    np_arange (- half_width_cube_size) (half_width_cube_size + 1) in
  let crown_range_z :=
    np_arange (- half_height_cube_size) (half_height_cube_size + 1) in
  let ijk := meshgrid3 crown_range_xy crown_range_xy crown_range_z in
  let masked :=
    filter (λ c, ellipsoid_mask half_width_cube_size half_height_cube_size c = true)
           ijk in
  np_setitem tree_grid
    ((λ c : cell,
        (c.1.1 + (shape tree_grid).1.1 `div` 2,
         c.1.2 + (shape tree_grid).1.2 `div` 2,
         c.2 + py_int ((stem_height cfg - crown_offset cfg) / cube_size
                       + inject_Z half_height_cube_size))) <$> masked)
    (value crown).

Definition add_columnar_tree (tree_grid : ndarray Z) (cfg : tree_configuration)
  : result (ndarray Z) :=
  let crown_radius := py_int (crown_width cfg / 2 / cube_size) in
  let crown_height_range := np_arange 0 (py_int (crown_height cfg / cube_size)) in
  let crown_range := np_arange (- crown_radius) (crown_radius + 1) in
  let jk := meshgrid2 crown_range crown_range in
  let masked := filter (λ p, p.1 ^ 2 + p.2 ^ 2 ≤ crown_radius ^ 2) jk in
  for_each crown_height_range
    (λ i tree_grid,
       np_setitem tree_grid
         ((λ p : Z * Z,
             (p.1 + (shape tree_grid).1.1 `div` 2,
              p.2 + (shape tree_grid).1.2 `div` 2,
              i + py_int ((stem_height cfg - crown_offset cfg) / cube_size)))
            <$> masked)
         (value crown))
    tree_grid.

Definition add_spreading_tree (tree_grid : ndarray Z) (cfg : tree_configuration)
  : result (ndarray Z) :=
  let half_width_cube_size := py_int (crown_width cfg / 2 / cube_size) in
  let half_height_cube_size := py_int (crown_height cfg / 2 / cube_size) in
  let crown_range_xy :=
    np_arange (- half_width_cube_size) (half_width_cube_size + 1) in
  let crown_range_z :=
    np_arange (- half_height_cube_size) (half_height_cube_size + 1) in
  let ijk := meshgrid3 crown_range_xy crown_range_xy crown_range_z in
  let masked :=
    filter (λ c, spreading_mask half_width_cube_size half_height_cube_size c = true)
           ijk in
  np_setitem tree_grid
    ((λ c : cell,
        (c.1.1 + (shape tree_grid).1.1 `div` 2,
         c.1.2 + (shape tree_grid).1.2 `div` 2,
         c.2 + py_int ((stem_height cfg - crown_offset cfg) / cube_size)))
       <$> masked)
    (value crown).

(** The state of a [VoxelGrid] object that [add_tree] touches. *)
Record VoxelGrid : Type := MkVoxelGrid {
  evaluated_forest : bool;
  trees : list tree
}.

(** The dict [crown_type_to_function]; a missing key is a [KeyError]. *)
Definition crown_type_to_function (name : string)
  : option (ndarray Z → tree_configuration → result (ndarray Z)) :=
  if String.eqb name "ellipsoid" then Some add_ellipsoid_tree
  else if String.eqb name "columnar" then Some add_columnar_tree
  else if String.eqb name "spreading" then Some add_spreading_tree
  else None.

(** The shape [add_tree] allocates. *)
Definition grid_shape (cfg : tree_configuration) : cell :=
  (py_int (crown_width cfg / cube_size + 1) + 1,
   py_int (crown_width cfg / cube_size + 1) + 1,
   py_int ((stem_height cfg + crown_height cfg - crown_offset cfg) / cube_size + 1)
   + 1).

(** The tree [add_tree] builds, or the exception it raises on the way. *)
Definition build_tree (pos : Q * Q * Q) (configuration_identifier : Z)
    (cfg : tree_configuration) : result tree :=
  rbind (np_zeros_checked (grid_shape cfg)) (λ tree_grid,
  rbind (add_stem tree_grid (stem_diameter cfg) (stem_height cfg)) (λ tree_grid,
  rbind (of_option KeyError (crown_type_to_function (crown_type cfg))) (λ fill,
  rbind (fill tree_grid cfg) (λ tree_grid,
  Ok (Tree (py_int (pos.1.1 / cube_size), py_int (pos.1.2 / cube_size),
            py_int (pos.2 / cube_size))
           configuration_identifier tree_grid))))).

(** [add_tree]: the object after the call and whether the call raised.
    [self.evaluated_forest = False] comes first and stays done when a
    later statement raises. *)
Definition add_tree (self : VoxelGrid) (pos : Q * Q * Q)
    (configuration_identifier : Z) (cfg : tree_configuration)
  : VoxelGrid * result unit :=
  let self := MkVoxelGrid false (trees self) in
  match build_tree pos configuration_identifier cfg with
  | Ok t => (MkVoxelGrid (evaluated_forest self) (trees self ++ [t]), Ok tt)
  | Err e => (self, Err e)
  end.

(** ** Forest evaluation and generation

    [evaluate_forest] asks a k-d tree (scipy) for the trees near each
    tree, collects the unordered pairs in a set, shuffles the list of
    pairs and resolves each.  The k-d tree query, the order in which the
    set is listed and the shuffle are library behaviour and parameters
    here.  [generate_forest] takes its sample points from the Poisson
    disk sampler, another module; they are an argument here.  Both
    functions return the object after the call; the object an exception
    leaves behind is not modelled. *)

(** [xs[i]] on a Python list: a negative index counts from the end. *)
Definition py_list_get {A} (xs : list A) (i : Z) : result A :=
  rbind (of_option IndexError (normalize_index (Z.of_nat (length xs)) i))
        (λ k, of_option IndexError (xs !! Z.to_nat k)).

(** [np.max(xs)]; it raises [ValueError] on an empty list. *)
Definition np_max (xs : list Q) : result Q :=
  match xs with
  | [] => Err ValueError
  | x :: xs' => Ok (foldl (λ m y, if Qle_bool m y then y else m) x xs')
  end.

(** [[f(x) for x in xs]] for an [f] that can raise. *)
Fixpoint comprehension {A B} (f : A → result B) (xs : list A) : result (list B) :=
  match xs with
  | [] => Ok []
  | x :: xs' => rbind (f x) (λ y, rbind (comprehension f xs') (λ ys, Ok (y :: ys)))
  end.

Section Forest.

Variable random_source : nat → nat.
Variable distance_transform_edt : ndarray bool → ndarray Q.

(** [KDTree(points).query_ball_point(x, r)]: the indices of the points
    within distance [r] of [x]. *)
Variable query_ball_point : list cell → cell → Q → list nat.

(** [list(s)] for a set of pairs. *)
Variable list_of_set : list (nat * nat) → list (nat * nat).

(** [random.shuffle(l)] at a position of the stream of random draws: the
    shuffled list and the position after it. *)
Variable shuffle : list (nat * nat) → nat → list (nat * nat) * nat.

(** The inner loop of [evaluate_forest] for tree [i]. *)
Definition add_pairs (i : nat) (potential_collisions : list nat)
    (pairs_to_evaluate : list (nat * nat)) : list (nat * nat) :=
  foldl (λ pairs collision_index,
           if decide (collision_index = i) then pairs
           else set_add (i `min` collision_index, i `max` collision_index)%nat pairs)
        pairs_to_evaluate potential_collisions.

(** The outer loop, over [enumerate(self.trees)]. *)
Definition collect_pairs (all_trees : list tree) (tree_widths : list Q)
    (max_range : Q) : list (nat * nat) :=
  foldl (λ pairs (it : nat * (tree * Q)),
           add_pairs it.1
             (query_ball_point (position <$> all_trees) (position it.2.1)
                (max_range + it.2.2)%Q)
             pairs)
        [] (imap (λ i tw, (i, tw)) (zip all_trees tree_widths)).

Definition evaluate_forest (tree_configurations : list tree_configuration)
    (self : VoxelGrid) (n : nat) : result (VoxelGrid * nat) :=
  let self := MkVoxelGrid true (trees self) in
  rbind (comprehension
           (λ t, rbind (py_list_get tree_configurations (configuration_identifier t))
                       (λ cfg, Ok (crown_width cfg)))
           (trees self)) (λ tree_widths,
  rbind (np_max tree_widths) (λ max_range,
  let pairs_to_evaluate := collect_pairs (trees self) tree_widths max_range in
  let pairs_to_evaluate_list := list_of_set pairs_to_evaluate in
  let '(pairs_to_evaluate_list, n) := shuffle pairs_to_evaluate_list n in
  rbind (evaluate_pairs random_source distance_transform_edt
           pairs_to_evaluate_list (trees self) n) (λ r,
  Ok (MkVoxelGrid (evaluated_forest self) r.1, r.2)))).

(** The loop of [generate_forest] over the sampled points
    [((x, y), index)]. *)
Fixpoint add_sampled_trees (tree_configurations : list tree_configuration)
    (sampled_points : list (Q * Q * Z)) (self : VoxelGrid) : result VoxelGrid :=
  match sampled_points with
  | [] => Ok self
  | sampled_point :: rest =>
      let sampled_position := sampled_point.1 in
      let chosen_configuration_index := sampled_point.2 in
      rbind (py_list_get tree_configurations chosen_configuration_index) (λ cfg,
      let r := add_tree self (sampled_position.1, sampled_position.2, 0%Q)
                 chosen_configuration_index cfg in
      rbind r.2 (λ _, add_sampled_trees tree_configurations rest r.1))
  end.

Definition generate_forest (tree_configurations : list tree_configuration)
    (sampled_points : list (Q * Q * Z)) (self : VoxelGrid) (n : nat)
  : result (VoxelGrid * nat) :=
  rbind (add_sampled_trees tree_configurations sampled_points self) (λ self,
  rbind (evaluate_forest tree_configurations self n) (λ r,
  Ok (MkVoxelGrid true (trees r.1), r.2))).

End Forest.

(** ** The voxel mesher ([generate_crown_mesh])

    One Blender object per tree, with a square face on every side of a
    Crown voxel whose neighbour is not Crown.  [bm.verts.new] makes a
    fresh vertex at every call and [bm.faces.new] a face on the four
    vertices just made, so a [bmesh] is the list of its faces in the
    order of creation, each the positions of its vertices.  The
    coordinates are multiples of a quarter, which binary floating point
    holds exactly; they are rationals here.  An exception is [None]. *)

Definition vertex : Type := Q * Q * Q.

Definition bmesh : Type := list (list vertex).

(** [for x in xs: body], threading the mesh the body adds to. *)
Fixpoint for_every {A S} (xs : list A) (body : A → S → option S) (s : S)
  : option S :=
  match xs with
  | [] => Some s
  | x :: xs' => body x s ≫= for_every xs' body
  end.

Definition enumerate {A} (xs : list A) : list (nat * A) :=
  zip (seq 0 (length xs)) xs.

Definition is_filled (x y z : Z) (tree_grid : ndarray Z) : bool :=
  if negb (in_bounds (shape tree_grid) (x, y, z)) then false
  else bool_decide (get tree_grid (x, y, z) = Some (value crown)).

Definition get_neighbors_filled (x y z : Z) (offsets : list cell)
    (tree_grid : ndarray Z) : list bool :=
  (λ offset : cell,
     is_filled (x + offset.1.1) (y + offset.1.2) (z + offset.2) tree_grid)
  <$> offsets.

(** No branch binds [verts] for another name of a face; Python then
    raises on its use. *)
Definition add_face_to_bmesh (bm : bmesh) (position : vertex) (size : Q)
    (face : string) : option bmesh :=
  let '(x, y, z) := position in
  let hs := (size / 2)%Q in
  verts ←
    (if String.eqb face "left" then
       Some [(x - hs, y - hs, z - hs); (x - hs, y - hs, z + hs);
             (x - hs, y + hs, z + hs); (x - hs, y + hs, z - hs)]%Q
     else if String.eqb face "right" then
       Some [(x + hs, y - hs, z - hs); (x + hs, y - hs, z + hs);
             (x + hs, y + hs, z + hs); (x + hs, y + hs, z - hs)]%Q
     else if String.eqb face "front" then
       Some [(x - hs, y - hs, z - hs); (x + hs, y - hs, z - hs);
             (x + hs, y - hs, z + hs); (x - hs, y - hs, z + hs)]%Q
     else if String.eqb face "back" then
       Some [(x - hs, y + hs, z - hs); (x + hs, y + hs, z - hs);
             (x + hs, y + hs, z + hs); (x - hs, y + hs, z + hs)]%Q
     else if String.eqb face "bottom" then
       Some [(x - hs, y - hs, z - hs); (x + hs, y - hs, z - hs);
             (x + hs, y + hs, z - hs); (x - hs, y + hs, z - hs)]%Q
     else if String.eqb face "top" then
       Some [(x - hs, y - hs, z + hs); (x + hs, y - hs, z + hs);
             (x + hs, y + hs, z + hs); (x - hs, y + hs, z + hs)]%Q
     else None);
  Some (bm ++ [verts]).

Definition offsets : list cell :=
  [(-1, 0, 0); (1, 0, 0); (0, -1, 0); (0, 1, 0); (0, 0, -1); (0, 0, 1)].

Definition index_to_face_direction : list string :=
  ["left"; "right"; "front"; "back"; "bottom"; "top"]%string.

Definition voxel_pos (c : cell) (size : Q) : vertex :=
  (inject_Z c.1.1 * size, inject_Z c.1.2 * size, inject_Z c.2 * size)%Q.

Definition add_voxel_to_bmesh (bm : bmesh) (x y z : Z) (tree_grid : ndarray Z)
    (size : Q) : option bmesh :=
  let neighbors_filled := get_neighbors_filled x y z offsets tree_grid in
  for_every (enumerate neighbors_filled)
    (λ '(index, neighbor) bm,
       if negb neighbor then
         face ← index_to_face_direction !! index;
         add_face_to_bmesh bm (voxel_pos (x, y, z) size) size face
       else Some bm)
    bm.

(** What the mesher sets of the object it returns. *)
Record blender_object : Type := BlenderObject {
  location : vertex;
  mesh : bmesh
}.

Definition generate_crown_mesh (self : VoxelGrid) (index : Z)
  : option blender_object :=
  match py_list_get (trees self) index with
  | Err _ => None
  | Ok t =>
      let tree_grid := grid t in
      let '(nx, ny, nz) := shape tree_grid in
      bm ← for_every (meshgrid3 (np_arange 0 nx) (np_arange 0 ny) (np_arange 0 nz))
             (λ '(x, y, z) bm,
                v ← get tree_grid (x, y, z);
                if v =? value crown
                then add_voxel_to_bmesh bm x y z tree_grid cube_size
                else Some bm)
             [];
      Some (BlenderObject (voxel_pos (position t) cube_size) bm)
  end.

(** [generate_mesh]: the configuration of the tree and its object. *)
Definition generate_mesh (self : VoxelGrid) (index : Z)
  : option (Z * blender_object) :=
  crown_mesh ← generate_crown_mesh self index;
  match py_list_get (trees self) index with
  | Err _ => None
  | Ok t => Some (configuration_identifier t, crown_mesh)
  end.

(** ** The box mesher ([greedy_meshing])

    A cuboid of six faces on eight vertices for every quad of
    [capture_quads]. *)

(** The body of the loop over the quads. *)
Definition add_box (quad : quad) (bm : bmesh) : result bmesh :=
  let '(x_start, y_start, z_start, x_end, y_end, z_end) := quad in
  let x_start_position := (inject_Z x_start * cube_size - cube_size)%Q in
  let y_start_postion := (inject_Z y_start * cube_size - cube_size)%Q in
  let z_start_position := (inject_Z z_start * cube_size - cube_size)%Q in
  let x_end_position := (inject_Z x_end * cube_size)%Q in
  let y_end_position := (inject_Z y_end * cube_size)%Q in
  let z_end_position := (inject_Z z_end * cube_size)%Q in
  let verts : list vertex :=
    [(x_start_position, y_start_postion, z_start_position);
     (x_end_position, y_start_postion, z_start_position);
     (x_end_position, y_end_position, z_start_position);
     (x_start_position, y_end_position, z_start_position);
     (x_start_position, y_start_postion, z_end_position);
     (x_end_position, y_start_postion, z_end_position);
     (x_end_position, y_end_position, z_end_position);
     (x_start_position, y_end_position, z_end_position)] in
  let face (indices : list nat) : result (list vertex) :=
    of_option IndexError (mapM (λ i, verts !! i) indices) in
  rbind (face [0; 1; 2; 3]%nat) (λ bottom,
  rbind (face [4; 5; 6; 7]%nat) (λ top,
  rbind (face [0; 1; 5; 4]%nat) (λ front,
  rbind (face [2; 3; 7; 6]%nat) (λ back,
  rbind (face [0; 3; 7; 4]%nat) (λ left,
  rbind (face [1; 2; 6; 5]%nat) (λ right,
  Ok (bm ++ [bottom; top; front; back; left; right]))))))).

Definition greedy_meshing (segment_order : list segment → nat)
    (plane_order : list plane → nat) (self : VoxelGrid) (index : nat)
  : result (Z * blender_object) :=
  rbind (capture_quads segment_order plane_order (trees self) index) (λ quads,
  rbind (for_each quads add_box []) (λ bm,
  rbind (of_option IndexError (trees self !! index)) (λ t,
  Ok (configuration_identifier t,
      BlenderObject (voxel_pos (position t) cube_size) bm)))).

(** * Properties of the program *)

(** ** Facts about the array layer *)

Section ArrayFacts.
Context {A : Type}.
Implicit Types (a : ndarray A) (c : cell) (sh : cell).

Lemma in_bounds_spec sh c :
  in_bounds sh c = true ↔
  0 ≤ c.1.1 < sh.1.1 ∧ 0 ≤ c.1.2 < sh.1.2 ∧ 0 ≤ c.2 < sh.2.
Proof.
  destruct sh as [[nx ny] nz], c as [[x y] z]; simpl.
  rewrite !andb_true_iff, !Z.leb_le, !Z.ltb_lt. lia.
Qed.

Lemma ravel_range sh c :
  in_bounds sh c = true → 0 ≤ ravel sh c < size_of sh.
Proof.
  rewrite in_bounds_spec.
  destruct sh as [[nx ny] nz], c as [[x y] z]; simpl. intros (Hx & Hy & Hz).
  assert (0 ≤ x * ny) by nia.
  assert (0 ≤ (x * ny + y) * nz) by nia.
  assert (x * ny + y ≤ nx * ny - 1) by nia.
  assert ((x * ny + y) * nz ≤ (nx * ny - 1) * nz) by nia.
  lia.
Qed.

Lemma ravel_inj sh c c' :
  in_bounds sh c = true → in_bounds sh c' = true →
  ravel sh c = ravel sh c' → c = c'.
Proof.
  rewrite !in_bounds_spec.
  destruct sh as [[nx ny] nz], c as [[x y] z], c' as [[x' y'] z']; simpl.
  intros (Hx & Hy & Hz) (Hx' & Hy' & Hz') E.
  assert (Ez : z = z' ∧ x * ny + y = x' * ny + y').
  { destruct (Z.div_mod_unique nz (x * ny + y) (x' * ny + y') z z')
      as [E1 E2]; [lia | lia | lia | lia]. }
  destruct Ez as [-> E'].
  destruct (Z.div_mod_unique ny x x' y y') as [E1 E2]; [lia | lia | lia |].
  congruence.
Qed.

Lemma unravel_ravel sh c :
  in_bounds sh c = true → unravel sh (ravel sh c) = c.
Proof.
  rewrite in_bounds_spec.
  destruct sh as [[nx ny] nz], c as [[x y] z]; simpl. intros (Hx & Hy & Hz).
  assert (E3 : ((x * ny + y) * nz + z) mod nz = z).
  { symmetry. apply (Z.mod_unique _ _ (x * ny + y)); lia. }
  assert (E2 : ((x * ny + y) * nz + z) / nz = x * ny + y).
  { symmetry. apply (Z.div_unique _ _ _ z); lia. }
  assert (E1 : ((x * ny + y) * nz + z) / (ny * nz) = x).
  { symmetry. apply (Z.div_unique _ _ _ (y * nz + z)); [nia | lia]. }
  rewrite E1, E2, E3.
  replace ((x * ny + y) mod ny) with y; [done|].
  apply (Z.mod_unique _ _ x); lia.
Qed.

Lemma in_bounds_unravel sh i :
  wf_shape sh → 0 ≤ i < size_of sh → in_bounds sh (unravel sh i) = true.
Proof.
  rewrite in_bounds_spec.
  destruct sh as [[nx ny] nz]; simpl. intros (Hx & Hy & Hz) Hi.
  assert (0 < nz) by nia. assert (0 < ny) by nia.
  pose proof (Z.mod_pos_bound i nz). pose proof (Z.mod_pos_bound (i / nz) ny).
  assert (0 ≤ i / (ny * nz)) by (apply Z.div_pos; nia).
  assert (i / (ny * nz) < nx).
  { apply Z.div_lt_upper_bound; nia. }
  lia.
Qed.

Lemma ravel_unravel sh i :
  wf_shape sh → 0 ≤ i < size_of sh → ravel sh (unravel sh i) = i.
Proof.
  destruct sh as [[nx ny] nz]; simpl. intros (Hx & Hy & Hz) Hi.
  assert (0 < nz) by nia. assert (0 < ny) by nia.
  rewrite (Z.mul_comm ny nz), <- Z.div_div by lia.
  pose proof (Z.div_mod (i / nz) ny ltac:(lia)) as E1.
  pose proof (Z.div_mod i nz ltac:(lia)) as E2.
  replace (i / nz / ny * ny + (i / nz) mod ny) with (i / nz) by lia.
  lia.
Qed.

Lemma elem_of_all_cells sh c :
  wf_shape sh → c ∈ all_cells sh ↔ in_bounds sh c = true.
Proof.
  intros Hsh. unfold all_cells. rewrite list_elem_of_fmap. split.
  - intros (i & -> & Hi). apply elem_of_seqZ in Hi.
    apply in_bounds_unravel; [done | lia].
  - intros Hc. exists (ravel sh c). split; [by rewrite unravel_ravel|].
    apply elem_of_seqZ. pose proof (ravel_range _ _ Hc). lia.
Qed.

Lemma NoDup_all_cells sh : wf_shape sh → NoDup (all_cells sh).
Proof.
  intros Hsh. unfold all_cells. apply NoDup_fmap_2_strong; [|apply NoDup_seqZ].
  intros i j Hi Hj E. apply elem_of_seqZ in Hi, Hj.
  rewrite <- (ravel_unravel sh i), <- (ravel_unravel sh j) by (done || lia).
  by rewrite E.
Qed.

Lemma get_Some_in_bounds a c v : get a c = Some v → in_bounds (shape a) c = true.
Proof. unfold get. by destruct (in_bounds (shape a) c). Qed.

Lemma get_is_Some a c :
  wf_array a → in_bounds (shape a) c = true → is_Some (get a c).
Proof.
  intros [_ Hlen] Hc. unfold get. rewrite Hc. apply lookup_lt_is_Some.
  pose proof (ravel_range _ _ Hc). lia.
Qed.

Lemma shape_set a c v : shape (set a c v) = shape a.
Proof. unfold set. by destruct (in_bounds (shape a) c). Qed.

Lemma wf_set a c v : wf_array a → wf_array (set a c v).
Proof.
  unfold wf_array, set. destruct (in_bounds (shape a) c); [|done]. simpl.
  by rewrite length_insert.
Qed.

Lemma get_set_eq a c v :
  wf_array a → in_bounds (shape a) c = true → get (set a c v) c = Some v.
Proof.
  intros [_ Hlen] Hc. unfold get, set. rewrite Hc. simpl. rewrite Hc.
  apply list_lookup_insert_eq. pose proof (ravel_range _ _ Hc). lia.
Qed.

Lemma get_set_ne a c c' v : c ≠ c' → get (set a c v) c' = get a c'.
Proof.
  intros Hne. unfold get, set.
  destruct (in_bounds (shape a) c) eqn:Hc; [|done]. simpl.
  destruct (in_bounds (shape a) c') eqn:Hc'; [|done].
  apply list_lookup_insert_ne. intros E. apply Hne.
  apply (ravel_inj (shape a)); [done | done |].
  pose proof (ravel_range _ _ Hc). pose proof (ravel_range _ _ Hc'). lia.
Qed.

Lemma get_tabulate sh (f : cell → A) c :
  wf_shape sh → in_bounds sh c = true → get (tabulate sh f) c = Some (f c).
Proof.
  intros Hsh Hc. unfold get, tabulate, all_cells. simpl. rewrite Hc.
  pose proof (ravel_range _ _ Hc) as Hr.
  rewrite !list_lookup_fmap.
  rewrite (lookup_seqZ_lt 0 (size_of sh) (Z.to_nat (ravel sh c))) by lia.
  simpl. f_equal. rewrite Z2Nat.id by lia. f_equal. by apply unravel_ravel.
Qed.

Lemma wf_tabulate sh (f : cell → A) : wf_shape sh → wf_array (tabulate sh f).
Proof.
  intros Hsh. split; [done|]. unfold tabulate, all_cells. simpl.
  rewrite !length_fmap, length_seqZ.
  destruct sh as [[nx ny] nz]; simpl in *. nia.
Qed.

Lemma get_np_map {B} (f : A → B) a c : get (np_map f a) c = f <$> get a c.
Proof.
  unfold get, np_map. simpl. destruct (in_bounds (shape a) c); [|done].
  by rewrite list_lookup_fmap.
Qed.

Lemma wf_np_map {B} (f : A → B) a : wf_array a → wf_array (np_map f a).
Proof. unfold wf_array, np_map. simpl. by rewrite length_fmap. Qed.

End ArrayFacts.

(** ** Facts about indexing and selection *)

Definition set_cells {A} (a : ndarray A) (cells : list cell) (v : A) : ndarray A :=
  foldl (λ acc c, set acc c v) a cells.

(** The element at an in-range cell, with a default outside. *)
Definition item {A} (d : A) (a : ndarray A) (c : cell) : A := default d (get a c).

Definition all_in_bounds (sh : cell) (cells : list cell) : Prop :=
  Forall (λ c, in_bounds sh c = true) cells.

Section IndexFacts.
Context {A : Type}.
Implicit Types (a : ndarray A) (c : cell) (cells : list cell).

Lemma shape_set_cells a cells v : shape (set_cells a cells v) = shape a.
Proof.
  revert a. induction cells as [|x l IH]; intros a; [done|].
  unfold set_cells in *. simpl. by rewrite IH, shape_set.
Qed.

Lemma wf_set_cells a cells v : wf_array a → wf_array (set_cells a cells v).
Proof.
  revert a. induction cells as [|x l IH]; intros a Ha; [done|].
  unfold set_cells in *. simpl. by apply IH, wf_set.
Qed.

Lemma get_set_cells a cells v c :
  wf_array a → all_in_bounds (shape a) cells →
  get (set_cells a cells v) c = if decide (c ∈ cells) then Some v else get a c.
Proof.
  revert a. induction cells as [|x l IH]; intros a Ha Hin.
  - case_decide as Hc; [by apply elem_of_nil in Hc | done].
  - inversion_clear Hin as [|? ? Hx Hl].
    change (set_cells a (x :: l) v) with (set_cells (set a x v) l v).
    rewrite IH; [| by apply wf_set | by rewrite shape_set].
    destruct (decide (c ∈ l)) as [Hc|Hc];
      destruct (decide (c ∈ x :: l)) as [Hc'|Hc']; try done.
    + exfalso. apply Hc'. by right.
    + apply elem_of_cons in Hc' as [->|?]; [by apply get_set_eq | done].
    + apply get_set_ne. intros ->. apply Hc'. left.
Qed.

Lemma get_set_cells_in a cells v c :
  wf_array a → all_in_bounds (shape a) cells → c ∈ cells →
  get (set_cells a cells v) c = Some v.
Proof. intros. rewrite get_set_cells by done. by case_decide. Qed.

Lemma get_set_cells_notin a cells v c :
  wf_array a → all_in_bounds (shape a) cells → c ∉ cells →
  get (set_cells a cells v) c = get a c.
Proof. intros. rewrite get_set_cells by done. by case_decide. Qed.

Lemma normalize_cell_in_bounds sh c :
  in_bounds sh c = true → normalize_cell sh c = Some c.
Proof.
  destruct sh as [[nx ny] nz], c as [[x y] z]. simpl.
  rewrite !andb_true_iff. intros [[[[[H1 H2] H3] H4] H5] H6].
  unfold normalize_index. by rewrite H1, H2, H3, H4, H5, H6.
Qed.

Lemma item_get d a c :
  wf_array a → in_bounds (shape a) c = true → get a c = Some (item d a c).
Proof.
  intros Ha Hc. destruct (get_is_Some a c Ha Hc) as [v Hv].
  unfold item. by rewrite Hv.
Qed.

Lemma np_getitem_ok d a cells :
  wf_array a → all_in_bounds (shape a) cells →
  np_getitem a cells = Ok (item d a <$> cells).
Proof.
  intros Ha Hin. unfold np_getitem.
  replace (mapM (λ c, normalize_cell (shape a) c ≫= get a) cells)
    with (Some (item d a <$> cells)); [done|].
  symmetry. apply mapM_Some. apply Forall2_fmap_r, Forall_Forall2_diag.
  eapply Forall_impl; [|exact Hin]. intros c Hc. simpl.
  rewrite normalize_cell_in_bounds by done. simpl. by apply item_get.
Qed.

Lemma np_setitem_ok a cells v :
  all_in_bounds (shape a) cells →
  np_setitem a cells v = Ok (set_cells a cells v).
Proof.
  intros Hin. unfold np_setitem.
  replace (mapM (normalize_cell (shape a)) cells) with (Some cells); [done|].
  symmetry. apply mapM_Some, Forall_Forall2_diag.
  eapply Forall_impl; [|exact Hin]. intros c Hc.
  by apply normalize_cell_in_bounds.
Qed.

Lemma select_fmap {B} (h : B → A) (p : B → bool) (l : list B) :
  select (h <$> l) (p <$> l) = h <$> filter (λ x, p x = true) l.
Proof.
  unfold select. induction l as [|x l IH]; [done|].
  rewrite !fmap_cons. cbn [zip zip_with]. rewrite !filter_cons. cbn [snd].
  destruct (p x) eqn:E; simpl.
  - f_equal. exact IH.
  - exact IH.
Qed.

End IndexFacts.

Lemma select_flags {A} (p : A → bool) (l : list A) :
  select l (p <$> l) = filter (λ x, p x = true) l.
Proof.
  rewrite <- (list_fmap_id l) at 1. rewrite select_fmap. apply list_fmap_id.
Qed.

Lemma cell_add_sub c t : cell_sub (cell_add c t) t = c.
Proof. destruct c as [[x y] z], t as [[u v] w]. simpl. f_equal; [f_equal|]; lia. Qed.

Lemma cell_sub_add c t : cell_add (cell_sub c t) t = c.
Proof. destruct c as [[x y] z], t as [[u v] w]. simpl. f_equal; [f_equal|]; lia. Qed.

(** ** Facts about the store operations *)

Definition trace_ok (s : store) : Prop :=
  Forall (λ p : cell * cell, in_bounds p.1 p.2 = true) (accesses s).

Lemma mbind_M_ok {A B} (m : M A) (k : A → M B) s a s' :
  m s = Ok (a, s') → mbind_M m k s = k a s'.
Proof. unfold mbind_M. by intros ->. Qed.

Lemma trace_ok_record_access sh cells s :
  trace_ok s → all_in_bounds sh cells → trace_ok (record_access sh cells s).
Proof.
  unfold trace_ok, record_access. simpl. intros Hs Hc.
  apply Forall_app. split; [done|]. apply Forall_fmap.
  eapply Forall_impl; [|exact Hc]. done.
Qed.

Lemma take_ok {A} d (arr : ndarray A) cells s :
  wf_array arr → all_in_bounds (shape arr) cells →
  take arr cells s = Ok (item d arr <$> cells, record_access (shape arr) cells s).
Proof. intros Ha Hin. unfold take. by rewrite (np_getitem_ok d). Qed.

Lemma getitem_ok r cells s :
  wf_array (grid_of r s) → all_in_bounds (shape (grid_of r s)) cells →
  getitem r cells s =
    Ok (item 0 (grid_of r s) <$> cells,
        record_access (shape (grid_of r s)) cells s).
Proof. intros Ha Hin. unfold getitem, mbind_M, read. by apply take_ok. Qed.

Lemma setitem_ok r cells v s :
  all_in_bounds (shape (grid_of r s)) cells →
  setitem r cells v s =
    Ok (tt, with_grid r (set_cells (grid_of r s) cells v)
              (record_access (shape (grid_of r s)) cells s)).
Proof. intros Hin. unfold setitem. by rewrite np_setitem_ok. Qed.

Lemma trim_mask_ok r mask s :
  trim_mask r mask s =
    Ok (filter (λ c, in_bounds (shape (grid_of r s)) c = true) mask, s).
Proof. done. Qed.

Lemma all_in_bounds_filter sh (P : cell → Prop) `{∀ c, Decision (P c)} cells :
  (∀ c, P c → in_bounds sh c = true) → all_in_bounds sh (filter P cells).
Proof.
  intros HP. apply list.Forall_forall. intros c Hc.
  apply list_elem_of_filter in Hc as [Hc _]. by apply HP.
Qed.

(** ** The invariant of a pairwise resolution

    [paired f finv oa ob ga gb]: [ga] and [gb] are the current grids of
    two trees whose grids were [oa] and [ob] when resolution began; [f]
    translates a cell of [ga] into the frame of [gb] and [finv] back.
    Contested cells are marked in both grids at corresponding cells, no
    cell is Crown in both, and only cells that were Crown at the start
    are Crown or marked. *)

Definition holds (g : ndarray Z) (c : cell) (t : CellType) : Prop :=
  get g c = Some (value t).

Record paired (f finv : cell → cell) (oa ob ga gb : ndarray Z) : Prop := {
  p_wf_a : wf_array ga;
  p_wf_b : wf_array gb;
  p_shape_a : shape ga = shape oa;
  p_shape_b : shape gb = shape ob;
  p_inv_l : ∀ c, finv (f c) = c;
  p_inv_r : ∀ c, f (finv c) = c;
  p_mark_ab : ∀ c, holds ga c collision → holds gb (f c) collision;
  p_mark_ba : ∀ c, holds gb c collision → holds ga (finv c) collision;
  p_disjoint : ∀ c, holds ga c crown → ¬ holds gb (f c) crown;
  p_sub_a : ∀ c, holds ga c crown ∨ holds ga c collision → holds oa c crown;
  p_sub_b : ∀ c, holds gb c crown ∨ holds gb c collision → holds ob c crown
}.

Lemma value_inj t t' : value t = value t' → t = t'.
Proof. by destruct t, t'. Qed.

Lemma holds_in_bounds g c t : holds g c t → in_bounds (shape g) c = true.
Proof. apply get_Some_in_bounds. Qed.

Lemma holds_unique g c t t' : holds g c t → holds g c t' → t = t'.
Proof. unfold holds. intros -> [=]. by apply value_inj. Qed.

Lemma item_eqb g c v :
  wf_array g → in_bounds (shape g) c = true →
  (item 0 g c =? v) = true ↔ get g c = Some v.
Proof.
  intros Hg Hc. rewrite (item_get 0 g c Hg Hc), Z.eqb_eq.
  split; [by intros -> | by intros [=]].
Qed.

Lemma elem_of_fmap_bij (f finv : cell → cell) (l : list cell) c' :
  (∀ c, finv (f c) = c) → (∀ c, f (finv c) = c) →
  c' ∈ f <$> l ↔ finv c' ∈ l.
Proof.
  intros Hl Hr. rewrite list_elem_of_fmap. split.
  - intros (c & -> & Hc). by rewrite Hl.
  - intros Hc. exists (finv c'). by rewrite Hr.
Qed.

Lemma paired_sym f finv oa ob ga gb :
  paired f finv oa ob ga gb → paired finv f ob oa gb ga.
Proof.
  intros [].
  split; try done.
  intros c Hc Hc'. apply (p_disjoint0 (finv c)); [done|]. by rewrite p_inv_r0.
Qed.

(** A set of cells, all marked in [ga], is awarded to [ga]: Crown there,
    Empty at the corresponding cells of [gb]. *)
Lemma paired_award f finv oa ob ga gb (won : list cell) :
  paired f finv oa ob ga gb →
  (∀ c, c ∈ won → holds ga c collision) →
  all_in_bounds (shape ga) won ∧ all_in_bounds (shape gb) (f <$> won) ∧
  paired f finv oa ob
    (set_cells ga won (value crown))
    (set_cells gb (f <$> won) (value no_tree)).
Proof.
  intros [] Hwon.
  assert (Ha : all_in_bounds (shape ga) won).
  { apply list.Forall_forall. intros c Hc. by eapply holds_in_bounds, Hwon. }
  assert (Hb : all_in_bounds (shape gb) (f <$> won)).
  { apply list.Forall_forall. intros c' Hc'.
    apply list_elem_of_fmap in Hc' as (c & -> & Hc).
    by eapply holds_in_bounds, p_mark_ab0, Hwon. }
  assert (Hmem : ∀ c, f c ∈ f <$> won ↔ c ∈ won).
  { intros c. by rewrite (elem_of_fmap_bij f finv), p_inv_l0. }
  split; [done|]. split; [done|].
  split; try done.
  - by apply wf_set_cells.
  - by apply wf_set_cells.
  - by rewrite shape_set_cells.
  - by rewrite shape_set_cells.
  - intros c. unfold holds. rewrite !get_set_cells by done.
    destruct (decide (c ∈ won)) as [Hc|Hc]; [done|].
    rewrite decide_False by (by rewrite Hmem). apply p_mark_ab0.
  - intros c. unfold holds. rewrite !get_set_cells by done.
    destruct (decide (c ∈ f <$> won)) as [Hc|Hc]; [done|].
    rewrite decide_False; [apply p_mark_ba0|].
    by rewrite <- Hmem, p_inv_r0.
  - intros c. unfold holds. rewrite !get_set_cells by done.
    destruct (decide (c ∈ won)) as [Hc|Hc].
    + by rewrite decide_True by (by rewrite Hmem).
    + rewrite decide_False by (by rewrite Hmem). apply p_disjoint0.
  - intros c. unfold holds. rewrite !get_set_cells by done.
    destruct (decide (c ∈ won)) as [Hc|Hc]; [|apply p_sub_a0].
    intros _. apply p_sub_a0. right. by apply Hwon.
  - intros c. unfold holds. rewrite !get_set_cells by done.
    destruct (decide (c ∈ f <$> won)) as [Hc|Hc]; [|apply p_sub_b0].
    by intros [|].
Qed.

Lemma elem_of_argwhere_eq g v c :
  wf_array g → c ∈ argwhere_eq g v ↔ get g c = Some v.
Proof.
  intros [Hsh _]. unfold argwhere_eq.
  rewrite list_elem_of_filter, elem_of_all_cells by done.
  split; [tauto|]. intros Hc. split; [done|]. by eapply get_Some_in_bounds.
Qed.

Lemma all_in_bounds_argwhere_eq g v :
  wf_array g → all_in_bounds (shape g) (argwhere_eq g v).
Proof.
  intros Hg. apply list.Forall_forall. intros c Hc.
  apply elem_of_argwhere_eq in Hc; [|done]. by eapply get_Some_in_bounds.
Qed.

(** The fallback on the grids: the marked cells [c] of [ga] with
    [keep c] go to [ga], the others to [gb]. *)
Definition fallback_a (ga : ndarray Z) (keep : cell → bool) : ndarray Z :=
  let marked := argwhere_eq ga (value collision) in
  set_cells
    (set_cells ga (filter (λ c, keep c = true) marked) (value crown))
    (filter (λ c, negb (keep c) = true) marked) (value no_tree).

Definition fallback_b (f : cell → cell) (ga gb : ndarray Z) (keep : cell → bool)
  : ndarray Z :=
  let marked := argwhere_eq ga (value collision) in
  set_cells
    (set_cells gb (f <$> filter (λ c, negb (keep c) = true) marked) (value crown))
    (f <$> filter (λ c, keep c = true) marked) (value no_tree).

Lemma fallback_gets f finv ga gb (keep : cell → bool) :
  wf_array ga → wf_array gb →
  (∀ c, finv (f c) = c) → (∀ c, f (finv c) = c) →
  (∀ c, holds ga c collision → holds gb (f c) collision) →
  let marked := argwhere_eq ga (value collision) in
  let closer := filter (λ c, keep c = true) marked in
  let farther := filter (λ c, negb (keep c) = true) marked in
  (∀ c, c ∈ closer ↔ holds ga c collision ∧ keep c = true) ∧
  (∀ c, c ∈ farther ↔ holds ga c collision ∧ keep c = false) ∧
  (∀ (l : list cell) c, f c ∈ f <$> l ↔ c ∈ l) ∧
  (∀ c, get (fallback_a ga keep) c =
        if decide (c ∈ farther) then Some (value no_tree)
        else if decide (c ∈ closer) then Some (value crown) else get ga c) ∧
  (∀ c, get (fallback_b f ga gb keep) c =
        if decide (c ∈ f <$> closer) then Some (value no_tree)
        else if decide (c ∈ f <$> farther) then Some (value crown)
        else get gb c).
Proof.
  intros Wa Wb Hl Hr Hab marked closer farther.
  assert (Hmarked : ∀ c, c ∈ marked ↔ holds ga c collision).
  { intros c. by apply elem_of_argwhere_eq. }
  assert (Hcl : ∀ c, c ∈ closer ↔ holds ga c collision ∧ keep c = true).
  { intros c. unfold closer. rewrite list_elem_of_filter, Hmarked. tauto. }
  assert (Hfa : ∀ c, c ∈ farther ↔ holds ga c collision ∧ keep c = false).
  { intros c. unfold farther. rewrite list_elem_of_filter, Hmarked, negb_true_iff.
    tauto. }
  assert (Ha1 : all_in_bounds (shape ga) closer).
  { apply list.Forall_forall. intros c Hc. apply Hcl in Hc as [Hc _].
    by eapply holds_in_bounds. }
  assert (Ha2 : all_in_bounds (shape ga) farther).
  { apply list.Forall_forall. intros c Hc. apply Hfa in Hc as [Hc _].
    by eapply holds_in_bounds. }
  assert (Hb1 : all_in_bounds (shape gb) (f <$> closer)).
  { apply list.Forall_forall. intros c' Hc'.
    apply list_elem_of_fmap in Hc' as (c & -> & Hc). apply Hcl in Hc as [Hc _].
    by eapply holds_in_bounds, Hab. }
  assert (Hb2 : all_in_bounds (shape gb) (f <$> farther)).
  { apply list.Forall_forall. intros c' Hc'.
    apply list_elem_of_fmap in Hc' as (c & -> & Hc). apply Hfa in Hc as [Hc _].
    by eapply holds_in_bounds, Hab. }
  split; [done|]. split; [done|]. split.
  { intros l c. by rewrite (elem_of_fmap_bij f finv), Hl. }
  split.
  - intros c. unfold fallback_a. fold marked. fold closer. fold farther.
    rewrite get_set_cells;
      [| by apply wf_set_cells | by rewrite shape_set_cells].
    by rewrite get_set_cells.
  - intros c. unfold fallback_b. fold marked. fold closer. fold farther.
    rewrite get_set_cells;
      [| by apply wf_set_cells | by rewrite shape_set_cells].
    by rewrite get_set_cells.
Qed.

(** Who gets a marked cell in the fallback. *)
Lemma fallback_awards f finv ga gb (keep : cell → bool) c :
  wf_array ga → wf_array gb →
  (∀ c, finv (f c) = c) → (∀ c, f (finv c) = c) →
  (∀ c, holds ga c collision → holds gb (f c) collision) →
  holds ga c collision →
  if keep c return Prop
  then holds (fallback_a ga keep) c crown ∧
       holds (fallback_b f ga gb keep) (f c) no_tree
  else holds (fallback_a ga keep) c no_tree ∧
       holds (fallback_b f ga gb keep) (f c) crown.
Proof.
  intros Wa Wb Hl Hr Hab Hc.
  destruct (fallback_gets f finv ga gb keep Wa Wb Hl Hr Hab)
    as (Hcl & Hfa & Hmem & Ga & Gb).
  set (marked := argwhere_eq ga (value collision)) in *.
  set (closer := filter (λ c, keep c = true) marked) in *.
  set (farther := filter (λ c, negb (keep c) = true) marked) in *.
  unfold holds. rewrite !Ga, !Gb.
  destruct (keep c) eqn:Hk.
  - assert (Hin : c ∈ closer) by (by apply Hcl).
    assert (Hout : c ∉ farther) by (rewrite Hfa; intros [_ ?]; congruence).
    destruct (decide (c ∈ farther)); [done|].
    destruct (decide (c ∈ closer)); [|done].
    destruct (decide (f c ∈ f <$> closer)) as [|N]; [done|].
    exfalso. apply N. by apply Hmem.
  - assert (Hin : c ∈ farther) by (by apply Hfa).
    assert (Hout : c ∉ closer) by (rewrite Hcl; intros [_ ?]; congruence).
    destruct (decide (c ∈ farther)); [|done].
    destruct (decide (f c ∈ f <$> closer)) as [Y|_].
    { exfalso. apply Hout. by apply Hmem. }
    destruct (decide (f c ∈ f <$> farther)) as [|N]; [done|].
    exfalso. apply N. by apply Hmem.
Qed.

Lemma paired_fallback f finv oa ob ga gb keep :
  paired f finv oa ob ga gb →
  paired f finv oa ob (fallback_a ga keep) (fallback_b f ga gb keep) ∧
  (∀ c, ¬ holds (fallback_a ga keep) c collision) ∧
  (∀ c, ¬ holds (fallback_b f ga gb keep) c collision).
Proof.
  intros [].
  destruct (fallback_gets f finv ga gb keep p_wf_a0 p_wf_b0 p_inv_l0 p_inv_r0
              p_mark_ab0) as (Hcl & Hfa & Hmem & Ga & Gb).
  set (marked := argwhere_eq ga (value collision)) in *.
  set (closer := filter (λ c, keep c = true) marked) in *.
  set (farther := filter (λ c, negb (keep c) = true) marked) in *.
  assert (Na : ∀ c, ¬ holds (fallback_a ga keep) c collision).
  { intros c. unfold holds. rewrite Ga.
    destruct (decide (c ∈ farther)) as [?|Hf]; [done|].
    destruct (decide (c ∈ closer)) as [?|Hc]; [done|].
    intros Hm. destruct (keep c) eqn:Hk; [apply Hc | apply Hf].
    - by apply Hcl. - by apply Hfa. }
  assert (Nb : ∀ c, ¬ holds (fallback_b f ga gb keep) c collision).
  { intros c. unfold holds. rewrite Gb.
    destruct (decide (c ∈ f <$> closer)) as [?|Hc]; [done|].
    destruct (decide (c ∈ f <$> farther)) as [?|Hf]; [done|].
    intros Hm. apply p_mark_ba0 in Hm.
    destruct (keep (finv c)) eqn:Hk; [apply Hc | apply Hf].
    - apply (elem_of_fmap_bij f finv); [done | done |]. by apply Hcl.
    - apply (elem_of_fmap_bij f finv); [done | done |]. by apply Hfa. }
  split; [|done].
  split; try done.
  - unfold fallback_a. by do 2 apply wf_set_cells.
  - unfold fallback_b. by do 2 apply wf_set_cells.
  - unfold fallback_a. by rewrite !shape_set_cells.
  - unfold fallback_b. by rewrite !shape_set_cells.
  - intros c Hc. by apply Na in Hc.
  - intros c Hc. by apply Nb in Hc.
  - intros c. unfold holds. rewrite Ga, Gb.
    destruct (decide (c ∈ farther)) as [?|Hf]; [done|].
    destruct (decide (c ∈ closer)) as [Hc|Hc].
    + by rewrite decide_True by (by apply Hmem).
    + rewrite !decide_False by (by rewrite Hmem). apply p_disjoint0.
  - intros c. unfold holds. rewrite Ga.
    destruct (decide (c ∈ farther)) as [?|Hf]; [by intros [|]|].
    destruct (decide (c ∈ closer)) as [Hc|Hc]; [|apply p_sub_a0].
    intros _. apply p_sub_a0. right. by apply Hcl.
  - intros c. unfold holds. rewrite Gb.
    destruct (decide (c ∈ f <$> closer)) as [?|Hc]; [by intros [|]|].
    destruct (decide (c ∈ f <$> farther)) as [Hf|Hf]; [|apply p_sub_b0].
    intros _. apply p_sub_b0. right.
    apply (elem_of_fmap_bij f finv) in Hf; [|done|done].
    apply Hfa in Hf as [Hf _].
    rewrite <- (p_inv_r0 c). by apply p_mark_ab0.
Qed.

(** ** Overlap detection and marking *)

(** The cells of a list that are in range of [g] and hold Crown there. *)
Definition crown_among (g : ndarray Z) (cells : list cell) : list cell :=
  filter (λ c, (item 0 g c =? value crown) = true)
    (filter (λ c, in_bounds (shape g) c = true) cells).

Definition neighbors_of (cells : list cell) : list cell :=
  c ← cells; (λ o, cell_add c o) <$> neighbor_offsets.

Lemma elem_of_crown_among g cells c :
  wf_array g → c ∈ crown_among g cells ↔ c ∈ cells ∧ holds g c crown.
Proof.
  intros Hg. unfold crown_among, holds. rewrite !list_elem_of_filter. split.
  - intros (Hv & Hc & Hin). split; [done|]. by apply item_eqb.
  - intros (Hin & Hv). pose proof (get_Some_in_bounds _ _ _ Hv) as Hc.
    split; [by apply item_eqb | done].
Qed.

Lemma get_colliding_cells_ok r cells s :
  wf_array (grid_of r s) →
  get_colliding_cells r cells s =
    Ok (crown_among (grid_of r s) cells,
        record_access (shape (grid_of r s))
          (filter (λ c, in_bounds (shape (grid_of r s)) c = true) cells) s).
Proof.
  intros Hg. unfold get_colliding_cells.
  rewrite (mbind_M_ok _ _ _ _ _ (trim_mask_ok _ _ _)).
  rewrite (mbind_M_ok _ _ _ _ _ (getitem_ok _ _ _ Hg
    (all_in_bounds_filter _ _ _ (λ _ H, H)))).
  unfold mret_M. by rewrite <- list_fmap_compose, select_flags.
Qed.

Lemma get_collision_edge_cells_ok r cells s :
  wf_array (grid_of r s) →
  get_collision_edge_cells r cells s =
    Ok (crown_among (grid_of r s) (neighbors_of cells),
        record_access (shape (grid_of r s))
          (filter (λ c, in_bounds (shape (grid_of r s)) c = true)
             (neighbors_of cells)) s).
Proof.
  intros Hg. unfold get_collision_edge_cells.
  rewrite (mbind_M_ok _ _ _ _ _ (trim_mask_ok _ _ _)).
  rewrite (mbind_M_ok _ _ _ _ _ (getitem_ok _ _ _ Hg
    (all_in_bounds_filter _ _ _ (λ _ H, H)))).
  unfold mret_M. by rewrite <- list_fmap_compose, select_flags.
Qed.

(** The cells of [gb] on which a Crown cell of [ga] lands. *)
Definition colliding (f : cell → cell) (ga gb : ndarray Z) : list cell :=
  crown_among gb (f <$> argwhere_eq ga (value crown)).

Lemma elem_of_colliding f finv ga gb c :
  wf_array ga → wf_array gb →
  (∀ c, finv (f c) = c) → (∀ c, f (finv c) = c) →
  c ∈ colliding f ga gb ↔ holds ga (finv c) crown ∧ holds gb c crown.
Proof.
  intros Ha Hb Hl Hr. unfold colliding.
  rewrite elem_of_crown_among, (elem_of_fmap_bij f finv) by done.
  by rewrite elem_of_argwhere_eq.
Qed.

Lemma paired_mark f finv ga gb :
  wf_array ga → wf_array gb →
  (∀ c, finv (f c) = c) → (∀ c, f (finv c) = c) →
  (∀ c, ¬ holds ga c collision) → (∀ c, ¬ holds gb c collision) →
  all_in_bounds (shape ga) (finv <$> colliding f ga gb) ∧
  all_in_bounds (shape gb) (colliding f ga gb) ∧
  paired f finv ga gb
    (set_cells ga (finv <$> colliding f ga gb) (value collision))
    (set_cells gb (colliding f ga gb) (value collision)).
Proof.
  intros Ha Hb Hl Hr Na Nb.
  set (K := colliding f ga gb).
  assert (HK : ∀ c, c ∈ K ↔ holds ga (finv c) crown ∧ holds gb c crown).
  { intros c. by apply elem_of_colliding. }
  assert (HK1 : ∀ c, c ∈ finv <$> K ↔ holds ga c crown ∧ holds gb (f c) crown).
  { intros c. rewrite (elem_of_fmap_bij finv f) by done. by rewrite HK, Hl. }
  assert (Ba : all_in_bounds (shape ga) (finv <$> K)).
  { apply list.Forall_forall. intros c Hc. apply HK1 in Hc as [Hc _].
    by eapply holds_in_bounds. }
  assert (Bb : all_in_bounds (shape gb) K).
  { apply list.Forall_forall. intros c Hc. apply HK in Hc as [_ Hc].
    by eapply holds_in_bounds. }
  split; [done|]. split; [done|].
  split; try done.
  - by apply wf_set_cells.
  - by apply wf_set_cells.
  - by rewrite shape_set_cells.
  - by rewrite shape_set_cells.
  - intros c. unfold holds. rewrite !get_set_cells by done.
    destruct (decide (c ∈ finv <$> K)) as [Hc|Hc]; [|by intros ?%Na].
    intros _. rewrite decide_True; [done|].
    apply HK1 in Hc. apply HK. by rewrite Hl.
  - intros c. unfold holds. rewrite !get_set_cells by done.
    destruct (decide (c ∈ K)) as [Hc|Hc]; [|by intros ?%Nb].
    intros _. rewrite decide_True; [done|].
    apply HK in Hc. apply HK1. by rewrite Hr.
  - intros c. unfold holds. rewrite !get_set_cells by done.
    destruct (decide (c ∈ finv <$> K)) as [Hc|Hc]; [done|].
    destruct (decide (f c ∈ K)) as [Hc'|Hc']; [done|].
    intros H1 H2. apply Hc, HK1. done.
  - intros c. unfold holds. rewrite !get_set_cells by done.
    destruct (decide (c ∈ finv <$> K)) as [Hc|Hc]; [|by intros [?|?%Na]].
    intros _. by apply HK1 in Hc as [? _].
  - intros c. unfold holds. rewrite !get_set_cells by done.
    destruct (decide (c ∈ K)) as [Hc|Hc]; [|by intros [?|?%Nb]].
    intros _. by apply HK in Hc as [_ ?].
Qed.

(** ** Total correctness of store computations

    [wp m Q s]: run from [s], [m] raises no exception and its result and
    final store satisfy [Q]. *)

Definition wp {A} (m : M A) (Q : A → store → Prop) (s : store) : Prop :=
  ∃ a s', m s = Ok (a, s') ∧ Q a s'.

Lemma wp_ret {A} (a : A) Q s : Q a s → wp (mret_M a) Q s.
Proof. intros H. by exists a, s. Qed.

Lemma wp_bind {A B} (m : M A) (k : A → M B) Q s :
  wp m (λ a s', wp (k a) Q s') s → wp (mbind_M m k) Q s.
Proof.
  intros (a & s' & Hm & b & s'' & Hk & HQ). exists b, s''.
  split; [|done]. by rewrite (mbind_M_ok _ _ _ _ _ Hm).
Qed.

Lemma wp_mono {A} (m : M A) (Q Q' : A → store → Prop) s :
  (∀ a s', Q a s' → Q' a s') → wp m Q s → wp m Q' s.
Proof. intros HQ (a & s' & Hm & H). exists a, s'. auto. Qed.

Lemma wp_read r Q s : Q (grid_of r s) s → wp (read r) Q s.
Proof. intros H. by exists (grid_of r s), s. Qed.

Lemma wp_trim_mask r mask Q s :
  Q (filter (λ c, in_bounds (shape (grid_of r s)) c = true) mask) s →
  wp (trim_mask r mask) Q s.
Proof. intros H. eexists _, _. split; [apply trim_mask_ok | done]. Qed.

Lemma wp_take {A} d (arr : ndarray A) cells Q s :
  wf_array arr → all_in_bounds (shape arr) cells →
  Q (item d arr <$> cells) (record_access (shape arr) cells s) →
  wp (take arr cells) Q s.
Proof. intros Ha Hin H. eexists _, _. split; [by apply (take_ok d) | done]. Qed.

Lemma wp_getitem r cells Q s :
  wf_array (grid_of r s) → all_in_bounds (shape (grid_of r s)) cells →
  Q (item 0 (grid_of r s) <$> cells)
    (record_access (shape (grid_of r s)) cells s) →
  wp (getitem r cells) Q s.
Proof. intros Ha Hin H. eexists _, _. split; [by apply getitem_ok | done]. Qed.

Lemma wp_setitem r cells v Q s :
  all_in_bounds (shape (grid_of r s)) cells →
  Q tt (with_grid r (set_cells (grid_of r s) cells v)
          (record_access (shape (grid_of r s)) cells s)) →
  wp (setitem r cells v) Q s.
Proof. intros Hin H. eexists _, _. split; [by apply setitem_ok | done]. Qed.

Definition tick (s : store) : store :=
  Store (tree1_grid s) (tree2_grid s) (accesses s) (S (draws s)).

Lemma grid_of_with_grid r g s : grid_of r (with_grid r g s) = g.
Proof. by destruct r. Qed.

Lemma grid_of_with_grid_ne r r' g s :
  r ≠ r' → grid_of r' (with_grid r g s) = grid_of r' s.
Proof. by destruct r, r'. Qed.

Lemma grid_of_record_access r sh cells s :
  grid_of r (record_access sh cells s) = grid_of r s.
Proof. by destruct r. Qed.

Lemma trace_ok_with_grid r g s : trace_ok (with_grid r g s) ↔ trace_ok s.
Proof. by destruct r. Qed.

Section RandomFacts.
Variable random_source : nat → nat.

Lemma wp_randint a b Q s :
  a ≤ b → (∀ k, a ≤ k ≤ b → Q k (tick s)) →
  wp (randint random_source a b) Q s.
Proof.
  intros Hab H. eexists _, _. split; [reflexivity|]. apply H.
  pose proof (Nat.mod_upper_bound (random_source (draws s))
                (Z.to_nat (b - a + 1))). lia.
Qed.

Lemma wp_choice {A} (seq : list A) Q s :
  seq ≠ [] → (∀ x, x ∈ seq → Q x (tick s)) →
  wp (choice random_source seq) Q s.
Proof.
  intros Hne H. destruct seq as [|y l]; [done|].
  assert (Hlt : (random_source (draws s) `mod` length (y :: l)
                 < length (y :: l))%nat).
  { by apply Nat.mod_upper_bound. }
  destruct (lookup_lt_is_Some_2 _ _ Hlt) as [x Hx].
  exists x, (tick s). split.
  - unfold choice, mbind_M, randbelow. cbv beta iota. simpl draws.
    by rewrite Hx.
  - apply H. by eapply list_elem_of_lookup_2.
Qed.
End RandomFacts.

Lemma draws_with_grid r g s : draws (with_grid r g s) = draws s.
Proof. by destruct r. Qed.

Lemma draws_record_access sh cells s : draws (record_access sh cells s) = draws s.
Proof. done. Qed.

Lemma zip_with_fmap_same {A B C D} (h : B → C → D) (a : A → B) (b : A → C) l :
  zip_with h (a <$> l) (b <$> l) = (λ x, h (a x) (b x)) <$> l.
Proof. by rewrite zip_with_fmap_l, zip_with_fmap_r, zip_with_diag. Qed.

(** The store after a set of marked cells of grid [ra] was awarded to
    it. *)
Lemma award_store ra rb f finv oa ob mask s :
  ra ≠ rb →
  paired f finv oa ob (grid_of ra s) (grid_of rb s) → trace_ok s →
  all_in_bounds (shape (grid_of ra s)) mask →
  let won := filter (λ c, (item 0 (grid_of ra s) c =? value collision) = true) mask in
  let s1 := record_access (shape (grid_of ra s)) mask s in
  let s2 := with_grid ra (set_cells (grid_of ra s) won (value crown))
              (record_access (shape (grid_of ra s)) won s1) in
  let s3 := with_grid rb (set_cells (grid_of rb s) (f <$> won) (value no_tree))
              (record_access (shape (grid_of rb s)) (f <$> won) s2) in
  all_in_bounds (shape (grid_of ra s)) won ∧
  all_in_bounds (shape (grid_of rb s)) (f <$> won) ∧
  grid_of rb s2 = grid_of rb s ∧
  paired f finv oa ob (grid_of ra s3) (grid_of rb s3) ∧ trace_ok s3 ∧
  draws s3 = draws s.
Proof.
  intros Hne Hp Ht Hmask won s1 s2 s3.
  assert (Hwon : ∀ c, c ∈ won → holds (grid_of ra s) c collision).
  { intros c Hc. apply list_elem_of_filter in Hc as [Hv Hc].
    apply item_eqb in Hv; [done | by destruct Hp |].
    by eapply list.Forall_forall in Hmask. }
  destruct (paired_award _ _ _ _ _ _ won Hp Hwon) as (Ba & Bb & Hp').
  split; [done|]. split; [done|].
  assert (E2 : grid_of rb s2 = grid_of rb s).
  { unfold s2, s1. by rewrite grid_of_with_grid_ne, !grid_of_record_access. }
  split; [done|].
  assert (Ea : grid_of ra s3 = set_cells (grid_of ra s) won (value crown)).
  { unfold s3, s2.
    by rewrite grid_of_with_grid_ne, grid_of_record_access, grid_of_with_grid. }
  assert (Eb : grid_of rb s3 = set_cells (grid_of rb s) (f <$> won) (value no_tree)).
  { unfold s3. by rewrite grid_of_with_grid. }
  rewrite Ea, Eb. split; [done|]. split.
  - unfold s3, s2, s1.
    apply trace_ok_with_grid, trace_ok_record_access; [|done].
    apply trace_ok_with_grid, trace_ok_record_access; [|done].
    by apply trace_ok_record_access.
  - unfold s3, s2, s1.
    by rewrite ?draws_with_grid, ?draws_record_access, ?draws_with_grid,
      ?draws_record_access.
Qed.

Lemma wp_award ra rb f finv oa ob cands (k : M unit) Q s :
  ra ≠ rb →
  paired f finv oa ob (grid_of ra s) (grid_of rb s) → trace_ok s →
  (∀ s', paired f finv oa ob (grid_of ra s') (grid_of rb s') → trace_ok s' →
         draws s' = draws s → wp k Q s') →
  wp (mask <- trim_mask rb cands ;;
      mask <- trim_mask ra (finv <$> mask) ;;
      vals <- getitem ra mask ;;
      setitem ra (select mask ((λ v, v =? value collision) <$> vals))
        (value crown) ;;;
      setitem rb (f <$> select mask ((λ v, v =? value collision) <$> vals))
        (value no_tree) ;;;
      k) Q s.
Proof.
  intros Hne Hp Ht Hk.
  apply wp_bind, wp_trim_mask. cbv beta.
  apply wp_bind, wp_trim_mask. cbv beta.
  set (mask := filter (λ c, in_bounds (shape (grid_of ra s)) c = true) _).
  assert (Hmask : all_in_bounds (shape (grid_of ra s)) mask).
  { by apply all_in_bounds_filter. }
  destruct (award_store ra rb f finv oa ob mask s Hne Hp Ht Hmask)
    as (Ba & Bb & E2 & Hp' & Ht' & Hd).
  apply wp_bind, wp_getitem; [by destruct Hp | done |]. cbv beta.
  rewrite <- list_fmap_compose, select_flags.
  apply wp_bind, wp_setitem; [by rewrite grid_of_record_access|].
  apply wp_bind, wp_setitem.
  - destruct ra, rb; done.
  - apply Hk; destruct ra, rb; done.
Qed.

Lemma wp_award_last ra rb f finv oa ob cands Q s :
  ra ≠ rb →
  paired f finv oa ob (grid_of ra s) (grid_of rb s) → trace_ok s →
  (∀ s', paired f finv oa ob (grid_of ra s') (grid_of rb s') → trace_ok s' →
         draws s' = draws s → Q tt s') →
  wp (mask <- trim_mask rb cands ;;
      mask <- trim_mask ra (finv <$> mask) ;;
      vals <- getitem ra mask ;;
      setitem ra (select mask ((λ v, v =? value collision) <$> vals))
        (value crown) ;;;
      setitem rb (f <$> select mask ((λ v, v =? value collision) <$> vals))
        (value no_tree)) Q s.
Proof.
  intros Hne Hp Ht Hk.
  apply wp_bind, wp_trim_mask. cbv beta.
  apply wp_bind, wp_trim_mask. cbv beta.
  set (mask := filter (λ c, in_bounds (shape (grid_of ra s)) c = true) _).
  assert (Hmask : all_in_bounds (shape (grid_of ra s)) mask).
  { by apply all_in_bounds_filter. }
  destruct (award_store ra rb f finv oa ob mask s Hne Hp Ht Hmask)
    as (Ba & Bb & E2 & Hp' & Ht' & Hd).
  apply wp_bind, wp_getitem; [by destruct Hp | done |]. cbv beta.
  rewrite <- list_fmap_compose, select_flags.
  apply wp_bind, wp_setitem; [by rewrite grid_of_record_access|].
  apply wp_setitem.
  - destruct ra, rb; done.
  - apply Hk; destruct ra, rb; done.
Qed.

(** ** The resolver keeps the invariant *)

Definition resolving (t : cell) (o1 o2 : ndarray Z) (s : store) : Prop :=
  paired (λ c, cell_add c t) (λ c, cell_sub c t) o1 o2
    (tree1_grid s) (tree2_grid s) ∧ trace_ok s.

Definition unmarked (g : ndarray Z) : Prop := ∀ c, ¬ holds g c collision.

Definition resolved (t : cell) (o1 o2 : ndarray Z) (s : store) : Prop :=
  resolving t o1 o2 s ∧ unmarked (tree1_grid s) ∧ unmarked (tree2_grid s).

Section ResolverFacts.
Variable random_source : nat → nat.
Variable distance_transform_edt : ndarray bool → ndarray Q.
Hypothesis edt_shape : ∀ m, shape (distance_transform_edt m) = shape m.
Hypothesis edt_wf : ∀ m, wf_array m → wf_array (distance_transform_edt m).

Lemma wp_growth_round t o1 o2 e1 e2 s :
  resolving t o1 o2 s → e1 ≠ [] → e2 ≠ [] →
  wp (growth_round random_source e1 e2 t) (λ _ s', resolving t o1 o2 s') s.
Proof.
  intros [Hp Ht] H1 H2. unfold growth_round. cbv zeta.
  apply wp_bind, wp_randint; [lia|]. intros r Hr. cbv beta.
  apply wp_bind, wp_choice; [done|]. intros x1 Hx1. cbv beta.
  apply (wp_award Tree1 Tree2 (λ c, cell_add c t) (λ c, cell_sub c t) o1 o2);
    [done | exact Hp | exact Ht |].
  intros s1 Hp1 Ht1 _.
  apply wp_bind, wp_choice; [done|]. intros x2 Hx2. cbv beta.
  apply (wp_award_last Tree2 Tree1 (λ c, cell_sub c t) (λ c, cell_add c t) o2 o1);
    [done | by apply paired_sym | exact Ht1 |].
  intros s2 Hp2 Ht2 _. split; [|done]. by apply paired_sym.
Qed.

Lemma wp_for_range n body (I : store → Prop) s :
  (∀ s, I s → wp body (λ _, I) s) → I s →
  wp (for_range n body) (λ _, I) s.
Proof.
  intros Hbody. revert s. induction n as [|n IH]; intros s Hs.
  - by apply wp_ret.
  - simpl. apply wp_bind. eapply wp_mono; [|by apply Hbody].
    intros u s' Hs'. by apply IH.
Qed.

Lemma wf_not_owned_mask g : wf_array g → wf_array (not_owned_mask g).
Proof.
  intros [Hsh Hlen]. split; [done|]. unfold not_owned_mask, np_zip_with, np_map.
  cbn [data shape]. by rewrite length_zip_with, !length_fmap, Nat.min_id.
Qed.

(** The fallback's comparison for a marked cell of tree 1: its distance
    in tree 1 is smaller than or equal to the distance of the
    corresponding cell in tree 2. *)
Definition tree1_closer (t : cell) (g1 g2 : ndarray Z) (c : cell) : bool :=
  fle (item 0%Q (distance_transform_edt (not_owned_mask g1)) c)
      (item 0%Q (distance_transform_edt (not_owned_mask g2)) (cell_add c t)).

Lemma marked_in_bounds_b (f : cell → cell) (ga gb : ndarray Z) (P : cell → Prop)
    `{∀ c, Decision (P c)} :
  wf_array ga →
  (∀ c, holds ga c collision → holds gb (f c) collision) →
  all_in_bounds (shape gb) (f <$> filter P (argwhere_eq ga (value collision))).
Proof.
  intros Wa Hab. apply list.Forall_forall. intros c' Hc'.
  apply list_elem_of_fmap in Hc' as (c & -> & Hc).
  apply list_elem_of_filter in Hc as [_ Hc].
  apply elem_of_argwhere_eq in Hc; [|done].
  eapply holds_in_bounds. by apply Hab.
Qed.

Lemma marked_in_bounds_a (ga : ndarray Z) v (P : cell → Prop)
    `{∀ c, Decision (P c)} :
  wf_array ga → all_in_bounds (shape ga) (filter P (argwhere_eq ga v)).
Proof.
  intros Ha. apply list.Forall_forall. intros c Hc.
  apply list_elem_of_filter in Hc as [_ Hc].
  apply elem_of_argwhere_eq in Hc; [|done]. by eapply get_Some_in_bounds.
Qed.

Lemma wp_assign_rest t Q s :
  wf_array (tree1_grid s) → wf_array (tree2_grid s) → trace_ok s →
  (∀ c, holds (tree1_grid s) c collision →
        holds (tree2_grid s) (cell_add c t) collision) →
  (∀ s',
     tree1_grid s' =
       fallback_a (tree1_grid s)
         (tree1_closer t (tree1_grid s) (tree2_grid s)) →
     tree2_grid s' =
       fallback_b (λ c, cell_add c t) (tree1_grid s) (tree2_grid s)
         (tree1_closer t (tree1_grid s) (tree2_grid s)) →
     trace_ok s' → Q tt s') →
  wp (assign_rest_of_collision_cells distance_transform_edt t) Q s.
Proof.
  intros W1 W2 Ht Hab HQ. unfold assign_rest_of_collision_cells. cbv zeta.
  set (ms := argwhere_eq (tree1_grid s) (value collision)).
  assert (B1 : all_in_bounds (shape (tree1_grid s)) ms).
  { by apply all_in_bounds_argwhere_eq. }
  assert (B2 : all_in_bounds (shape (tree2_grid s))
                 ((λ c, cell_add c t) <$> ms)).
  { apply list.Forall_forall. intros c' Hc'.
    apply list_elem_of_fmap in Hc' as (c & -> & Hc).
    apply elem_of_argwhere_eq in Hc; [|done].
    eapply holds_in_bounds. by apply Hab. }
  apply wp_bind, wp_read. cbn [grid_of]. fold ms.
  apply wp_bind, (wp_take 0%Q);
    [by apply edt_wf, wf_not_owned_mask | by rewrite edt_shape |].
  apply wp_bind, wp_read. cbn [grid_of record_access tree2_grid].
  apply wp_bind, (wp_take 0%Q);
    [by apply edt_wf, wf_not_owned_mask | by rewrite edt_shape |].
  rewrite <- !list_fmap_compose, !zip_with_fmap_same.
  rewrite !select_flags, !select_fmap.
  set (keep := tree1_closer t (tree1_grid s) (tree2_grid s)).
  change (filter _ ms) with (filter (λ c, keep c = true) ms) at 1.
  apply wp_bind, wp_setitem; cbn [grid_of record_access tree1_grid];
    [by apply marked_in_bounds_a|].
  apply wp_bind, wp_setitem; cbn [grid_of with_grid record_access tree1_grid];
    [rewrite shape_set_cells; by apply marked_in_bounds_a|].
  apply wp_bind, wp_setitem;
    cbn [grid_of with_grid record_access tree1_grid tree2_grid];
    [by eapply marked_in_bounds_b|].
  apply wp_setitem;
    cbn [grid_of with_grid record_access tree1_grid tree2_grid];
    [rewrite shape_set_cells; by eapply marked_in_bounds_b|].
  apply HQ; cbn [tree1_grid tree2_grid]; [done | done |].
  unfold trace_ok. cbn [accesses]. rewrite !shape_set_cells, !edt_shape.
  cbn [shape not_owned_mask np_zip_with np_map].
  repeat (apply Forall_app; split); try done.
  all: apply Forall_fmap; (eapply Forall_impl; [|first [exact B1 | exact B2 | by apply marked_in_bounds_a | by eapply marked_in_bounds_b]]);
    done.
Qed.

Lemma trace_entries_ok sh cells :
  all_in_bounds sh cells →
  Forall (λ p : cell * cell, in_bounds p.1 p.2 = true)
    ((λ c, (sh, c)) <$> cells).
Proof. intros H. apply Forall_fmap. eapply Forall_impl; [|exact H]. done. Qed.

Lemma wp_of_eq {A} (m : M A) Q s a s' : m s = Ok (a, s') → Q a s' → wp m Q s.
Proof. intros Hm HQ. by exists a, s'. Qed.

Lemma wp_assign_rest_resolved t o1 o2 s :
  resolving t o1 o2 s →
  wp (assign_rest_of_collision_cells distance_transform_edt t)
     (λ _ s', resolved t o1 o2 s') s.
Proof.
  intros [Hp Ht]. apply wp_assign_rest;
    [by destruct Hp | by destruct Hp | done | by destruct Hp |].
  intros s' E1 E2 Ht'.
  destruct (paired_fallback _ _ _ _ _ _
              (tree1_closer t (tree1_grid s) (tree2_grid s)) Hp)
    as (Hp' & N1 & N2).
  unfold resolved, resolving, unmarked. by rewrite E1, E2.
Qed.

Lemma wp_assign_collision_cells t o1 o2 e1 e2 s :
  resolving t o1 o2 s →
  wp (assign_collision_cells random_source distance_transform_edt e1 e2 t)
     (λ _ s', resolved t o1 o2 s') s.
Proof.
  intros Hr. unfold assign_collision_cells. cbv zeta.
  destruct (decide (length e1 = 0%nat ∨ length e2 = 0%nat)) as [Hz|Hnz].
  - by apply wp_assign_rest_resolved.
  - apply wp_bind.
    eapply wp_mono;
      [|apply (wp_for_range _ _ (resolving t o1 o2)); [|exact Hr]].
    + intros u s' Hs'. by apply wp_assign_rest_resolved.
    + intros s' Hs'. apply wp_growth_round; [done | |].
      * intros ->. apply Hnz. by left.
      * intros ->. apply Hnz. by right.
Qed.

Lemma colliding_in_bounds t (g1 g2 : ndarray Z) :
  wf_array g1 → wf_array g2 →
  all_in_bounds (shape g1)
    ((λ c, cell_sub c t) <$> colliding (λ c, cell_add c t) g1 g2) ∧
  all_in_bounds (shape g2) (colliding (λ c, cell_add c t) g1 g2).
Proof.
  intros W1 W2.
  assert (HK : ∀ c, c ∈ colliding (λ c, cell_add c t) g1 g2 →
                    holds g1 (cell_sub c t) crown ∧ holds g2 c crown).
  { intros c. apply (elem_of_colliding _ (λ c, cell_sub c t)); try done.
    - intros c'. apply cell_add_sub.
    - intros c'. apply cell_sub_add. }
  split; apply list.Forall_forall; intros c Hc.
  - apply list_elem_of_fmap in Hc as (c' & -> & Hc). apply HK in Hc as [Hc _].
    by eapply holds_in_bounds.
  - apply HK in Hc as [_ Hc]. by eapply holds_in_bounds.
Qed.

Lemma wp_mark_collision_cells t Q s :
  wf_array (tree1_grid s) → wf_array (tree2_grid s) → trace_ok s →
  (colliding (λ c, cell_add c t) (tree1_grid s) (tree2_grid s) = [] →
   ∀ s', tree1_grid s' = tree1_grid s → tree2_grid s' = tree2_grid s →
         trace_ok s' → Q None s') →
  (colliding (λ c, cell_add c t) (tree1_grid s) (tree2_grid s) ≠ [] →
   ∀ s',
     tree1_grid s' =
       set_cells (tree1_grid s)
         ((λ c, cell_sub c t) <$>
            colliding (λ c, cell_add c t) (tree1_grid s) (tree2_grid s))
         (value collision) →
     tree2_grid s' =
       set_cells (tree2_grid s)
         (colliding (λ c, cell_add c t) (tree1_grid s) (tree2_grid s))
         (value collision) →
     trace_ok s' →
     Q (Some
          (crown_among (tree1_grid s)
             (neighbors_of
                ((λ c, cell_sub c t) <$>
                   colliding (λ c, cell_add c t) (tree1_grid s) (tree2_grid s))),
           crown_among (tree2_grid s)
             (neighbors_of
                (colliding (λ c, cell_add c t) (tree1_grid s) (tree2_grid s)))))
       s') →
  wp (mark_collision_cells t) Q s.
Proof.
  intros W1 W2 Ht HNone HSome. unfold mark_collision_cells. cbv zeta.
  destruct (colliding_in_bounds t _ _ W1 W2) as [B1 B2].
  apply wp_bind, wp_read. cbn [grid_of].
  apply wp_bind. eapply wp_of_eq; [by apply get_colliding_cells_ok|].
  cbn [grid_of]. fold (colliding (λ c, cell_add c t) (tree1_grid s) (tree2_grid s)).
  set (K := colliding (λ c, cell_add c t) (tree1_grid s) (tree2_grid s)) in *.
  destruct (decide (length K = 0%nat)) as [Hz|Hnz].
  - apply wp_ret. apply HNone; [by apply nil_length_inv | done | done |].
    apply trace_ok_record_access; [done|]. by apply all_in_bounds_filter.
  - apply wp_bind. eapply wp_of_eq; [by apply get_collision_edge_cells_ok|].
    cbn [grid_of record_access tree1_grid].
    apply wp_bind. eapply wp_of_eq; [by apply get_collision_edge_cells_ok|].
    cbn [grid_of record_access tree2_grid].
    apply wp_bind, wp_setitem; cbn [grid_of record_access tree1_grid]; [done|].
    apply wp_bind, wp_setitem;
      cbn [grid_of with_grid record_access tree1_grid tree2_grid]; [done|].
    apply wp_ret. apply HSome; [by intros ->| done | done |].
    unfold trace_ok. cbn [accesses].
    repeat (apply Forall_app; split); try done.
    all: apply trace_entries_ok;
      first [ exact B1 | exact B2 | by apply all_in_bounds_filter ].
Qed.

Lemma wp_resolve_collision tree1 tree2 s :
  wf_array (tree1_grid s) → wf_array (tree2_grid s) →
  unmarked (tree1_grid s) → unmarked (tree2_grid s) → trace_ok s →
  wp (resolve_collision random_source distance_transform_edt tree1 tree2)
     (λ _ s', resolved (cell_sub tree1 tree2) (tree1_grid s) (tree2_grid s) s')
     s.
Proof.
  intros W1 W2 N1 N2 Ht. unfold resolve_collision. cbv zeta.
  set (t := cell_sub tree1 tree2).
  destruct (paired_mark (λ c, cell_add c t) (λ c, cell_sub c t)
              (tree1_grid s) (tree2_grid s) W1 W2
              (λ c, cell_add_sub c t) (λ c, cell_sub_add c t) N1 N2)
    as (_ & _ & Hp).
  apply wp_bind, wp_mark_collision_cells; try done.
  - intros HK s' E1 E2 Ht'. apply wp_ret.
    rewrite HK in Hp. unfold resolved, resolving. by rewrite E1, E2.
  - intros HK s' E1 E2 Ht'. apply wp_assign_collision_cells.
    unfold resolving. by rewrite E1, E2.
Qed.
End ResolverFacts.

(** ** Statements about a pair of trees *)

(** What is assumed of the distance transform: its result has the shape
    of its argument. *)
Definition shape_preserving (edt : ndarray bool → ndarray Q) : Prop :=
  (∀ m, shape (edt m) = shape m) ∧ (∀ m, wf_array m → wf_array (edt m)).

(** No cell of the grid holds the collision marker. *)
Definition no_marker (g : ndarray Z) : bool :=
  forallb (λ v, negb (v =? value collision)) (data g).

(** The marked cells of the two grids correspond under the translation. *)
Definition marks_agree (t : cell) (g1 g2 : ndarray Z) : bool :=
  forallb (λ c, bool_decide (get g2 (cell_add c t) = Some (value collision)))
    (argwhere_eq g1 (value collision)).

(** No Crown cell of tree 1 lands on a Crown cell of tree 2. *)
Definition crowns_disjoint (t : cell) (g1 g2 : ndarray Z) : bool :=
  forallb (λ c, negb (bool_decide (get g2 (cell_add c t) = Some (value crown))))
    (argwhere_eq g1 (value crown)).

Definition count_crown (g : ndarray Z) : nat :=
  length (argwhere_eq g (value crown)).

(** The store a call of [resolve_collision] starts from. *)
Definition initial_store (g1 g2 : ndarray Z) (n : nat) : store := Store g1 g2 [] n.

Lemma no_marker_unmarked g : no_marker g = true → unmarked g.
Proof.
  intros Hn c Hc. unfold holds, get in Hc.
  destruct (in_bounds (shape g) c); [|done].
  apply list_elem_of_lookup_2, list_elem_of_In in Hc.
  unfold no_marker in Hn. rewrite forallb_forall in Hn.
  specialize (Hn _ Hc). by rewrite Z.eqb_refl in Hn.
Qed.

Lemma unmarked_no_marker g : wf_array g → unmarked g → no_marker g = true.
Proof.
  intros [Hsh Hlen] Hn. unfold no_marker. apply forallb_forall. intros v Hv.
  apply list_elem_of_In, list_elem_of_lookup_1 in Hv as [i Hi].
  apply negb_true_iff, Z.eqb_neq. intros ->.
  pose proof (lookup_lt_Some _ _ _ Hi) as Hlt.
  apply (Hn (unravel (shape g) (Z.of_nat i))). unfold holds, get.
  rewrite in_bounds_unravel, ravel_unravel by (done || lia).
  by rewrite Nat2Z.id.
Qed.

Lemma marks_agree_spec t g1 g2 c :
  wf_array g1 → marks_agree t g1 g2 = true →
  holds g1 c collision → holds g2 (cell_add c t) collision.
Proof.
  intros W1 Hm Hc. unfold marks_agree in Hm. rewrite forallb_forall in Hm.
  apply (elem_of_argwhere_eq _ _ _ W1), list_elem_of_In in Hc.
  by apply Hm, bool_decide_eq_true in Hc.
Qed.

Lemma crowns_disjoint_colliding t g1 g2 :
  wf_array g1 → wf_array g2 → crowns_disjoint t g1 g2 = true →
  colliding (λ c, cell_add c t) g1 g2 = [].
Proof.
  intros W1 W2 Hd. apply list.elem_of_nil_inv. intros c Hc.
  apply (elem_of_colliding _ (λ c, cell_sub c t)) in Hc as [H1 H2];
    [|done|done|intros; apply cell_add_sub|intros; apply cell_sub_add].
  unfold crowns_disjoint in Hd. rewrite forallb_forall in Hd.
  apply (elem_of_argwhere_eq _ _ _ W1), list_elem_of_In, Hd in H1.
  apply negb_true_iff, bool_decide_eq_false in H1. apply H1.
  by rewrite cell_sub_add.
Qed.

Lemma length_filter_impl {A} (P Q : A → Prop) `{∀ x, Decision (P x)}
    `{∀ x, Decision (Q x)} (l : list A) :
  (∀ x, x ∈ l → P x → Q x) → (length (filter P l) ≤ length (filter Q l))%nat.
Proof.
  induction l as [|x l IH]; intros HPQ; [done|].
  rewrite !filter_cons.
  assert (IH' : (length (filter P l) ≤ length (filter Q l))%nat).
  { apply IH. intros y Hy. apply HPQ. by right. }
  destruct (decide (P x)) as [HP|HP]; destruct (decide (Q x)) as [HQ|HQ];
    simpl; try lia.
  exfalso. apply HQ, HPQ; [left | done].
Qed.

Lemma count_crown_le g g' :
  shape g' = shape g → (∀ c, holds g' c crown → holds g c crown) →
  (count_crown g' ≤ count_crown g)%nat.
Proof.
  intros Hsh Hsub. unfold count_crown, argwhere_eq. rewrite Hsh.
  apply length_filter_impl. intros c _. apply Hsub.
Qed.

(** The run of [resolve_collision] on two unmarked grids. *)
Lemma resolve_collision_run rand edt tree1 tree2 g1 g2 n :
  shape_preserving edt →
  wf_array g1 → wf_array g2 → no_marker g1 = true → no_marker g2 = true →
  ∃ s', resolve_collision rand edt tree1 tree2 (initial_store g1 g2 n)
          = Ok (tt, s') ∧
        resolved (cell_sub tree1 tree2) g1 g2 s'.
Proof.
  intros [E1 E2] W1 W2 N1 N2.
  destruct (wp_resolve_collision rand edt E1 E2 tree1 tree2
              (initial_store g1 g2 n) W1 W2
              (no_marker_unmarked _ N1) (no_marker_unmarked _ N2))
    as ([] & s' & Hrun & Hres); [by apply Forall_nil|].
  by exists s'.
Qed.

(** The array has as many elements as its shape says. *)
Definition well_formed {A} (a : ndarray A) : bool :=
  let '(nx, ny, nz) := shape a in
  (0 <=? nx) && (0 <=? ny) && (0 <=? nz)
  && (Z.of_nat (length (data a)) =? size_of (shape a)).

Lemma well_formed_wf {A} (a : ndarray A) : well_formed a = true → wf_array a.
Proof.
  unfold well_formed, wf_array, wf_shape. destruct (shape a) as [[nx ny] nz].
  rewrite !andb_true_iff, !Z.leb_le, Z.eqb_eq. tauto.
Qed.

Lemma wf_well_formed {A} (a : ndarray A) : wf_array a → well_formed a = true.
Proof.
  unfold well_formed, wf_array, wf_shape. destruct (shape a) as [[nx ny] nz].
  rewrite !andb_true_iff, !Z.leb_le, Z.eqb_eq. tauto.
Qed.

(** ** Clean trees stay clean over the evaluation pass *)

Definition clean_tree (t : tree) : bool :=
  well_formed (grid t) && no_marker (grid t).

Definition valid_pair (n : nat) (pair : nat * nat) : bool :=
  (pair.1 <? pair.2)%nat && (pair.2 <? n)%nat.

Lemma elem_of_insert_inv {A} (l : list A) i (x y : A) :
  x ∈ <[i:=y]> l → x = y ∨ x ∈ l.
Proof.
  intros Hx. apply list_elem_of_lookup_1 in Hx as [j Hj].
  apply list_lookup_insert_Some in Hj as [(_ & -> & _)|[_ Hj]]; [by left|].
  right. by eapply list_elem_of_lookup_2.
Qed.

Lemma resolve_trees_clean rand edt trees pair n :
  shape_preserving edt →
  forallb clean_tree trees = true → valid_pair (length trees) pair = true →
  ∃ trees' n', resolve_trees rand edt trees pair n = Ok (trees', n') ∧
    length trees' = length trees ∧ forallb clean_tree trees' = true.
Proof.
  intros He Hc Hp. destruct pair as [i j]. unfold valid_pair in Hp. simpl in Hp.
  apply andb_true_iff in Hp as [Hij Hj].
  apply Nat.ltb_lt in Hij, Hj.
  destruct (lookup_lt_is_Some_2 trees i ltac:(lia)) as [ti Hti].
  destruct (lookup_lt_is_Some_2 trees j Hj) as [tj Htj].
  rewrite forallb_forall in Hc.
  assert (Ci : clean_tree ti = true).
  { apply Hc, list_elem_of_In. by eapply list_elem_of_lookup_2. }
  assert (Cj : clean_tree tj = true).
  { apply Hc, list_elem_of_In. by eapply list_elem_of_lookup_2. }
  apply andb_true_iff in Ci as [Wi Ni], Cj as [Wj Nj].
  destruct (resolve_collision_run rand edt (position ti) (position tj)
              (grid ti) (grid tj) n He
              (well_formed_wf _ Wi) (well_formed_wf _ Wj) Ni Nj)
    as (s' & Hrun & [[Hpair _] [U1 U2]]).
  unfold resolve_trees. simpl. rewrite Hti, Htj. simpl.
  unfold initial_store in Hrun. rewrite Hrun. simpl.
  eexists _, _. split; [done|]. split; [by rewrite !length_insert|].
  apply forallb_forall. intros t Ht. apply list_elem_of_In in Ht.
  apply elem_of_insert_inv in Ht as [->|Ht].
  { unfold clean_tree. simpl. apply andb_true_iff. split.
    - apply wf_well_formed. by destruct Hpair.
    - apply unmarked_no_marker; [by destruct Hpair | done]. }
  apply elem_of_insert_inv in Ht as [->|Ht].
  { unfold clean_tree. simpl. apply andb_true_iff. split.
    - apply wf_well_formed. by destruct Hpair.
    - apply unmarked_no_marker; [by destruct Hpair | done]. }
  by apply Hc, list_elem_of_In.
Qed.

Lemma evaluate_pairs_clean rand edt pairs trees n :
  shape_preserving edt →
  forallb clean_tree trees = true →
  forallb (valid_pair (length trees)) pairs = true →
  ∃ trees' n', evaluate_pairs rand edt pairs trees n = Ok (trees', n') ∧
    length trees' = length trees ∧ forallb clean_tree trees' = true.
Proof.
  intros He. revert trees n. induction pairs as [|p rest IH];
    intros trees n Hc Hp.
  - by exists trees, n.
  - simpl in Hp. apply andb_true_iff in Hp as [Hp Hrest].
    destruct (resolve_trees_clean rand edt trees p n He Hc Hp)
      as (trees1 & n1 & Hrun & Hlen & Hc1).
    destruct (IH trees1 n1 Hc1) as (trees2 & n2 & Hrun2 & Hlen2 & Hc2).
    { by rewrite Hlen. }
    exists trees2, n2. simpl. rewrite Hrun. simpl.
    split; [done|]. split; [congruence | done].
Qed.

(** ** Example inputs *)

(** A distance field used in the examples: the distance of a cell to the
    plane x = -1. *)
Definition plane_distance (m : ndarray bool) : ndarray Q :=
  tabulate (shape m) (λ c, inject_Z (c.1.1 + 1)).

Lemma plane_distance_shape_preserving : shape_preserving plane_distance.
Proof.
  split; [done|]. intros m [Hsh _]. by apply wf_tabulate.
Defined.

(** Three Crown cells in a row. *)
Definition crown_row : ndarray Z := NDArray (3, 1, 1) [2; 2; 2].

(** ** Claims about collision resolution *)

(** C1. After [resolve_collision] on two trees whose grids hold no
    marker, no voxel is Crown in both grids: a Crown cell [c] of tree 1
    never corresponds to a Crown cell [c + translation] of tree 2.  And
    in the fallback every marked cell goes to the grid with the strictly
    smaller distance, a tie going to tree 1. *)
Theorem resolve_collision_no_shared_crown
    (rand : nat → nat) (edt : ndarray bool → ndarray Q)
    (tree1 tree2 : cell) (g1 g2 : ndarray Z) (n : nat)
    (t : cell) (h1 h2 : ndarray Z) (k : nat) :
  shape_preserving edt →
  well_formed g1 = true → well_formed g2 = true →
  no_marker g1 = true → no_marker g2 = true →
  well_formed h1 = true → well_formed h2 = true →
  marks_agree t h1 h2 = true →
  (∃ s', resolve_collision rand edt tree1 tree2 (initial_store g1 g2 n)
           = Ok (tt, s') ∧
     ∀ c, holds (tree1_grid s') c crown →
          ¬ holds (tree2_grid s') (cell_add c (cell_sub tree1 tree2)) crown) ∧
  (∃ s', assign_rest_of_collision_cells edt t (initial_store h1 h2 k)
           = Ok (tt, s') ∧
     ∀ c, holds h1 c collision →
       let d1 := item 0%Q (edt (not_owned_mask h1)) c in
       let d2 := item 0%Q (edt (not_owned_mask h2)) (cell_add c t) in
       ((d1 <= d2)%Q → holds (tree1_grid s') c crown ∧
                        holds (tree2_grid s') (cell_add c t) no_tree) ∧
       ((d2 < d1)%Q → holds (tree1_grid s') c no_tree ∧
                       holds (tree2_grid s') (cell_add c t) crown)).
Proof.
  intros He W1 W2 N1 N2 V1 V2 Hm. split.
  - destruct (resolve_collision_run rand edt tree1 tree2 g1 g2 n He
                (well_formed_wf _ W1) (well_formed_wf _ W2) N1 N2)
      as (s' & Hrun & [[Hp _] _]).
    exists s'. split; [done|]. apply (p_disjoint _ _ _ _ _ _ Hp).
  - apply well_formed_wf in V1, V2. destruct He as [E1 E2].
    assert (Hab : ∀ c, holds h1 c collision → holds h2 (cell_add c t) collision).
    { intros c. by apply marks_agree_spec. }
    destruct (wp_assign_rest edt E1 E2 t
                (λ _ s', tree1_grid s' =
                   fallback_a h1 (tree1_closer edt t h1 h2) ∧
                 tree2_grid s' =
                   fallback_b (λ c, cell_add c t) h1 h2 (tree1_closer edt t h1 h2))
                (initial_store h1 h2 k) V1 V2 (Forall_nil_2 _) Hab)
      as ([] & s' & Hrun & G1 & G2); [done|].
    exists s'. split; [done|]. intros c Hc d1 d2. rewrite G1, G2.
    pose proof (fallback_awards (λ c, cell_add c t) (λ c, cell_sub c t) h1 h2
                  (tree1_closer edt t h1 h2) c V1 V2
                  (λ c, cell_add_sub c t) (λ c, cell_sub_add c t) Hab Hc) as Hw.
    unfold tree1_closer, fle in Hw. fold d1 d2 in Hw.
    destruct (Qle_bool d1 d2) eqn:Hle.
    + apply Qle_bool_iff in Hle. split; [done|].
      intros Hlt. exfalso. by apply (Qlt_not_le _ _ Hlt).
    + split; [|done]. intros Hle'. apply Qle_bool_iff in Hle'. congruence.
Qed.

Lemma resolve_collision_no_shared_crown_witness :
  (∃ s', resolve_collision (λ n, n) plane_distance (1, 0, 0) (0, 0, 0)
           (initial_store crown_row crown_row 0) = Ok (tt, s') ∧
     ∀ c, holds (tree1_grid s') c crown →
          ¬ holds (tree2_grid s')
              (cell_add c (cell_sub (1, 0, 0) (0, 0, 0))) crown) ∧
  (∃ s', assign_rest_of_collision_cells plane_distance (1, 0, 0)
           (initial_store (NDArray (3, 1, 1) [3; 3; 2])
                          (NDArray (3, 1, 1) [2; 3; 3]) 0) = Ok (tt, s') ∧
     ∀ c, holds (NDArray (3, 1, 1) [3; 3; 2]) c collision →
       let d1 := item 0%Q (plane_distance
                   (not_owned_mask (NDArray (3, 1, 1) [3; 3; 2]))) c in
       let d2 := item 0%Q (plane_distance
                   (not_owned_mask (NDArray (3, 1, 1) [2; 3; 3])))
                   (cell_add c (1, 0, 0)) in
       ((d1 <= d2)%Q → holds (tree1_grid s') c crown ∧
                        holds (tree2_grid s') (cell_add c (1, 0, 0)) no_tree) ∧
       ((d2 < d1)%Q → holds (tree1_grid s') c no_tree ∧
                       holds (tree2_grid s') (cell_add c (1, 0, 0)) crown)).
Proof.
  apply (resolve_collision_no_shared_crown (λ n, n) plane_distance
           (1, 0, 0) (0, 0, 0) crown_row crown_row 0
           (1, 0, 0) (NDArray (3, 1, 1) [3; 3; 2]) (NDArray (3, 1, 1) [2; 3; 3]) 0);
    [exact plane_distance_shape_preserving | reflexivity ..].
Defined.

(** C3. After [resolve_collision] on two trees whose grids hold no
    marker, neither grid holds a marker; hence after the loop over all
    candidate pairs no grid of the forest holds one. *)
Theorem resolve_collision_eliminates_markers
    (rand : nat → nat) (edt : ndarray bool → ndarray Q)
    (tree1 tree2 : cell) (g1 g2 : ndarray Z) (n : nat)
    (pairs : list (nat * nat)) (trees : list tree) :
  shape_preserving edt →
  well_formed g1 = true → well_formed g2 = true →
  no_marker g1 = true → no_marker g2 = true →
  forallb clean_tree trees = true →
  forallb (valid_pair (length trees)) pairs = true →
  (∃ s', resolve_collision rand edt tree1 tree2 (initial_store g1 g2 n)
           = Ok (tt, s') ∧
     no_marker (tree1_grid s') = true ∧ no_marker (tree2_grid s') = true) ∧
  (∃ trees' n', evaluate_pairs rand edt pairs trees n = Ok (trees', n') ∧
     forallb (λ t, no_marker (grid t)) trees' = true).
Proof.
  intros He W1 W2 N1 N2 Hc Hp. split.
  - destruct (resolve_collision_run rand edt tree1 tree2 g1 g2 n He
                (well_formed_wf _ W1) (well_formed_wf _ W2) N1 N2)
      as (s' & Hrun & [[Hpair _] [U1 U2]]).
    exists s'. split; [done|].
    split; apply unmarked_no_marker; (done || by destruct Hpair).
  - destruct (evaluate_pairs_clean rand edt pairs trees n He Hc Hp)
      as (trees' & n' & Hrun & _ & Hc').
    exists trees', n'. split; [done|].
    rewrite forallb_forall in Hc'. apply forallb_forall. intros x Hx.
    specialize (Hc' x Hx). unfold clean_tree in Hc'.
    by apply andb_true_iff in Hc' as [_ ?].
Qed.

Lemma resolve_collision_eliminates_markers_witness :
  (∃ s', resolve_collision (λ n, n) plane_distance (1, 0, 0) (0, 0, 0)
           (initial_store crown_row crown_row 0) = Ok (tt, s') ∧
     no_marker (tree1_grid s') = true ∧ no_marker (tree2_grid s') = true) ∧
  (∃ trees' n',
     evaluate_pairs (λ n, n) plane_distance [(0, 1); (1, 2); (0, 2)]%nat
       [Tree (1, 0, 0) 0 crown_row; Tree (0, 0, 0) 0 crown_row;
        Tree (2, 0, 0) 1 crown_row] 0 = Ok (trees', n') ∧
     forallb (λ t, no_marker (grid t)) trees' = true).
Proof.
  apply (resolve_collision_eliminates_markers (λ n, n) plane_distance
           (1, 0, 0) (0, 0, 0) crown_row crown_row 0);
    [exact plane_distance_shape_preserving | reflexivity ..].
Defined.



(** C5. When no Crown cell of tree 1 lands, after translation, on a
    Crown cell of tree 2, [resolve_collision] returns with both grids
    unchanged, element for element, and draws no random number. *)
Theorem resolve_collision_no_overlap_unchanged
    (rand : nat → nat) (edt : ndarray bool → ndarray Q)
    (tree1 tree2 : cell) (g1 g2 : ndarray Z) (n : nat) :
  well_formed g1 = true → well_formed g2 = true →
  crowns_disjoint (cell_sub tree1 tree2) g1 g2 = true →
  ∃ s', resolve_collision rand edt tree1 tree2 (initial_store g1 g2 n)
          = Ok (tt, s') ∧
    tree1_grid s' = g1 ∧ tree2_grid s' = g2 ∧ draws s' = n.
Proof.
  intros W1 W2 Hd. apply well_formed_wf in W1, W2.
  pose proof (crowns_disjoint_colliding _ _ _ W1 W2 Hd) as HK.
  unfold resolve_collision, mark_collision_cells. cbv zeta.
  unfold mbind_M at 1 2. unfold read at 1. cbv beta iota.
  unfold mbind_M at 1.
  rewrite get_colliding_cells_ok by done. cbn [grid_of initial_store tree1_grid tree2_grid].
  fold (colliding (λ c, cell_add c (cell_sub tree1 tree2)) g1 g2). rewrite HK.
  simpl. by eexists.
Qed.

Lemma resolve_collision_no_overlap_unchanged_witness :
  ∃ s', resolve_collision (λ n, n) plane_distance (5, 0, 0) (0, 0, 0)
          (initial_store crown_row crown_row 7) = Ok (tt, s') ∧
    tree1_grid s' = crown_row ∧ tree2_grid s' = crown_row ∧ draws s' = 7%nat.
Proof.
  apply (resolve_collision_no_overlap_unchanged (λ n, n) plane_distance
           (5, 0, 0) (0, 0, 0) crown_row crown_row 7); reflexivity.
Defined.

(** C6. During [resolve_collision] on two trees whose grids hold no
    marker, whatever the random choices, every index triple used to read
    or write an array lies in [0, shape) on each axis of that array. *)
Theorem resolve_collision_accesses_in_bounds
    (rand : nat → nat) (edt : ndarray bool → ndarray Q)
    (tree1 tree2 : cell) (g1 g2 : ndarray Z) (n : nat) :
  shape_preserving edt →
  well_formed g1 = true → well_formed g2 = true →
  no_marker g1 = true → no_marker g2 = true →
  ∃ s', resolve_collision rand edt tree1 tree2 (initial_store g1 g2 n)
          = Ok (tt, s') ∧
    Forall (λ access : cell * cell, in_bounds access.1 access.2 = true)
      (accesses s').
Proof.
  intros He W1 W2 N1 N2.
  destruct (resolve_collision_run rand edt tree1 tree2 g1 g2 n He
              (well_formed_wf _ W1) (well_formed_wf _ W2) N1 N2)
    as (s' & Hrun & [[_ Ht] _]).
  by exists s'.
Qed.

Lemma resolve_collision_accesses_in_bounds_witness :
  ∃ s', resolve_collision (λ n, n) plane_distance (1, 0, 0) (0, 0, 0)
          (initial_store crown_row crown_row 0) = Ok (tt, s') ∧
    Forall (λ access : cell * cell, in_bounds access.1 access.2 = true)
      (accesses s').
Proof.
  apply (resolve_collision_accesses_in_bounds (λ n, n) plane_distance
           (1, 0, 0) (0, 0, 0) crown_row crown_row 0);
    [exact plane_distance_shape_preserving | reflexivity ..].
Defined.

(** A grid that still holds a marker when [resolve_collision] begins is
    outside the data model; there the fallback's translated cell set,
    which no clipping precedes, leaves the other grid: the index -1 is
    used on an axis of size 1 (numpy wraps it around). *)
Example stale_marker_index_out_of_range :
  ∃ s', resolve_collision (λ n, n) plane_distance (0, 0, 0) (1, 0, 0)
          (initial_store (NDArray (2, 1, 1) [3; 2]) (NDArray (1, 1, 1) [2]) 0)
          = Ok (tt, s') ∧
    ((1, 1, 1), (-1, 0, 0)) ∈ accesses s' ∧
    data (tree1_grid s') = [2; 0] ∧ data (tree2_grid s') = [0].
Proof.
  eexists. split; [vm_compute; reflexivity|]. simpl.
  split; [|done]. do 6 right. left.
Qed.

Lemma elem_of_neighbors_of cells e :
  e ∈ neighbors_of cells ↔
  ∃ c o, c ∈ cells ∧ o ∈ neighbor_offsets ∧ e = cell_add c o.
Proof.
  unfold neighbors_of. rewrite list_elem_of_bind. split.
  - intros (c & He & Hc). apply list_elem_of_fmap in He as (o & -> & Ho).
    by exists c, o.
  - intros (c & o & Hc & Ho & ->). exists c. split; [|done].
    apply list_elem_of_fmap. by exists o.
Qed.

(** C8, as the code has it.  The cells returned by edge-cell detection
    are not marked cells: each is a cell that held Crown in its grid when
    detection ran, before the marking, and is a 6-connected neighbour of
    a colliding cell, which the marking then marks.  When the growth
    rounds begin it holds Crown or the marker. *)
Theorem edge_cells_are_crown_neighbors
    (translation : cell) (g1 g2 : ndarray Z) (n : nat) :
  well_formed g1 = true → well_formed g2 = true →
  ∃ marked s',
    mark_collision_cells translation (initial_store g1 g2 n) = Ok (marked, s') ∧
    ∀ e1 e2, marked = Some (e1, e2) →
      (∀ e, e ∈ e1 →
         holds g1 e crown ∧
         (holds (tree1_grid s') e crown ∨ holds (tree1_grid s') e collision) ∧
         ∃ c o, o ∈ neighbor_offsets ∧ e = cell_add c o ∧
                holds (tree1_grid s') c collision) ∧
      (∀ e, e ∈ e2 →
         holds g2 e crown ∧
         (holds (tree2_grid s') e crown ∨ holds (tree2_grid s') e collision) ∧
         ∃ c o, o ∈ neighbor_offsets ∧ e = cell_add c o ∧
                holds (tree2_grid s') c collision).
Proof.
  intros W1 W2. apply well_formed_wf in W1, W2.
  set (K := colliding (λ c, cell_add c translation) g1 g2).
  destruct (colliding_in_bounds translation g1 g2 W1 W2) as [B1 B2].
  fold K in B1, B2.
  assert (Hedge : ∀ (g : ndarray Z) (cells : list cell) e,
            wf_array g → all_in_bounds (shape g) cells →
            e ∈ crown_among g (neighbors_of cells) →
            holds g e crown ∧
            (holds (set_cells g cells (value collision)) e crown ∨
             holds (set_cells g cells (value collision)) e collision) ∧
            ∃ c o, o ∈ neighbor_offsets ∧ e = cell_add c o ∧
                   holds (set_cells g cells (value collision)) c collision).
  { intros g cells e Wg Bg He.
    apply elem_of_crown_among in He as [He Hc]; [|done].
    apply elem_of_neighbors_of in He as (c & o & Hcin & Ho & ->).
    split; [done|]. split.
    - unfold holds. rewrite get_set_cells by done.
      destruct (decide (cell_add c o ∈ cells)); [by right | by left].
    - exists c, o. split; [done|]. split; [done|].
      by apply get_set_cells_in. }
  apply (wp_mark_collision_cells translation
           (λ marked s', ∀ e1 e2, marked = Some (e1, e2) → _ ∧ _)
           (initial_store g1 g2 n) W1 W2 (Forall_nil_2 _)).
  - intros _ s' _ _ _ e1 e2 [=].
  - intros _ s' E1 E2 _ e1 e2 [= <- <-]. rewrite E1, E2. simpl. fold K.
    split; intros e He; by apply Hedge.
Qed.

Lemma edge_cells_are_crown_neighbors_witness :
  ∃ marked s',
    mark_collision_cells (1, 0, 0) (initial_store crown_row crown_row 0)
      = Ok (marked, s') ∧
    ∀ e1 e2, marked = Some (e1, e2) →
      (∀ e, e ∈ e1 →
         holds crown_row e crown ∧
         (holds (tree1_grid s') e crown ∨ holds (tree1_grid s') e collision) ∧
         ∃ c o, o ∈ neighbor_offsets ∧ e = cell_add c o ∧
                holds (tree1_grid s') c collision) ∧
      (∀ e, e ∈ e2 →
         holds crown_row e crown ∧
         (holds (tree2_grid s') e crown ∨ holds (tree2_grid s') e collision) ∧
         ∃ c o, o ∈ neighbor_offsets ∧ e = cell_add c o ∧
                holds (tree2_grid s') c collision).
Proof.
  apply (edge_cells_are_crown_neighbors (1, 0, 0) crown_row crown_row 0);
    reflexivity.
Defined.

(** C8, as the claim states it, fails: with two Crown cells in tree 1
    and the first of them colliding, the one edge cell returned for
    tree 1 is the second cell; when the growth rounds begin it holds
    Crown, not the marker, and none of its neighbours holds Crown. *)
Lemma edge_cell_is_not_marked :
  ∃ s',
    mark_collision_cells (0, 0, 0)
      (initial_store (NDArray (2, 1, 1) [2; 2]) (NDArray (1, 1, 1) [2]) 0)
      = Ok (Some ([(1, 0, 0)], []), s') ∧
    get (tree1_grid s') (1, 0, 0) = Some (value crown) ∧
    get (tree1_grid s') (1, 0, 0) ≠ Some (value collision) ∧
    Forall (λ o, get (tree1_grid s') (cell_add (1, 0, 0) o) ≠ Some (value crown))
      neighbor_offsets.
Proof.
  eexists. split; [vm_compute; reflexivity|]. simpl.
  split; [done|]. split; [done|]. by repeat constructor.
Qed.

(** ** The fallback's mask *)

(** Following the spec's words: the cells owned by the tree, Stem or
    Crown, so that a distance transform of this mask is the distance to
    the nearest cell that is neither. *)
Definition owned_mask (tree_grid : ndarray Z) : ndarray bool :=
  np_map (λ v, (v =? value stem) || (v =? value crown)) tree_grid.


(** ** Facts about dicts of sets

    [weigh w d] is the sum of [w key seg] over the segments a dict of
    sets holds: with [w] constantly 1 the number of segments, with the
    indicator of "the segment under this key covers cell c" the number of
    segments covering [c]. *)

Section DictFacts.
Context {K S : Type} `{EqDecision K} `{EqDecision S}.
Implicit Types (d : list (K * list S)) (w : K → S → nat).

Definition weigh_set w (k : K) (s : list S) : nat := sum_list_with (w k) s.

Definition weigh w d : nat := sum_list_with (λ kv, weigh_set w kv.1 kv.2) d.

Definition no_empty d : Prop := Forall (λ kv, kv.2 ≠ []) d.

Lemma dict_size_weigh d : dict_size d = weigh (λ _ _, 1%nat) d.
Proof.
  assert (Hlen : ∀ s : list S, length s = sum_list_with (λ _, 1%nat) s).
  { intros s. induction s as [|x s IH]; simpl; [done | by rewrite IH]. }
  unfold dict_size, weigh, weigh_set. induction d as [|[k s] d IH]; [done|].
  simpl. by rewrite IH, Hlen.
Qed.

Lemma weigh_set_remove w k x s :
  x ∈ s → weigh_set w k s = (weigh_set w k (set_remove x s) + w k x)%nat.
Proof.
  unfold weigh_set. induction s as [|y s IH]; intros Hx.
  - by apply elem_of_nil in Hx.
  - simpl. destruct (decide (y = x)) as [->|Hne]; [lia|].
    apply elem_of_cons in Hx as [->|Hx]; [done|]. simpl. rewrite IH by done. lia.
Qed.

Lemma weigh_set_add w k x s :
  x ∉ s → weigh_set w k (set_add x s) = (weigh_set w k s + w k x)%nat.
Proof.
  intros Hx. unfold set_add, weigh_set. rewrite decide_False by done.
  rewrite sum_list_with_app. simpl. lia.
Qed.

Lemma weigh_dict_set w k v v' d :
  dict_get k d = Some v →
  (weigh w (dict_set k v' d) + weigh_set w k v
   = weigh w d + weigh_set w k v')%nat.
Proof.
  unfold weigh. induction d as [|[k0 v0] d IH]; [done|]. simpl.
  destruct (decide (k0 = k)) as [->|Hne]; simpl.
  - intros [= ->]. lia.
  - intros Hg. specialize (IH Hg). lia.
Qed.

Lemma weigh_dict_set_new w k v' d :
  dict_get k d = None →
  weigh w (dict_set k v' d) = (weigh w d + weigh_set w k v')%nat.
Proof.
  unfold weigh. induction d as [|[k0 v0] d IH]; simpl; [lia|].
  destruct (decide (k0 = k)) as [->|Hne]; simpl; [done|].
  intros Hg. rewrite (IH Hg). lia.
Qed.

Lemma weigh_dict_del w k v d :
  dict_get k d = Some v →
  (weigh w (dict_del k d) + weigh_set w k v = weigh w d)%nat.
Proof.
  unfold weigh. induction d as [|[k0 v0] d IH]; [done|]. simpl.
  destruct (decide (k0 = k)) as [->|Hne]; simpl.
  - intros [= ->]. lia.
  - intros Hg. specialize (IH Hg). lia.
Qed.

Lemma no_empty_dict_set k v d : v ≠ [] → no_empty d → no_empty (dict_set k v d).
Proof.
  intros Hv. unfold no_empty. induction d as [|[k0 v0] d IH]; simpl.
  - intros _. by repeat constructor.
  - intros Hd. inversion_clear Hd as [|? ? H0 Hd'].
    destruct (decide (k0 = k)); constructor; auto.
Qed.

Lemma no_empty_dict_del k d : no_empty d → no_empty (dict_del k d).
Proof.
  unfold no_empty. induction d as [|[k0 v0] d IH]; simpl; [done|].
  intros Hd. inversion_clear Hd as [|? ? H0 Hd'].
  destruct (decide (k0 = k)); [done|]. constructor; auto.
Qed.

Lemma dict_get_elem_of k v d : dict_get k d = Some v → (k, v) ∈ d.
Proof.
  induction d as [|[k0 v0] d IH]; [done|]. simpl.
  destruct (decide (k0 = k)) as [->|Hne].
  - intros [= ->]. left.
  - intros Hg. right. by apply IH.
Qed.

Lemma length_set_remove x (s : list S) :
  x ∈ s → length s = Datatypes.S (length (set_remove x s)).
Proof.
  induction s as [|y s IH]; intros Hx.
  - by apply elem_of_nil in Hx.
  - simpl. destruct (decide (y = x)) as [->|Hne]; [done|].
    apply elem_of_cons in Hx as [->|Hx]; [done|]. simpl. by rewrite <- IH.
Qed.

(** *** The matching procedure *)

Lemma matches_false key seg d d' :
  matches_segment_length key seg d = (false, d') → d' = d.
Proof.
  unfold matches_segment_length. destruct (dict_get key d) as [segs|]; [|congruence].
  destruct (decide (seg ∈ segs)); congruence.
Qed.

Lemma matches_true key seg d d' :
  matches_segment_length key seg d = (true, d') →
  (∀ w, weigh w d = (weigh w d' + w key seg)%nat) ∧
  (no_empty d → no_empty d').
Proof.
  unfold matches_segment_length.
  destruct (dict_get key d) as [segs|] eqn:Hg; [|congruence].
  destruct (decide (seg ∈ segs)) as [Hin|]; [|congruence].
  intros [= <-]. split.
  - intros w. pose proof (weigh_set_remove w key seg segs Hin) as Hr.
    destruct (decide (length (set_remove seg segs) = 0%nat)) as [Hz|Hnz].
    + pose proof (weigh_dict_del w key segs d Hg).
      apply nil_length_inv in Hz. rewrite Hz in Hr. unfold weigh_set in Hr at 2.
      simpl in Hr. lia.
    + pose proof (weigh_dict_set w key segs (set_remove seg segs) d Hg). lia.
  - intros Hne.
    destruct (decide (length (set_remove seg segs) = 0%nat)) as [Hz|Hnz].
    + by apply no_empty_dict_del.
    + apply no_empty_dict_set; [|done]. intros E. apply Hnz. by rewrite E.
Qed.

Lemma matches_present key seg segs d :
  dict_get key d = Some segs → seg ∈ segs →
  ∃ d', matches_segment_length key seg d = (true, d').
Proof.
  intros Hg Hin. unfold matches_segment_length. rewrite Hg.
  rewrite decide_True by done. by eexists.
Qed.

(** *** The loop *)

(** The weight of the segments removed by [n] turns of the loop. *)
Fixpoint removed_weight w (key_at : Z → K) (seg : S) (offset step : Z) (n : nat)
  : nat :=
  match n with
  | O => 0
  | Datatypes.S n' =>
      w (key_at offset) seg + removed_weight w key_at seg (offset + step) step n'
  end.

Lemma while_matches_spec (key_at : Z → K) seg fuel offset step d :
  (dict_size d < fuel)%nat →
  ∃ n d',
    while_matches (λ o, matches_segment_length (key_at o) seg) fuel offset step d
      = Ok (offset + Z.of_nat n * step, d') ∧
    (∀ w, weigh w d = (weigh w d' + removed_weight w key_at seg offset step n)%nat) ∧
    (no_empty d → no_empty d') ∧
    (∀ segs, dict_get (key_at offset) d = Some segs → seg ∈ segs → (1 ≤ n)%nat).
Proof.
  revert offset d. induction fuel as [|fuel IH]; intros offset d Hfuel; [lia|].
  simpl. destruct (matches_segment_length (key_at offset) seg d) as [[] d1] eqn:Hm.
  - apply matches_true in Hm as [Hw Hne].
    assert (Hsz : (dict_size d1 < fuel)%nat).
    { rewrite !dict_size_weigh in *. rewrite (Hw (λ _ _, 1%nat)) in Hfuel. lia. }
    destruct (IH (offset + step) d1 Hsz) as (n & d' & Hrun & Hw' & Hne' & _).
    exists (Datatypes.S n), d'. split; [|split; [|split]].
    + rewrite Hrun. do 2 f_equal. lia.
    + intros w. rewrite (Hw w), (Hw' w). simpl. lia.
    + auto.
    + intros; lia.
  - pose proof (matches_false _ _ _ _ Hm) as ->.
    exists 0%nat, d. split; [|split; [|split]].
    + do 2 f_equal. lia.
    + intros w. simpl. lia.
    + done.
    + intros segs Hg Hin.
      destruct (matches_present _ _ _ _ Hg Hin) as [d' Hd']. congruence.
Qed.

End DictFacts.

(** ** What segments, planes and quads cover *)

Definition covers_row (k : Z * Z) (s : segment) (c : cell) : bool :=
  (c.1.2 =? k.1) && (c.2 =? k.2) && (s.1 <=? c.1.1) && (c.1.1 <=? s.2).

Definition covers_plane (z : Z) (p : plane) (c : cell) : bool :=
  let '(x_start, y_start, x_end, y_end) := p in
  (c.2 =? z) && (x_start <=? c.1.1) && (c.1.1 <=? x_end)
  && (y_start <=? c.1.2) && (c.1.2 <=? y_end).

(** The cells of a quad: the box between its two corners, both
    inclusive. *)
Definition covers_quad (q : quad) (c : cell) : bool :=
  let '(x_start, y_start, z_start, x_end, y_end, z_end) := q in
  (x_start <=? c.1.1) && (c.1.1 <=? x_end)
  && (y_start <=? c.1.2) && (c.1.2 <=? y_end)
  && (z_start <=? c.2) && (c.2 <=? z_end).

Definition row_weight (c : cell) (k : Z * Z) (s : segment) : nat :=
  Nat.b2n (covers_row k s c).

Definition plane_weight (c : cell) (z : Z) (p : plane) : nat :=
  Nat.b2n (covers_plane z p c).

(** The number of quads of a list that cover a cell. *)
Definition count_quads (quads : list quad) (c : cell) : nat :=
  sum_list_with (λ q, Nat.b2n (covers_quad q c)) quads.

Ltac case_cmp cmp spec :=
  match goal with |- context [cmp ?m ?n] => destruct (spec m n) end.

Ltac cases_cmp :=
  repeat first [ case_cmp Z.leb Z.leb_spec
               | case_cmp Z.ltb Z.ltb_spec
               | case_cmp Z.eqb Z.eqb_spec ];
  simpl; try lia; try done.

Section RangeFacts.
Context {K Sg : Type}.
Variables (w : K → Sg → nat) (key_at : Z → K) (seg : Sg).
Variables (base : bool) (pos p0 : Z).
Hypothesis w_at : ∀ o, w (key_at o) seg = Nat.b2n (base && (pos =? p0 + o)).

Lemma removed_weight_up n offset :
  removed_weight w key_at seg offset 1 n =
  Nat.b2n (base && (p0 + offset <=? pos) && (pos <? p0 + offset + Z.of_nat n)).
Proof.
  revert offset. induction n as [|n IH]; intros offset.
  - simpl. destruct base; simpl; [|done]. cases_cmp.
  - simpl removed_weight. rewrite IH, w_at. destruct base; simpl; [|done].
    cases_cmp.
Qed.

Lemma removed_weight_down n offset :
  removed_weight w key_at seg offset (-1) n =
  Nat.b2n (base && (p0 + offset - Z.of_nat n <? pos) && (pos <=? p0 + offset)).
Proof.
  revert offset. induction n as [|n IH]; intros offset.
  - simpl. destruct base; simpl; [|done]. cases_cmp.
  - simpl removed_weight. rewrite IH, w_at. destruct base; simpl; [|done].
    cases_cmp.
Qed.

End RangeFacts.

Lemma row_weight_at c y z x_start x_end o :
  row_weight c (y + o, z) (x_start, x_end) =
  Nat.b2n ((c.2 =? z) && (x_start <=? c.1.1) && (c.1.1 <=? x_end)
           && (c.1.2 =? y + o)).
Proof.
  unfold row_weight, covers_row. simpl. f_equal.
  destruct (c.1.2 =? y + o), (c.2 =? z), (x_start <=? c.1.1), (c.1.1 <=? x_end);
    done.
Qed.

Lemma plane_weight_at c z x_start y_start x_end y_end o :
  plane_weight c (z + o) (x_start, y_start, x_end, y_end) =
  Nat.b2n ((x_start <=? c.1.1) && (c.1.1 <=? x_end)
           && (y_start <=? c.1.2) && (c.1.2 <=? y_end) && (c.2 =? z + o)).
Proof.
  unfold plane_weight, covers_plane. f_equal.
  destruct (c.2 =? z + o), (x_start <=? c.1.1), (c.1.1 <=? x_end),
    (y_start <=? c.1.2), (c.1.2 <=? y_end); done.
Qed.

Lemma while_matches_run {K Sg} `{EqDecision K} `{EqDecision Sg}
    (key_at : Z → K) (seg : Sg) fuel offset step (d : list (K * list Sg)) :
  (dict_size d < fuel)%nat →
  ∃ n d',
    while_matches (λ o d0, matches_segment_length (key_at o) seg d0)
      fuel offset step d
      = Ok (offset + Z.of_nat n * step, d') ∧
    (∀ w, weigh w d = (weigh w d' + removed_weight w key_at seg offset step n)%nat) ∧
    (no_empty d → no_empty d') ∧
    (∀ segs, dict_get (key_at offset) d = Some segs → seg ∈ segs → (1 ≤ n)%nat).
Proof. apply while_matches_spec. Qed.

Lemma capture_plane_spec y z x_start x_end rows segs :
  dict_get (y, z) rows = Some segs → (x_start, x_end) ∈ segs →
  ∃ pl rows',
    capture_plane y z x_start x_end rows = Ok (pl, rows') ∧
    (∀ c, weigh (row_weight c) rows
          = (weigh (row_weight c) rows' + plane_weight c z pl)%nat) ∧
    (∀ w, (weigh w rows' ≤ weigh w rows)%nat) ∧
    (dict_size rows' < dict_size rows)%nat ∧
    (no_empty rows → no_empty rows') ∧
    (x_start ≤ x_end → covers_plane z pl (x_start, y, z) = true).
Proof.
  intros Hg Hin. unfold capture_plane, row_matches_segment_length.
  destruct (while_matches_run (λ o, (y + o, z)) (x_start, x_end)
              (S (dict_size rows)) 0 (-1) rows (Nat.lt_succ_diag_r _))
    as (n1 & rows1 & Hrun1 & Hw1 & Hne1 & Hfirst).
  assert (Hn1 : (1 ≤ n1)%nat).
  { apply (Hfirst segs); [by rewrite Z.add_0_r | done]. }
  cbv beta in Hrun1. rewrite Hrun1. cbn [rbind fst snd].
  destruct (while_matches_run (λ o, (y + o, z)) (x_start, x_end)
              (S (dict_size rows1)) 1 1 rows1 (Nat.lt_succ_diag_r _))
    as (n2 & rows2 & Hrun2 & Hw2 & Hne2 & _).
  cbv beta in Hrun2. rewrite Hrun2. cbn [rbind fst snd].
  eexists _, rows2. split; [done|]. split; [|split; [|split; [|split]]].
  - intros c. rewrite (Hw1 (row_weight c)), (Hw2 (row_weight c)).
    rewrite (removed_weight_down (row_weight c) (λ o, (y + o, z)) (x_start, x_end)
               _ (c.1.2) y (row_weight_at c y z x_start x_end)).
    rewrite (removed_weight_up (row_weight c) (λ o, (y + o, z)) (x_start, x_end)
               _ (c.1.2) y (row_weight_at c y z x_start x_end)).
    unfold plane_weight, covers_plane.
    destruct (c.2 =? z), (x_start <=? c.1.1), (c.1.1 <=? x_end); simpl; try lia.
    cases_cmp.
  - intros w. rewrite (Hw1 w), (Hw2 w). lia.
  - rewrite !dict_size_weigh. rewrite (Hw1 (λ _ _, 1%nat)), (Hw2 (λ _ _, 1%nat)).
    destruct n1; [lia|]. simpl. lia.
  - auto.
  - intros Hx. unfold covers_plane. simpl.
    rewrite !andb_true_iff, Z.eqb_eq, !Z.leb_le. lia.
Qed.

Lemma capture_quad_spec z x_start y_start x_end y_end planes pls :
  dict_get z planes = Some pls → (x_start, y_start, x_end, y_end) ∈ pls →
  ∃ q planes',
    capture_quad z x_start y_start x_end y_end planes = Ok (q, planes') ∧
    (∀ c, weigh (plane_weight c) planes
          = (weigh (plane_weight c) planes' + Nat.b2n (covers_quad q c))%nat) ∧
    (dict_size planes' < dict_size planes)%nat ∧
    (no_empty planes → no_empty planes').
Proof.
  intros Hg Hin. unfold capture_quad, plane_matches_segment_length.
  destruct (while_matches_run (λ o, z + o) (x_start, y_start, x_end, y_end)
              (S (dict_size planes)) 0 (-1) planes (Nat.lt_succ_diag_r _))
    as (n1 & planes1 & Hrun1 & Hw1 & Hne1 & Hfirst).
  assert (Hn1 : (1 ≤ n1)%nat).
  { apply (Hfirst pls); [by rewrite Z.add_0_r | done]. }
  cbv beta in Hrun1. rewrite Hrun1. cbn [rbind fst snd].
  destruct (while_matches_run (λ o, z + o) (x_start, y_start, x_end, y_end)
              (S (dict_size planes1)) 1 1 planes1 (Nat.lt_succ_diag_r _))
    as (n2 & planes2 & Hrun2 & Hw2 & Hne2 & _).
  cbv beta in Hrun2. rewrite Hrun2. cbn [rbind fst snd].
  eexists _, planes2. split; [done|]. split; [|split].
  - intros c. rewrite (Hw1 (plane_weight c)), (Hw2 (plane_weight c)).
    rewrite (removed_weight_down (plane_weight c) (λ o, z + o)
               (x_start, y_start, x_end, y_end) _ (c.2) z
               (plane_weight_at c z x_start y_start x_end y_end)).
    rewrite (removed_weight_up (plane_weight c) (λ o, z + o)
               (x_start, y_start, x_end, y_end) _ (c.2) z
               (plane_weight_at c z x_start y_start x_end y_end)).
    unfold covers_quad.
    destruct (x_start <=? c.1.1), (c.1.1 <=? x_end), (y_start <=? c.1.2),
      (c.1.2 <=? y_end); simpl; try lia.
    cases_cmp.
  - rewrite !dict_size_weigh. rewrite (Hw1 (λ _ _, 1%nat)), (Hw2 (λ _ _, 1%nat)).
    destruct n1; [lia|]. simpl. lia.
  - auto.
Qed.

Lemma weigh_elem_le {K Sg} (w : K → Sg → nat) (d : list (K * list Sg)) k s x :
  (k, s) ∈ d → x ∈ s → (w k x ≤ weigh w d)%nat.
Proof.
  intros Hd Hx. unfold weigh.
  etrans; [|apply (sum_list_with_in _ _ _ Hd)]. simpl. unfold weigh_set.
  apply (sum_list_with_in _ (w k) _ Hx).
Qed.

Lemma next_iter_elem_of {A} (order : list A → nat) (s : list A) :
  s ≠ [] → ∃ x, next_iter order s = Ok x ∧ x ∈ s.
Proof.
  intros Hs. unfold next_iter.
  assert (Hlt : (order s `mod` length s < length s)%nat).
  { apply Nat.mod_upper_bound. by destruct s. }
  destruct (lookup_lt_is_Some_2 _ _ Hlt) as [x Hx].
  exists x. rewrite Hx. split; [done|]. by eapply list_elem_of_lookup_2.
Qed.

(** A segment that ends before it starts weighs 1. *)
Definition backwards (k : Z * Z) (s : segment) : nat := Nat.b2n (s.2 <? s.1).

Section MesherFacts.
Variable segment_order : list segment → nat.
Variable plane_order : list plane → nat.

(** The number of times a cell must be covered: 1 for a Crown cell of
    the grid that is meshed, 0 for any other. *)
Variable chi : cell → nat.
Hypothesis chi_le : ∀ c, (chi c ≤ 1)%nat.

Lemma capture_planes_loop_spec fuel rows planes :
  (dict_size rows < fuel)%nat →
  no_empty rows → no_empty planes → weigh backwards rows = 0%nat →
  (∀ c, (weigh (row_weight c) rows + weigh (plane_weight c) planes)%nat = chi c) →
  ∃ planes',
    capture_planes_loop segment_order fuel rows planes = Ok planes' ∧
    no_empty planes' ∧ ∀ c, weigh (plane_weight c) planes' = chi c.
Proof.
  revert rows planes. induction fuel as [|fuel IH];
    intros rows planes Hfuel Hne Hnep Hback Hcount; [lia|].
  destruct rows as [|[[y z] row_set] rest].
  - exists planes. split; [done|]. split; [done|]. intros c.
    by rewrite <- Hcount.
  - cbn [capture_planes_loop].
    set (rows := ((y, z), row_set) :: rest) in *.
    assert (Hrs : row_set ≠ []).
    { by inversion_clear Hne. }
    assert (Hg : dict_get (y, z) rows = Some row_set).
    { simpl. by rewrite decide_True. }
    destruct (next_iter_elem_of segment_order row_set Hrs)
      as ([x_start x_end] & Hnext & Hin).
    rewrite Hnext. cbn [rbind fst snd].
    destruct (capture_plane_spec y z x_start x_end rows row_set Hg Hin)
      as (pl & rows' & Hrun & Hw & Hle & Hsz & Hne' & Hcell).
    rewrite Hrun. cbn [rbind fst snd].
    assert (Hx : x_start ≤ x_end).
    { pose proof (weigh_elem_le backwards rows (y, z) row_set (x_start, x_end)
                    (dict_get_elem_of _ _ _ Hg) Hin) as Hb.
      rewrite Hback in Hb. unfold backwards in Hb. simpl in Hb.
      destruct (Z.ltb_spec x_end x_start); simpl in Hb; lia. }
    specialize (Hcell Hx).
    set (planes' := match dict_get z planes with
                    | Some plane_set => dict_set z (set_add pl plane_set) planes
                    | None => dict_set z [pl] planes
                    end).
    assert (Hplanes' : no_empty planes' ∧
              ∀ w, weigh w planes' = (weigh w planes + w z pl)%nat).
    { unfold planes'. destruct (dict_get z planes) as [plane_set|] eqn:Hgz.
      - assert (Hnot : pl ∉ plane_set).
        { intros Hpl.
          pose proof (weigh_elem_le (plane_weight (x_start, y, z)) planes z
                        plane_set pl (dict_get_elem_of _ _ _ Hgz) Hpl) as H1.
          pose proof (weigh_elem_le (row_weight (x_start, y, z)) rows (y, z)
                        row_set (x_start, x_end)
                        (dict_get_elem_of _ _ _ Hg) Hin) as H2.
          assert (Hp1 : plane_weight (x_start, y, z) z pl = 1%nat).
          { unfold plane_weight. by rewrite Hcell. }
          assert (Hr1 : row_weight (x_start, y, z) (y, z) (x_start, x_end) = 1%nat).
          { unfold row_weight, covers_row. simpl.
            rewrite !Z.eqb_refl, Z.leb_refl.
            by destruct (Z.leb_spec x_start x_end); [|lia]. }
          rewrite Hp1 in H1. rewrite Hr1 in H2.
          specialize (Hcount (x_start, y, z)). specialize (chi_le (x_start, y, z)).
          lia. }
        split.
        + apply no_empty_dict_set; [|done]. unfold set_add.
          rewrite decide_False by done. by destruct plane_set.
        + intros w.
          pose proof (weigh_dict_set w z plane_set (set_add pl plane_set)
                        planes Hgz).
          pose proof (weigh_set_add w z pl plane_set Hnot). lia.
      - split.
        + by apply no_empty_dict_set.
        + intros w. rewrite weigh_dict_set_new by done.
          unfold weigh_set. simpl. lia. }
    destruct Hplanes' as [Hnep' Hwp].
    apply IH; [lia | auto | done | |].
    + specialize (Hle backwards). lia.
    + intros c. rewrite Hwp. specialize (Hw c). specialize (Hcount c). lia.
Qed.

Lemma capture_quads_loop_spec fuel planes quads :
  (dict_size planes < fuel)%nat → no_empty planes →
  (∀ c, (weigh (plane_weight c) planes + count_quads quads c)%nat = chi c) →
  ∃ quads',
    capture_quads_loop plane_order fuel planes quads = Ok quads' ∧
    ∀ c, count_quads quads' c = chi c.
Proof.
  revert planes quads. induction fuel as [|fuel IH];
    intros planes quads Hfuel Hne Hcount; [lia|].
  destruct planes as [|[z plane_set] rest].
  - exists quads. split; [done|]. intros c. by rewrite <- Hcount.
  - cbn [capture_quads_loop].
    set (planes := (z, plane_set) :: rest) in *.
    assert (Hps : plane_set ≠ []).
    { by inversion_clear Hne. }
    assert (Hg : dict_get z planes = Some plane_set).
    { simpl. by rewrite decide_True. }
    destruct (next_iter_elem_of plane_order plane_set Hps)
      as ([[[x_start y_start] x_end] y_end] & Hnext & Hin).
    rewrite Hnext. cbn [rbind].
    destruct (capture_quad_spec z x_start y_start x_end y_end planes plane_set
                Hg Hin) as (q & planes' & Hrun & Hw & Hsz & Hne').
    rewrite Hrun. cbn [rbind fst snd].
    apply IH; [lia | auto |].
    intros c. unfold count_quads. rewrite sum_list_with_app. simpl.
    specialize (Hw c). specialize (Hcount c). unfold count_quads in Hcount. lia.
Qed.

End MesherFacts.

(** ** Facts about dict updates and sorting *)

Lemma dict_get_set_eq {K V} `{EqDecision K} (k : K) (v : V) d :
  dict_get k (dict_set k v d) = Some v.
Proof.
  induction d as [|[k0 v0] d IH]; simpl.
  - by rewrite decide_True.
  - destruct (decide (k0 = k)) as [->|Hne]; simpl.
    + by rewrite decide_True.
    + by rewrite decide_False.
Qed.

Lemma dict_get_set_ne {K V} `{EqDecision K} (k k' : K) (v : V) d :
  k ≠ k' → dict_get k' (dict_set k v d) = dict_get k' d.
Proof.
  intros Hne. induction d as [|[k0 v0] d IH]; simpl.
  - by rewrite decide_False.
  - destruct (decide (k0 = k)) as [->|Hne0]; simpl.
    + by rewrite !decide_False.
    + by rewrite IH.
Qed.

(** Adding a segment under a key, as the loop of [capture_rows] does. *)
Lemma weigh_add_segment {K Sg} `{EqDecision K} `{EqDecision Sg}
    (k : K) (x : Sg) (d : list (K * list Sg)) :
  (∀ segs, dict_get k d = Some segs → x ∉ segs) →
  let d' := match dict_get k d with
            | Some segs => dict_set k (set_add x segs) d
            | None => dict_set k [x] d
            end in
  (∀ w, weigh w d' = (weigh w d + w k x)%nat) ∧ (no_empty d → no_empty d').
Proof.
  intros Hnot. destruct (dict_get k d) as [segs|] eqn:Hg; simpl.
  - specialize (Hnot segs eq_refl). split.
    + intros w. pose proof (weigh_dict_set w k segs (set_add x segs) d Hg).
      pose proof (weigh_set_add w k x segs Hnot). lia.
    + apply no_empty_dict_set. unfold set_add. rewrite decide_False by done.
      by destruct segs.
  - split.
    + intros w. rewrite weigh_dict_set_new by done. unfold weigh_set. simpl. lia.
    + by apply no_empty_dict_set.
Qed.


Lemma key_lt_spec a b :
  key_lt a b = true ↔ a.1 < b.1 ∨ (a.1 = b.1 ∧ a.2 < b.2).
Proof.
  unfold key_lt. rewrite orb_true_iff, andb_true_iff, !Z.ltb_lt, Z.eqb_eq. tauto.
Qed.

Lemma key_lt_false a b :
  key_lt a b = false ↔ b.1 < a.1 ∨ (a.1 = b.1 ∧ b.2 ≤ a.2).
Proof.
  rewrite <- not_true_iff_false, key_lt_spec. lia.
Qed.

Section SortFacts.
Context {A : Type} (key : A → Z * Z).

(** [a] may stand before [b] in a list sorted by [key]. *)
Definition key_ordered (a b : A) : Prop := key_lt (key b) (key a) = false.

Lemma insert_sorted_perm x l : insert_sorted key x l ≡ₚ x :: l.
Proof.
  induction l as [|y l IH]; simpl; [done|].
  destruct (key_lt (key y) (key x)); [|done].
  rewrite IH. apply Permutation_swap.
Qed.

Lemma sorted_perm l : sorted key l ≡ₚ l.
Proof.
  induction l as [|x l IH]; simpl; [done|].
  rewrite insert_sorted_perm. by rewrite IH.
Qed.

Lemma insert_sorted_sorted x l :
  StronglySorted key_ordered l → StronglySorted key_ordered (insert_sorted key x l).
Proof.
  induction 1 as [|y l Hl IH Hy]; simpl.
  - repeat constructor.
  - destruct (key_lt (key y) (key x)) eqn:Hyx.
    + constructor; [done|]. rewrite insert_sorted_perm. constructor; [|done].
      unfold key_ordered. apply key_lt_spec in Hyx. apply key_lt_false. lia.
    + constructor; [by constructor|]. constructor; [done|].
      eapply Forall_impl; [|exact Hy]. unfold key_ordered. intros b Hb. simpl in Hb.
      apply key_lt_false in Hyx, Hb. apply key_lt_false. lia.
Qed.

Lemma sorted_sorted l : StronglySorted key_ordered (sorted key l).
Proof.
  induction l as [|x l IH]; simpl; [constructor|].
  by apply insert_sorted_sorted.
Qed.

End SortFacts.

(** ** The row phase

    A run on the line [(y, z)] is a maximal stretch [x_start .. x_end]
    of Crown cells along x. *)

Section RowFacts.
Variable g : ndarray Z.
Hypothesis g_wf : wf_array g.

Definition crown_at (c : cell) : bool := bool_decide (get g c = Some (value crown)).

Definition is_start (x y z : Z) : Prop :=
  crown_at (x, y, z) = true ∧ crown_at (x - 1, y, z) = false.

Definition is_end (x y z : Z) : Prop :=
  crown_at (x, y, z) = true ∧ crown_at (x + 1, y, z) = false.

Definition run (y z x_start x_end : Z) : Prop :=
  x_start ≤ x_end ∧
  (∀ x, x_start ≤ x ≤ x_end → crown_at (x, y, z) = true) ∧
  crown_at (x_start - 1, y, z) = false ∧ crown_at (x_end + 1, y, z) = false.

Lemma crown_at_range x y z : crown_at (x, y, z) = true → 0 ≤ x < (shape g).1.1.
Proof.
  unfold crown_at. intros H%bool_decide_eq_true_1%get_Some_in_bounds.
  apply in_bounds_spec in H. simpl in H. lia.
Qed.

(** Going down from a Crown cell one reaches the start of its run. *)
Lemma run_start_below y z (n : nat) x :
  crown_at (x, y, z) = true → x < Z.of_nat n →
  ∃ s, s ≤ x ∧ (∀ x', s ≤ x' ≤ x → crown_at (x', y, z) = true) ∧
       crown_at (s - 1, y, z) = false.
Proof.
  revert x. induction n as [|n IH]; intros x Hx Hn.
  - apply crown_at_range in Hx. lia.
  - destruct (crown_at (x - 1, y, z)) eqn:Hp.
    + destruct (IH (x - 1) Hp ltac:(lia)) as (s & Hs & Hall & Hb).
      exists s. split; [lia|]. split; [|done].
      intros x' Hx'. destruct (decide (x' = x)) as [->|]; [done|].
      apply Hall. lia.
    + exists x. split; [lia|]. split; [|done].
      intros x' Hx'. by replace x' with x by lia.
Qed.

(** Going up from a Crown cell one reaches the end of its run. *)
Lemma run_end_above y z (n : nat) x :
  crown_at (x, y, z) = true → (shape g).1.1 - x ≤ Z.of_nat n →
  ∃ e, x ≤ e ∧ (∀ x', x ≤ x' ≤ e → crown_at (x', y, z) = true) ∧
       crown_at (e + 1, y, z) = false.
Proof.
  revert x. induction n as [|n IH]; intros x Hx Hn.
  - apply crown_at_range in Hx. lia.
  - destruct (crown_at (x + 1, y, z)) eqn:Hp.
    + destruct (IH (x + 1) Hp ltac:(lia)) as (e & He & Hall & Hb).
      exists e. split; [lia|]. split; [|done].
      intros x' Hx'. destruct (decide (x' = x)) as [->|]; [done|].
      apply Hall. lia.
    + exists x. split; [lia|]. split; [|done].
      intros x' Hx'. by replace x' with x by lia.
Qed.

Lemma run_of_cell x y z :
  crown_at (x, y, z) = true → ∃ s e, run y z s e ∧ s ≤ x ≤ e.
Proof.
  intros Hx. pose proof (crown_at_range _ _ _ Hx) as Hr.
  destruct (run_start_below y z (Z.to_nat (x + 1)) x Hx ltac:(lia))
    as (s & Hs & Hdown & Hsb).
  destruct (run_end_above y z (Z.to_nat ((shape g).1.1 - x)) x Hx ltac:(lia))
    as (e & He & Hup & Heb).
  exists s, e. split; [|lia]. split; [lia|]. split; [|done].
  intros x' Hx'. destruct (Z.le_gt_cases x' x); [apply Hdown | apply Hup]; lia.
Qed.

Lemma run_of_end x y z : is_end x y z → ∃ s, run y z s x.
Proof.
  intros [Hx Hnext]. destruct (run_of_cell x y z Hx) as (s & e & Hrun & Hs).
  exists s. destruct Hrun as (Hle & Hall & Hb & Ha).
  destruct (decide (e = x)) as [->|Hne]; [done|].
  rewrite Hall in Hnext by lia. done.
Qed.

Lemma run_unique y z s e s' e' x :
  run y z s e → run y z s' e' → s ≤ x ≤ e → s' ≤ x ≤ e' → s = s' ∧ e = e'.
Proof.
  intros (Hle & Hall & Hb & Ha) (Hle' & Hall' & Hb' & Ha') Hx Hx'.
  split.
  - destruct (Z.lt_trichotomy s s') as [Hlt|[->|Hgt]]; [|done|].
    + rewrite Hall in Hb' by lia. done.
    + rewrite Hall' in Hb by lia. done.
  - destruct (Z.lt_trichotomy e e') as [Hlt|[->|Hgt]]; [|done|].
    + rewrite Hall' in Ha by lia. done.
    + rewrite Hall in Ha' by lia. done.
Qed.

Lemma run_is_start y z s e : run y z s e → is_start s y z.
Proof. intros (Hle & Hall & Hb & Ha). split; [apply Hall; lia | done]. Qed.

Lemma run_is_end y z s e : run y z s e → is_end e y z.
Proof. intros (Hle & Hall & Hb & Ha). split; [apply Hall; lia | done]. Qed.

(** A border position [(x, y, z, flag)] of the grid: the start of a run
    with flag 0, the end of a run with flag 1. *)
Definition border (b : Z * Z * Z * Z) : Prop :=
  let '(x, y, z, flag) := b in
  (flag = 0 ∧ is_start x y z) ∨ (flag = 1 ∧ is_end x y z).


Definition border_key (b : Z * Z * Z * Z) : Z * Z := (b.1.1.1, b.2).

(** [b] does not sort before [a]. *)
Definition not_before (a b : Z * Z * Z * Z) : Prop :=
  key_lt (border_key b) (border_key a) = false.

(** The cell lies in a run whose end is not among the borders still to be
    handled. *)
Definition covered (rest : list (Z * Z * Z * Z)) (c : cell) : Prop :=
  ∃ s e, run c.1.2 c.2 s e ∧ s ≤ c.1.1 ≤ e ∧ (e, c.1.2, c.2, 1) ∉ rest.

(** The state of the loop of [capture_rows] before the borders [rest]. *)
Record pairing (rest : list (Z * Z * Z * Z)) (start_map : list (Z * Z * Z))
    (rows : list (Z * Z * list segment)) : Prop := {
  pr_valid : Forall border rest;
  pr_nodup : NoDup rest;
  pr_sorted : StronglySorted not_before rest;
  pr_before : ∀ ev, border ev → ev ∉ rest → Forall (not_before ev) rest;
  pr_start_some : ∀ y z s',
    is_start s' y z → (s', y, z, 0) ∉ rest →
    ∃ s, dict_get (y, z) start_map = Some s ∧ s' ≤ s;
  pr_start_is : ∀ y z s,
    dict_get (y, z) start_map = Some s →
    is_start s y z ∧ (s, y, z, 0) ∉ rest;
  pr_rows_covered : ∀ c, covered rest c → weigh (row_weight c) rows = 1%nat;
  pr_rows_other : ∀ c, ¬ covered rest c → weigh (row_weight c) rows = 0%nat;
  pr_no_empty : no_empty rows;
  pr_forward : weigh backwards rows = 0%nat
}.

Lemma border_start x y z : is_start x y z → border (x, y, z, 0).
Proof. intros H. by left. Qed.

Lemma border_end x y z : is_end x y z → border (x, y, z, 1).
Proof. intros H. by right. Qed.

Lemma covered_iff_crown c : covered [] c ↔ crown_at c = true.
Proof.
  destruct c as [[x y] z]. split.
  - intros (s & e & (Hle & Hall & _) & Hx & _). by apply Hall.
  - intros Hc. destruct (run_of_cell x y z Hc) as (s & e & Hrun & Hx).
    exists s, e. split; [done|]. split; [done|]. apply not_elem_of_nil.
Qed.

Lemma pair_borders_spec rest start_map rows :
  pairing rest start_map rows →
  ∃ rows',
    pair_borders rest start_map rows = Ok rows' ∧
    (∀ c, weigh (row_weight c) rows' = Nat.b2n (crown_at c)) ∧
    no_empty rows' ∧ weigh backwards rows' = 0%nat.
Proof.
  revert start_map rows. induction rest as [|[[[x y] z] flag] rest IH];
    intros start_map rows Hp.
  - exists rows. split; [done|]. split; [|split; by destruct Hp].
    intros c. destruct (crown_at c) eqn:Hc.
    + by apply (pr_rows_covered _ _ _ Hp), covered_iff_crown.
    + apply (pr_rows_other _ _ _ Hp). rewrite covered_iff_crown. congruence.
  - destruct Hp as [Hvalid Hnodup Hsorted Hbefore Hsome His Hcov Hoth Hne Hfw].
    inversion_clear Hvalid as [|? ? Hhead Hvalid'].
    inversion_clear Hnodup as [|? ? Hnotin Hnodup'].
    inversion_clear Hsorted as [|? ? Hsorted' Hheadle].
    assert (Hbefore' : ∀ ev, border ev → ev ∉ rest → Forall (not_before ev) rest).
    { intros ev Hev Hnin.
      destruct (decide (ev = (x, y, z, flag))) as [->|Hneq]; [done|].
      assert (Hnin' : ev ∉ (x, y, z, flag) :: rest).
      { rewrite elem_of_cons. tauto. }
      specialize (Hbefore ev Hev Hnin'). by inversion_clear Hbefore. }
    destruct Hhead as [[-> Hstart]|[-> Hend]].
    + (* the start of a run *)
      simpl. apply IH. split; try done.
      * intros y' z' s' Hs' Hnin.
        destruct (decide ((y, z) = (y', z'))) as [[= <- <-]|Hline].
        -- rewrite dict_get_set_eq. exists x. split; [done|].
           destruct (decide (s' = x)) as [->|Hsx]; [lia|].
           assert (Hnin' : (s', y, z, 0) ∉ (x, y, z, 0) :: rest).
           { rewrite elem_of_cons. intros [[=]|]; done. }
           specialize (Hbefore _ (border_start _ _ _ Hs') Hnin').
           inversion_clear Hbefore as [|? ? Hk _].
           unfold not_before, key_lt, border_key in Hk. simpl in Hk.
           apply orb_false_iff in Hk as [Hk _]. apply Z.ltb_ge in Hk. lia.
        -- rewrite dict_get_set_ne by done. apply Hsome; [done|].
           rewrite elem_of_cons. intros [[=]|]; [congruence | done].
      * intros y' z' s.
        destruct (decide ((y, z) = (y', z'))) as [[= <- <-]|Hline].
        -- rewrite dict_get_set_eq. intros [= <-]. done.
        -- rewrite dict_get_set_ne by done. intros Hg.
           destruct (His _ _ _ Hg) as [H1 H2]. split; [done|].
           intros Hin. apply H2. by right.
      * intros c (s & e & Hrun & Hx & Hnin). apply Hcov. exists s, e.
        split; [done|]. split; [done|].
        rewrite elem_of_cons. intros [[=]|]; done.
      * intros c Hnc. apply Hoth. intros (s & e & Hrun & Hx & Hnin).
        apply Hnc. exists s, e. split; [done|]. split; [done|].
        intros Hin. apply Hnin. by right.
    + (* the end of a run *)
      destruct (run_of_end x y z Hend) as [s0 Hrun0].
      pose proof Hrun0 as (Hs0x & Hall0 & Hb0 & Ha0).
      assert (Hs0 : (s0, y, z, 0) ∉ (x, y, z, 1) :: rest).
      { rewrite elem_of_cons. intros [[=]|Hin].
        eapply list.Forall_forall in Hheadle; [|exact Hin].
        unfold not_before, key_lt, border_key in Hheadle. simpl in Hheadle.
        apply orb_false_iff in Hheadle as [H1 H2].
        apply Z.ltb_ge in H1. apply andb_false_iff in H2 as [H2|H2].
        - apply Z.eqb_neq in H2. lia.
        - done. }
      destruct (Hsome y z s0 (run_is_start _ _ _ _ Hrun0) Hs0) as (s & Hg & Hle).
      destruct (His _ _ _ Hg) as [[Hsc Hsp] Hsn].
      assert (Hsx : s ≤ x).
      { specialize (Hbefore _ (border_start _ _ _ (conj Hsc Hsp)) Hsn).
        inversion_clear Hbefore as [|? ? Hk _].
        unfold not_before, key_lt, border_key in Hk. simpl in Hk.
        apply orb_false_iff in Hk as [Hk _]. apply Z.ltb_ge in Hk. lia. }
      assert (s = s0) as ->.
      { destruct (decide (s = s0)) as [|Hne']; [done|].
        rewrite Hall0 in Hsp by lia. done. }
      assert (Hnotcov : ¬ covered ((x, y, z, 1) :: rest) (x, y, z)).
      { intros (s' & e' & Hrun' & Hx' & Hnin). simpl in *.
        destruct (run_unique y z s0 x s' e' x Hrun0 Hrun' ltac:(lia) Hx')
          as [_ <-].
        apply Hnin. left. }
      assert (Hfresh : ∀ segs, dict_get (y, z) rows = Some segs → (s0, x) ∉ segs).
      { intros segs Hgr Hin.
        pose proof (weigh_elem_le (row_weight (x, y, z)) rows (y, z) segs (s0, x)
                      (dict_get_elem_of _ _ _ Hgr) Hin) as Hw.
        rewrite (Hoth _ Hnotcov) in Hw. unfold row_weight, covers_row in Hw.
        simpl in Hw. rewrite !Z.eqb_refl, Z.leb_refl in Hw.
        destruct (Z.leb_spec s0 x); simpl in Hw; lia. }
      destruct (weigh_add_segment (y, z) (s0, x) rows Hfresh) as [Hw Hne'].
      simpl pair_borders. rewrite Hg. cbn [of_option rbind].
      set (rows' := match dict_get (y, z) rows with
                    | Some segs => dict_set (y, z) (set_add (s0, x) segs) rows
                    | None => dict_set (y, z) [(s0, x)] rows
                    end) in *.
      assert (Hcases : ∀ c,
                row_weight c (y, z) (s0, x) = 1%nat ∧ c.1.2 = y ∧ c.2 = z ∧
                s0 ≤ c.1.1 ≤ x ∨
                row_weight c (y, z) (s0, x) = 0%nat ∧
                ¬ (c.1.2 = y ∧ c.2 = z ∧ s0 ≤ c.1.1 ≤ x)).
      { intros [[cx cy] cz]. unfold row_weight, covers_row. simpl.
        destruct (Z.eqb_spec cy y), (Z.eqb_spec cz z), (Z.leb_spec s0 cx),
          (Z.leb_spec cx x); simpl; (by left) || (right; split; [done|lia]). }
      assert (Hgoal : pairing rest start_map rows').
      { split; try done.
        - intros y' z' s' Hs' Hnin. apply Hsome; [done|].
          rewrite elem_of_cons. intros [[=]|]; done.
        - intros y' z' s Hg'. destruct (His _ _ _ Hg') as [H1 H2].
          split; [done|]. intros Hin. apply H2. by right.
        - intros c Hc. rewrite Hw.
          destruct (Hcases c) as [(Hrw & Hy & Hz & Hx)|[Hrw Hout]]; rewrite Hrw.
          + rewrite Hoth; [done|].
            intros (s' & e' & Hrun' & Hx' & Hnin). rewrite Hy, Hz in Hrun', Hnin.
            destruct (run_unique y z s0 x s' e' c.1.1 Hrun0 Hrun' Hx Hx')
              as [_ <-].
            apply Hnin. left.
          + rewrite Hcov; [done|]. destruct Hc as (s' & e' & Hrun' & Hx' & Hnin).
            exists s', e'. split; [done|]. split; [done|].
            rewrite elem_of_cons. intros [[= -> Hy Hz]|]; [|done].
            rewrite Hy, Hz in Hrun'.
            destruct (run_unique y z s0 x s' x x Hrun0 Hrun' ltac:(lia)
                        ltac:(destruct Hrun'; lia)) as [<- _].
            apply Hout. done.
        - intros c Hnc. rewrite Hw.
          destruct (Hcases c) as [(Hrw & Hy & Hz & Hx)|[Hrw Hout]]; rewrite Hrw.
          + exfalso. apply Hnc. exists s0, x. rewrite Hy, Hz.
            split; [done|]. split; [done|]. done.
          + rewrite Hoth; [done|]. intros (s' & e' & Hrun' & Hx' & Hnin).
            apply Hnc. exists s', e'. split; [done|]. split; [done|].
            intros Hin. apply Hnin. by right.
        - by apply Hne'.
        - rewrite Hw, Hfw. unfold backwards. simpl.
          destruct (Z.ltb_spec x s0); simpl; lia. }
      destruct (dict_get (y, z) rows) as [segs|] eqn:Hgr; by apply IH.
Qed.

(** The borders [capture_rows] finds are the starts and the ends of the
    runs. *)
Definition indicator : ndarray Z :=
  np_map (λ v, if v =? value crown then 1 else 0) g.

Lemma get_indicator c : default 0 (get indicator c) = Z.b2z (crown_at c).
Proof.
  unfold indicator, crown_at. rewrite get_np_map.
  destruct (get g c) as [v|]; simpl; [|done].
  change (value crown) with 2.
  destruct (Z.eqb_spec v 2) as [->|Hne].
  - by rewrite bool_decide_eq_true_2.
  - rewrite bool_decide_eq_false_2; [done|]. congruence.
Qed.

Definition diff_shape : cell := ((shape g).1.1 + 1, (shape g).1.2, (shape g).2).

Lemma wf_diff_shape : wf_shape diff_shape.
Proof.
  destruct g_wf as [Hsh _]. unfold diff_shape.
  destruct (shape g) as [[nx ny] nz]. simpl in *. lia.
Qed.

Lemma elem_of_np_where_diff (p : Z → bool) c :
  c ∈ np_where p (np_diff_axis0 indicator) ↔
  in_bounds diff_shape c = true ∧
  p (Z.b2z (crown_at c) - Z.b2z (crown_at (c.1.1 - 1, c.1.2, c.2))) = true.
Proof.
  pose proof wf_diff_shape as Hwf. unfold diff_shape in *.
  pose proof get_indicator as Hget.
  unfold np_where, np_diff_axis0. change (shape indicator) with (shape g).
  destruct (shape g) as [[nx ny] nz] eqn:Hsh. simpl in Hwf |- *.
  rewrite list_elem_of_filter, elem_of_all_cells by done.
  split.
  - intros [Hp Hin]. split; [done|]. rewrite get_tabulate in Hp by done.
    destruct c as [[x y] z]. simpl in Hp |- *. rewrite !Hget in Hp. congruence.
  - intros [Hin Hp]. split; [|done]. rewrite get_tabulate by done.
    destruct c as [[x y] z]. simpl in Hp |- *. rewrite !Hget. congruence.
Qed.

Lemma crown_at_diff_shape x y z :
  crown_at (x, y, z) = true → in_bounds diff_shape (x, y, z) = true ∧
                              in_bounds diff_shape (x + 1, y, z) = true.
Proof.
  unfold crown_at. intros H%bool_decide_eq_true_1%get_Some_in_bounds.
  apply in_bounds_spec in H. rewrite !in_bounds_spec. unfold diff_shape.
  simpl in *. lia.
Qed.

Lemma elem_of_starts c :
  c ∈ np_where (λ v, 0 <? v) (np_diff_axis0 indicator) ↔
  is_start c.1.1 c.1.2 c.2.
Proof.
  rewrite elem_of_np_where_diff. destruct c as [[x y] z]. unfold is_start. simpl.
  split.
  - intros [_ Hp]. apply Z.ltb_lt in Hp.
    destruct (crown_at (x, y, z)), (crown_at (x - 1, y, z)); simpl in Hp; done || lia.
  - intros [Hc Hp]. split; [by apply crown_at_diff_shape|].
    rewrite Hc, Hp. done.
Qed.

Lemma elem_of_ends c :
  c ∈ np_where (λ v, v <? 0) (np_diff_axis0 indicator) ↔
  is_end (c.1.1 - 1) c.1.2 c.2.
Proof.
  rewrite elem_of_np_where_diff. destruct c as [[x y] z]. unfold is_end. simpl.
  replace (x - 1 + 1) with x by lia. split.
  - intros [_ Hp]. apply Z.ltb_lt in Hp.
    destruct (crown_at (x, y, z)), (crown_at (x - 1, y, z)); simpl in Hp; done || lia.
  - intros [Hc Hp]. split.
    + apply crown_at_diff_shape in Hc as [_ Hc].
      by replace (x - 1 + 1) with x in Hc by lia.
    + rewrite Hc, Hp. done.
Qed.

Lemma NoDup_np_where (p : Z → bool) : NoDup (np_where p (np_diff_axis0 indicator)).
Proof.
  pose proof wf_diff_shape as Hwf. unfold diff_shape in Hwf.
  unfold np_where, np_diff_axis0. change (shape indicator) with (shape g).
  destruct (shape g) as [[nx ny] nz]. simpl in *.
  apply list.NoDup_filter, NoDup_all_cells. done.
Qed.

Definition border_positions : list (Z * Z * Z * Z) :=
  ((λ c : cell, (c.1.1, c.1.2, c.2, 0)) <$>
     np_where (λ v, 0 <? v) (np_diff_axis0 indicator))
  ++ ((λ c : cell, (c.1.1 - 1, c.1.2, c.2, 1)) <$>
        np_where (λ v, v <? 0) (np_diff_axis0 indicator)).

Lemma elem_of_border_positions b : b ∈ border_positions ↔ border b.
Proof.
  unfold border_positions. rewrite elem_of_app, !list_elem_of_fmap.
  destruct b as [[[x y] z] flag]. unfold border. split.
  - intros [([[cx cy] cz] & [= -> -> -> ->] & Hc)|([[cx cy] cz] & [= -> -> -> ->] & Hc)].
    + left. split; [done|]. by apply elem_of_starts in Hc.
    + right. split; [done|]. by apply elem_of_ends in Hc.
  - intros [[-> H]|[-> H]].
    + left. exists (x, y, z). split; [done|]. by apply elem_of_starts.
    + right. exists (x + 1, y, z). simpl. split; [f_equal; f_equal; f_equal; lia|].
      apply elem_of_ends. simpl. by replace (x + 1 - 1) with x by lia.
Qed.

Lemma NoDup_border_positions : NoDup border_positions.
Proof.
  unfold border_positions. apply list.NoDup_app. split; [|split].
  - apply NoDup_fmap_2; [|apply NoDup_np_where].
    intros [[x y] z] [[x' y'] z'] [= -> -> ->]. done.
  - intros b (c & -> & _)%list_elem_of_fmap (c' & [=] & _)%list_elem_of_fmap.
  - apply NoDup_fmap_2; [|apply NoDup_np_where].
    intros [[x y] z] [[x' y'] z'] [= ? -> ->]. f_equal. f_equal. lia.
Qed.

(** [capture_rows] returns, for every line, the runs of Crown cells on
    it: every Crown cell lies in exactly one segment and no other cell
    in any. *)
Lemma capture_rows_spec :
  ∃ rows,
    capture_rows g = Ok rows ∧
    (∀ c, weigh (row_weight c) rows = Nat.b2n (crown_at c)) ∧
    no_empty rows ∧ weigh backwards rows = 0%nat.
Proof.
  unfold capture_rows. fold indicator. fold border_positions.
  apply pair_borders_spec.
  assert (Hall : ∀ b, border b → b ∈ sorted border_key border_positions).
  { intros b Hb. rewrite sorted_perm. by apply elem_of_border_positions. }
  split.
  - apply list.Forall_forall. intros b Hb. rewrite sorted_perm in Hb.
    by apply elem_of_border_positions.
  - rewrite sorted_perm. apply NoDup_border_positions.
  - apply (sorted_sorted border_key).
  - intros ev Hev Hnin. destruct Hnin. by apply Hall.
  - intros y z s' Hs Hnin. destruct Hnin. by apply Hall, border_start.
  - intros y z s [=].
  - intros c (s & e & Hrun & _ & Hnin). destruct Hnin.
    apply Hall, border_end. eapply run_is_end, Hrun.
  - done.
  - constructor.
  - done.
Qed.

End RowFacts.

(** ** The quads partition the Crown cells *)

Lemma count_quads_covered quads c :
  (∃ q, q ∈ quads ∧ covers_quad q c = true) ↔ (1 ≤ count_quads quads c)%nat.
Proof.
  unfold count_quads. induction quads as [|q quads IH]; simpl.
  - split; [|lia]. intros (q & Hq & _). by apply elem_of_nil in Hq.
  - split.
    + intros (q' & [->|Hq]%elem_of_cons & Hc).
      * rewrite Hc. simpl. lia.
      * assert (1 ≤ sum_list_with (λ q, Nat.b2n (covers_quad q c)) quads)%nat
          by (apply IH; by exists q').
        lia.
    + intros Hle. destruct (covers_quad q c) eqn:Hq.
      * exists q. split; [left | done].
      * simpl in Hle. destruct (proj2 IH Hle) as (q' & Hq' & Hc).
        exists q'. split; [by right | done].
Qed.

Lemma sum_list_with_two {A} (f : A → nat) (l : list A) (i j : nat) a b :
  l !! i = Some a → l !! j = Some b → i ≠ j →
  (f a + f b ≤ sum_list_with f l)%nat.
Proof.
  revert i j. induction l as [|x l IH]; intros i j Hi Hj Hne; [done|].
  destruct i as [|i], j as [|j]; simpl in *.
  - done.
  - injection Hi as ->.
    pose proof (sum_list_with_in _ f _ (list_elem_of_lookup_2 _ _ _ Hj)). lia.
  - injection Hj as ->.
    pose proof (sum_list_with_in _ f _ (list_elem_of_lookup_2 _ _ _ Hi)). lia.
  - assert (f a + f b ≤ sum_list_with f l)%nat by (apply (IH i j); auto). lia.
Qed.

(** A grid with a Crown cell next to a Stem cell. *)
Definition crown_corner : ndarray Z := NDArray (2, 2, 1) [2; 2; 2; 1].

(** C2. For every voxel grid and every order in which the sets of
    segments and of planes are iterated, [capture_quads] returns a list
    of boxes such that a cell is covered by a box of the list exactly
    when it holds Crown in the grid, and no two boxes of the list cover a
    common cell: the boxes partition the Crown cells. *)
Theorem capture_quads_partition (segment_order : list segment → nat)
    (plane_order : list plane → nat) (trees : list tree) (index : nat) (t : tree) :
  trees !! index = Some t →
  well_formed (grid t) = true →
  ∃ quads,
    capture_quads segment_order plane_order trees index = Ok quads ∧
    (∀ c, (∃ q, q ∈ quads ∧ covers_quad q c = true) ↔
          get (grid t) c = Some (value crown)) ∧
    (∀ i j q1 q2 c,
       quads !! i = Some q1 → quads !! j = Some q2 →
       covers_quad q1 c = true → covers_quad q2 c = true → i = j).
Proof.
  intros Ht Hwf%well_formed_wf.
  set (chi := λ c, Nat.b2n (crown_at (grid t) c)).
  assert (Hchi : ∀ c, (chi c ≤ 1)%nat).
  { intros c. unfold chi. destruct (crown_at (grid t) c); simpl; lia. }
  destruct (capture_rows_spec (grid t) Hwf) as (rows & Hrows & Hw & Hne & Hback).
  destruct (capture_planes_loop_spec segment_order chi Hchi
              (S (dict_size rows)) rows [] (Nat.lt_succ_diag_r _) Hne
              ltac:(constructor) Hback)
    as (planes & Hplanes & Hnep & Hwp).
  { intros c. rewrite Hw. unfold weigh. simpl. unfold chi. lia. }
  destruct (capture_quads_loop_spec plane_order chi
              (S (dict_size planes)) planes [] (Nat.lt_succ_diag_r _) Hnep)
    as (quads & Hquads & Hcount).
  { intros c. rewrite Hwp. unfold count_quads. simpl. lia. }
  exists quads. split; [|split].
  - unfold capture_quads, capture_planes. rewrite Ht. cbn [of_option rbind].
    rewrite Hrows. cbn [rbind]. rewrite Hplanes. cbn [rbind]. exact Hquads.
  - intros c. rewrite count_quads_covered, Hcount. unfold chi, crown_at.
    case_bool_decide; simpl; split; done || lia.
  - intros i j q1 q2 c Hi Hj H1 H2. destruct (decide (i = j)) as [|Hij]; [done|].
    pose proof (sum_list_with_two (λ q, Nat.b2n (covers_quad q c)) quads i j
                  q1 q2 Hi Hj Hij) as Hsum.
    fold (count_quads quads c) in Hsum. rewrite Hcount in Hsum.
    specialize (Hchi c). simpl in Hsum. rewrite H1, H2 in Hsum. simpl in Hsum. lia.
Qed.

Lemma capture_quads_partition_witness :
  ∃ quads,
    capture_quads (λ _, 0%nat) (λ _, 1%nat)
      [Tree (0, 0, 0) 0 crown_row; Tree (4, 0, 0) 1 crown_corner] 1 = Ok quads ∧
    (∀ c, (∃ q, q ∈ quads ∧ covers_quad q c = true) ↔
          get crown_corner c = Some (value crown)) ∧
    (∀ i j q1 q2 c,
       quads !! i = Some q1 → quads !! j = Some q2 →
       covers_quad q1 c = true → covers_quad q2 c = true → i = j).
Proof.
  apply (capture_quads_partition (λ _, 0%nat) (λ _, 1%nat)
           [Tree (0, 0, 0) 0 crown_row; Tree (4, 0, 0) 1 crown_corner] 1
           (Tree (4, 0, 0) 1 crown_corner)); reflexivity.
Defined.

(** ** Example configurations *)

(** A columnar tree whose crown has width 0. *)
Definition columnar_without_width : tree_configuration :=
  TreeConfiguration 1 (1 # 2) 0 1 0 "columnar".

(** A tree whose stem is wider than its crown; every number is above
    zero. *)
Definition wide_stem : tree_configuration :=
  TreeConfiguration 1 4 1 1 (1 # 2) "ellipsoid".

(** ** Facts about the crown masks *)

(** The float is not-a-number or at least zero. *)
Definition float_nonneg (x : float) : Prop :=
  match x with
  | Finite q => (0 <= q)%Q
  | Infinity negative => negative = false
  | NaN => True
  end.

(** The float is not-a-number or above zero. *)
Definition float_pos (x : float) : Prop :=
  match x with
  | Finite q => (0 < q)%Q
  | Infinity negative => negative = false
  | NaN => True
  end.

Lemma float_square_nonneg x : float_nonneg (float_square x).
Proof.
  destruct x as [q| |]; simpl; [|done..]. unfold Qle. simpl. nia.
Qed.

Lemma float_square_divide_pos i n : i ≠ 0 → float_pos (float_square (true_divide i n)).
Proof.
  intros Hi. unfold true_divide.
  destruct (Z.eqb_spec n 0) as [->|Hn].
  - destruct (Z.eqb_spec i 0); done.
  - destruct n as [|p|p]; [done|..]; simpl; unfold Qlt; simpl; nia.
Qed.

Lemma float_add_nonneg x y : float_nonneg x → float_nonneg y → float_nonneg (float_add x y).
Proof.
  destruct x as [p|a|], y as [q|b|]; simpl; try done.
  - unfold Qle. simpl. nia.
  - intros -> ->. done.
Qed.

Lemma float_add_pos x y : float_nonneg x → float_pos y → float_pos (float_add x y).
Proof.
  destruct x as [p|a|], y as [q|b|]; simpl; try done.
  - unfold Qle, Qlt. simpl. nia.
  - intros -> ->. done.
Qed.

Lemma float_pos_not_le_0 x : float_pos x → float_le_int x 0 = false.
Proof.
  destruct x as [q|a|]; simpl; try done.
  intros Hq. apply not_true_iff_false. intros Hle%Qle_bool_iff.
  apply (Qlt_not_le _ _ Hq). done.
Qed.

Lemma ellipsoid_sum_below hw hh c :
  c.2 ≠ 0 → float_le_int (ellipsoid_sum hw hh c) 0 = false.
Proof.
  intros Hk. apply float_pos_not_le_0. unfold ellipsoid_sum.
  apply float_add_pos.
  - apply float_add_nonneg; apply float_square_nonneg.
  - by apply float_square_divide_pos.
Qed.

(** The mask of [add_spreading_tree] is the ellipsoid test restricted to
    the upper half. *)
Lemma spreading_mask_spec hw hh c :
  spreading_mask hw hh c = ellipsoid_mask hw hh c && (0 <=? c.2).
Proof.
  unfold spreading_mask, ellipsoid_mask. destruct (Z.leb_spec 0 c.2) as [Hk|Hk].
  - by rewrite andb_true_r.
  - rewrite andb_false_r. apply ellipsoid_sum_below. lia.
Qed.

(** ** Facts about fancy-index assignment *)

Lemma normalize_index_range n i j : normalize_index n i = Some j → 0 ≤ j < n.
Proof.
  unfold normalize_index. intros H.
  destruct (Z.leb_spec 0 i), (Z.ltb_spec i n); simpl in H; simplify_eq; try lia;
    destruct (Z.leb_spec (- n) i), (Z.ltb_spec i 0); simpl in H; simplify_eq; lia.
Qed.

Lemma normalize_cell_Some_in_bounds sh c c' :
  normalize_cell sh c = Some c' → in_bounds sh c' = true.
Proof.
  destruct sh as [[nx ny] nz], c as [[x y] z]. simpl. intros H.
  destruct (normalize_index nx x) as [x'|] eqn:Hx; simpl in H; [|done].
  destruct (normalize_index ny y) as [y'|] eqn:Hy; simpl in H; [|done].
  destruct (normalize_index nz z) as [z'|] eqn:Hz; simpl in H; [|done].
  injection H as <-. apply normalize_index_range in Hx, Hy, Hz.
  rewrite !andb_true_iff, !Z.leb_le, !Z.ltb_lt. lia.
Qed.

Lemma Forall2_elem_of_l {A B} (R : A → B → Prop) l k x :
  Forall2 R l k → x ∈ l → ∃ y, y ∈ k ∧ R x y.
Proof.
  induction 1 as [|a b l k Hab _ IH]; [by intros ?%elem_of_nil|].
  intros [->|Hx]%elem_of_cons.
  - exists b. split; [left | done].
  - destruct (IH Hx) as (y & Hy & HR). exists y. split; [by right | done].
Qed.

Lemma Forall2_elem_of_r {A B} (R : A → B → Prop) l k y :
  Forall2 R l k → y ∈ k → ∃ x, x ∈ l ∧ R x y.
Proof.
  induction 1 as [|a b l k Hab _ IH]; [by intros ?%elem_of_nil|].
  intros [->|Hy]%elem_of_cons.
  - exists a. split; [left | done].
  - destruct (IH Hy) as (x & Hx & HR). exists x. split; [by right | done].
Qed.

(** What [a[cells] = v] leaves behind when it does not raise. *)
Lemma np_setitem_spec {A} (a a' : ndarray A) cells v :
  wf_array a → np_setitem a cells v = Ok a' →
  shape a' = shape a ∧ wf_array a' ∧
  (∀ c, (∃ r, r ∈ cells ∧ normalize_cell (shape a) r = Some c) → get a' c = Some v) ∧
  (∀ c, ¬ (∃ r, r ∈ cells ∧ normalize_cell (shape a) r = Some c) → get a' c = get a c).
Proof.
  intros Ha. unfold np_setitem.
  destruct (mapM (normalize_cell (shape a)) cells) as [cs|] eqn:Hcs; [|done].
  simpl. intros [= <-]. apply mapM_Some in Hcs.
  assert (Hin : all_in_bounds (shape a) cs).
  { apply list.Forall_forall. intros c Hc.
    destruct (Forall2_elem_of_r _ _ _ _ Hcs Hc) as (r & _ & Hr).
    by apply normalize_cell_Some_in_bounds in Hr. }
  fold (set_cells a cs v).
  split; [apply shape_set_cells|]. split; [by apply wf_set_cells|]. split.
  - intros c (r & Hr & Hn). apply get_set_cells_in; [done..|].
    destruct (Forall2_elem_of_l _ _ _ _ Hcs Hr) as (c' & Hc' & Hn'). congruence.
  - intros c Hc. apply get_set_cells_notin; [done..|]. intros Hcin.
    apply Hc. destruct (Forall2_elem_of_r _ _ _ _ Hcs Hcin) as (r & Hr & Hn). eauto.
Qed.

Lemma elem_of_np_arange start stop i : i ∈ np_arange start stop ↔ start ≤ i < stop.
Proof. unfold np_arange. rewrite elem_of_seqZ. lia. Qed.

Lemma elem_of_meshgrid2 js ks p : p ∈ meshgrid2 js ks ↔ p.1 ∈ js ∧ p.2 ∈ ks.
Proof.
  unfold meshgrid2. rewrite list_elem_of_bind. destruct p as [j k]. simpl. split.
  - intros (j' & (k' & [= -> ->]%list_elem_of_singleton & Hk)%list_elem_of_bind & Hj).
    done.
  - intros [Hj Hk]. exists j. split; [|done]. apply list_elem_of_bind.
    exists k. split; [|done]. by apply list_elem_of_singleton.
Qed.

Lemma elem_of_meshgrid3 is_ js ks c :
  c ∈ meshgrid3 is_ js ks ↔ c.1.1 ∈ is_ ∧ c.1.2 ∈ js ∧ c.2 ∈ ks.
Proof.
  unfold meshgrid3. rewrite list_elem_of_bind. destruct c as [[i j] k]. simpl. split.
  - intros (i' & (j' & (k' & [= -> -> ->]%list_elem_of_singleton
                         & Hk)%list_elem_of_bind & Hj)%list_elem_of_bind & Hi).
    done.
  - intros (Hi & Hj & Hk). exists i. split; [|done]. apply list_elem_of_bind.
    exists j. split; [|done]. apply list_elem_of_bind.
    exists k. split; [|done]. by apply list_elem_of_singleton.
Qed.

(** ** The spreading crown *)

Definition half_width (cfg : tree_configuration) : Z :=
  py_int (crown_width cfg / 2 / cube_size).

Definition half_height (cfg : tree_configuration) : Z :=
  py_int (crown_height cfg / 2 / cube_size).

(** The cell of the grid the offsets of [add_spreading_tree] are relative
    to. *)
Definition spreading_center (tree_grid : ndarray Z) (cfg : tree_configuration)
  : cell :=
  ((shape tree_grid).1.1 `div` 2, (shape tree_grid).1.2 `div` 2,
   py_int ((stem_height cfg - crown_offset cfg) / cube_size)).

(** An offset of the crown ranges that passes the ellipsoid test and lies
    in the upper half. *)
Definition upper_half_offset (cfg : tree_configuration) (r : cell) : Prop :=
  (- half_width cfg ≤ r.1.1 ≤ half_width cfg ∧
   - half_width cfg ≤ r.1.2 ≤ half_width cfg ∧
   - half_height cfg ≤ r.2 ≤ half_height cfg) ∧
  ellipsoid_mask (half_width cfg) (half_height cfg) r = true ∧ 0 ≤ r.2.

(** The cell is the one numpy indexes for such an offset. *)
Definition spreading_target (tree_grid : ndarray Z) (cfg : tree_configuration)
    (c : cell) : Prop :=
  ∃ r, upper_half_offset cfg r ∧
       normalize_cell (shape tree_grid)
         (cell_add r (spreading_center tree_grid cfg)) = Some c.

Definition small_spreading : tree_configuration :=
  TreeConfiguration 1 (1 # 2) 1 1 0 "spreading".




(** ** [int] on the numbers of a configuration *)

(** For a number that is not negative, [int] is the floor. *)
Lemma py_int_floor q : (0 <= q)%Q → py_int q = Qfloor q.
Proof.
  destruct q as [n d]. unfold Qle, py_int, Qfloor. simpl. intros H.
  apply Z.quot_div_nonneg; lia.
Qed.

Lemma py_int_bounds q :
  (0 <= q)%Q → (inject_Z (py_int q) <= q)%Q ∧ (q < inject_Z (py_int q) + 1)%Q.
Proof.
  intros Hq. rewrite (py_int_floor q Hq). split; [apply Qfloor_le|].
  pose proof (Qlt_floor q) as H. rewrite inject_Z_plus in H. exact H.
Qed.

#[local] Instance py_int_proper : Proper (Qeq ==> eq) py_int.
Proof.
  intros [a b] [c d]. unfold Qeq, py_int. simpl. intros H.
  rewrite <- (Z.quot_mul_cancel_r a (Z.pos b) (Z.pos d)) by lia.
  rewrite H. replace (c * Z.pos b) with (Z.pos b * c) by lia.
  apply Z.quot_mul_cancel_l; lia.
Qed.

Lemma Z_le_of_Q a b : (inject_Z a < inject_Z b + 1)%Q → a ≤ b.
Proof. unfold Qlt. simpl. lia. Qed.

Lemma Q_le_of_Z a b : a ≤ b → (inject_Z a <= inject_Z b)%Q.
Proof. unfold Qle. simpl. lia. Qed.

Lemma div_cube_size q : (q / cube_size == 2 * q)%Q.
Proof. unfold cube_size. field. Qed.

Lemma half_div_cube_size q : (q / 2 / cube_size == q)%Q.
Proof. unfold cube_size. field. Qed.

(** Name [int(q)] and record that it is the floor of [q]. *)
Ltac int_bounds q :=
  let H := fresh "H" in
  let Hlo := fresh "Hlo" in
  let Hhi := fresh "Hhi" in
  assert (H : (0 <= q)%Q);
  [ rewrite ?half_div_cube_size, ?div_cube_size; try lra
  | destruct (py_int_bounds q H) as [Hlo Hhi]; clear H;
    generalize dependent (py_int q); intros ].

(** An inequality of integers from the bounds on the rationals. *)
Ltac q_goal :=
  apply Z_le_of_Q;
  rewrite ?half_div_cube_size, ?div_cube_size in *;
  rewrite ?inject_Z_plus, ?inject_Z_mult;
  change (inject_Z 0) with 0%Q;
  change (inject_Z 1) with 1%Q;
  change (inject_Z 2) with 2%Q;
  lra.

Section Proportions.
Variables sh sd cw ch co : Q.
Hypothesis sh_nonneg : (0 <= sh)%Q.
Hypothesis sd_nonneg : (0 <= sd)%Q.
Hypothesis sd_le_cw : (sd <= cw)%Q.
Hypothesis ch_nonneg : (0 <= ch)%Q.
Hypothesis co_nonneg : (0 <= co)%Q.
Hypothesis co_le_sh : (co <= sh)%Q.
Hypothesis co_le_ch : (co <= ch)%Q.

Lemma radius_fits :
  0 ≤ py_int (sd / 2 / cube_size) ∧
  py_int (sd / 2 / cube_size) ≤ py_int (cw / 2 / cube_size) ∧
  2 * py_int (cw / 2 / cube_size) + 1 ≤ py_int (cw / cube_size + 1).
Proof.
  int_bounds (sd / 2 / cube_size)%Q.
  int_bounds (cw / 2 / cube_size)%Q.
  int_bounds (cw / cube_size + 1)%Q.
  repeat split; q_goal.
Qed.

Lemma stem_height_fits :
  0 ≤ py_int (sh / cube_size) ∧
  py_int (sh / cube_size) ≤ py_int ((sh + ch - co) / cube_size + 1).
Proof.
  int_bounds (sh / cube_size)%Q.
  int_bounds ((sh + ch - co) / cube_size + 1)%Q.
  split; q_goal.
Qed.

Lemma columnar_height_fits :
  0 ≤ py_int ((sh - co) / cube_size) ∧
  py_int (ch / cube_size) + py_int ((sh - co) / cube_size) + 1 ≤
  py_int ((sh + ch - co) / cube_size + 1).
Proof.
  int_bounds ((sh - co) / cube_size)%Q.
  int_bounds (ch / cube_size)%Q.
  int_bounds ((sh + ch - co) / cube_size + 1)%Q.
  split; q_goal.
Qed.

Lemma half_height_nonneg : 0 ≤ py_int (ch / 2 / cube_size).
Proof. int_bounds (ch / 2 / cube_size)%Q. q_goal. Qed.

Lemma spreading_height_fits :
  py_int (ch / 2 / cube_size) + py_int ((sh - co) / cube_size) + 1 ≤
  py_int ((sh + ch - co) / cube_size + 1).
Proof.
  int_bounds ((sh - co) / cube_size)%Q.
  int_bounds (ch / 2 / cube_size)%Q.
  int_bounds ((sh + ch - co) / cube_size + 1)%Q.
  q_goal.
Qed.

Lemma ellipsoid_height_fits :
  py_int (ch / 2 / cube_size) ≤
  py_int ((sh - co) / cube_size + inject_Z (py_int (ch / 2 / cube_size))) ∧
  py_int ((sh - co) / cube_size + inject_Z (py_int (ch / 2 / cube_size)))
  + py_int (ch / 2 / cube_size) + 1 ≤
  py_int ((sh + ch - co) / cube_size + 1).
Proof.
  pose proof (Q_le_of_Z _ _ half_height_nonneg) as Hhh.
  change (inject_Z 0) with 0%Q in Hhh.
  int_bounds (ch / 2 / cube_size)%Q.
  int_bounds ((sh - co) / cube_size + inject_Z z)%Q.
  int_bounds ((sh + ch - co) / cube_size + 1)%Q.
  split; q_goal.
Qed.

End Proportions.

(** ** Which exceptions the fills raise, and when they raise none *)

Lemma np_setitem_inv {A} (a : ndarray A) cells v :
  match np_setitem a cells v with
  | Ok a' => shape a' = shape a
  | Err e => e = IndexError
  end.
Proof.
  unfold np_setitem. destruct (mapM (normalize_cell (shape a)) cells); simpl; [|done].
  apply (shape_set_cells a).
Qed.

Lemma for_each_setitem_inv {A} (xs : list A)
    (cells : A → ndarray Z → list cell) v g :
  match for_each xs (λ x g, np_setitem g (cells x g) v) g with
  | Ok g' => shape g' = shape g
  | Err e => e = IndexError
  end.
Proof.
  revert g. induction xs as [|x xs IH]; intros g; simpl; [done|].
  pose proof (np_setitem_inv g (cells x g) v) as H.
  destruct (np_setitem g (cells x g) v) as [g1|e]; simpl; [|done].
  specialize (IH g1).
  destruct (for_each xs _ g1); [congruence | done].
Qed.

Lemma for_each_setitem_ok {A} (xs : list A)
    (cells : A → ndarray Z → list cell) v g :
  (∀ x g', x ∈ xs → shape g' = shape g → all_in_bounds (shape g') (cells x g')) →
  ∃ g', for_each xs (λ x g, np_setitem g (cells x g) v) g = Ok g' ∧
        shape g' = shape g.
Proof.
  revert g. induction xs as [|x xs IH]; intros g Hin; simpl; [by exists g|].
  rewrite np_setitem_ok by (apply Hin; [left | done]). simpl.
  destruct (IH (set_cells g (cells x g) v)) as (g' & Hrun & Hsh).
  { intros y g' Hy Hg'. apply Hin; [by right|].
    by rewrite Hg', shape_set_cells. }
  exists g'. split; [done|]. by rewrite Hsh, shape_set_cells.
Qed.

(** The proportions under which every index of the fills is in range:
    no number is negative, the stem is not wider than the crown, and the
    crown starts on the stem, not further below its top than the crown is
    high. *)
Record proportioned (cfg : tree_configuration) : Prop := {
  stem_height_nonneg : (0 <= stem_height cfg)%Q;
  stem_diameter_nonneg : (0 <= stem_diameter cfg)%Q;
  stem_within_crown : (stem_diameter cfg <= crown_width cfg)%Q;
  crown_height_nonneg : (0 <= crown_height cfg)%Q;
  crown_offset_nonneg : (0 <= crown_offset cfg)%Q;
  crown_on_stem : (crown_offset cfg <= stem_height cfg)%Q;
  crown_offset_within_crown : (crown_offset cfg <= crown_height cfg)%Q
}.

Definition known_crown_type (name : string) : bool :=
  String.eqb name "ellipsoid" || String.eqb name "columnar"
  || String.eqb name "spreading".

Definition well_proportioned (cfg : tree_configuration) : bool :=
  Qle_bool 0 (stem_height cfg) && Qle_bool 0 (stem_diameter cfg)
  && Qle_bool (stem_diameter cfg) (crown_width cfg)
  && Qle_bool 0 (crown_height cfg) && Qle_bool 0 (crown_offset cfg)
  && Qle_bool (crown_offset cfg) (stem_height cfg)
  && Qle_bool (crown_offset cfg) (crown_height cfg)
  && known_crown_type (crown_type cfg).

Lemma well_proportioned_spec cfg :
  well_proportioned cfg = true →
  proportioned cfg ∧ known_crown_type (crown_type cfg) = true.
Proof.
  unfold well_proportioned. rewrite !andb_true_iff, !Qle_bool_iff.
  intros [[[[[[[? ?] ?] ?] ?] ?] ?] ?]. by split.
Qed.

(** A disc of radius [r] around the centre of a side of length [n] lies
    on the side when [2 r + 2 <= n]. *)
Lemma disc_on_side j k r n :
  0 ≤ r → 2 * r + 2 ≤ n → j ^ 2 + k ^ 2 ≤ r ^ 2 →
  0 ≤ j + n `div` 2 < n ∧ 0 ≤ k + n `div` 2 < n.
Proof.
  intros Hr Hn Hjk.
  assert (- r ≤ j ≤ r ∧ - r ≤ k ≤ r) by nia.
  pose proof (Z.div_mod n 2 ltac:(lia)). pose proof (Z.mod_pos_bound n 2 ltac:(lia)).
  lia.
Qed.

Section FillFacts.
Variable cfg : tree_configuration.
Variable tree_grid : ndarray Z.
Hypothesis cfg_proportioned : proportioned cfg.
Hypothesis tree_grid_shape : shape tree_grid = grid_shape cfg.

Lemma add_stem_ok :
  ∃ g', add_stem tree_grid (stem_diameter cfg) (stem_height cfg) = Ok g' ∧
        shape g' = grid_shape cfg.
Proof.
  destruct cfg_proportioned.
  pose proof (radius_fits (stem_diameter cfg) (crown_width cfg)) as (Hr & Hrh & Hh);
    [done..|].
  pose proof (stem_height_fits (stem_height cfg) (crown_height cfg) (crown_offset cfg))
    as [HS HSz]; [done..|].
  rewrite <- tree_grid_shape. unfold add_stem. apply for_each_setitem_ok.
  intros i g' Hi Hg'. rewrite Hg', tree_grid_shape.
  apply elem_of_np_arange in Hi. apply list.Forall_forall.
  intros c ([j k] & -> & [Hjk _]%list_elem_of_filter)%list_elem_of_fmap.
  simpl in Hjk. apply in_bounds_spec. unfold grid_shape. simpl.
  set (r := py_int (stem_diameter cfg / 2 / cube_size)) in *.
  set (n := py_int (crown_width cfg / cube_size + 1) + 1).
  destruct (disc_on_side j k r n) as [Hj Hk]; [lia..|done|]. lia.
Qed.

Lemma add_columnar_tree_ok :
  ∃ g', add_columnar_tree tree_grid cfg = Ok g' ∧ shape g' = grid_shape cfg.
Proof.
  destruct cfg_proportioned.
  pose proof (radius_fits (crown_width cfg) (crown_width cfg)) as (Hr & _ & Hh);
    [lra..|].
  pose proof (columnar_height_fits (stem_height cfg) (crown_height cfg)
                (crown_offset cfg)) as [HB HC]; [done..|].
  rewrite <- tree_grid_shape. unfold add_columnar_tree. apply for_each_setitem_ok.
  intros i g' Hi Hg'. rewrite Hg', tree_grid_shape.
  apply elem_of_np_arange in Hi. apply list.Forall_forall.
  intros c ([j k] & -> & [Hjk _]%list_elem_of_filter)%list_elem_of_fmap.
  simpl in Hjk. apply in_bounds_spec. unfold grid_shape. simpl.
  set (r := py_int (crown_width cfg / 2 / cube_size)) in *.
  set (n := py_int (crown_width cfg / cube_size + 1) + 1).
  destruct (disc_on_side j k r n) as [Hj Hk]; [lia..|done|]. lia.
Qed.

Lemma crown_range_on_side i :
  - py_int (crown_width cfg / 2 / cube_size) ≤ i
    ≤ py_int (crown_width cfg / 2 / cube_size) →
  0 ≤ i + (py_int (crown_width cfg / cube_size + 1) + 1) `div` 2
    < py_int (crown_width cfg / cube_size + 1) + 1.
Proof.
  destruct cfg_proportioned.
  pose proof (radius_fits (crown_width cfg) (crown_width cfg)) as (Hr & _ & Hh);
    [lra..|].
  set (r := py_int (crown_width cfg / 2 / cube_size)) in *.
  set (n := py_int (crown_width cfg / cube_size + 1) + 1). intros Hi.
  pose proof (Z.div_mod n 2 ltac:(lia)). pose proof (Z.mod_pos_bound n 2 ltac:(lia)).
  lia.
Qed.

Lemma add_ellipsoid_tree_ok :
  ∃ g', add_ellipsoid_tree tree_grid cfg = Ok g' ∧ shape g' = grid_shape cfg.
Proof.
  destruct cfg_proportioned.
  pose proof (ellipsoid_height_fits (stem_height cfg) (crown_height cfg)
                (crown_offset cfg)) as [HE HEz]; [done..|].
  unfold add_ellipsoid_tree. rewrite np_setitem_ok.
  { eexists. split; [done|]. by rewrite shape_set_cells. }
  rewrite tree_grid_shape. apply list.Forall_forall.
  intros c ([[i j] k] & -> & [_ Hc]%list_elem_of_filter)%list_elem_of_fmap.
  rewrite elem_of_meshgrid3, !elem_of_np_arange in Hc. simpl in Hc.
  apply in_bounds_spec. unfold grid_shape. simpl.
  pose proof (crown_range_on_side i ltac:(lia)).
  pose proof (crown_range_on_side j ltac:(lia)). lia.
Qed.

Lemma add_spreading_tree_ok :
  ∃ g', add_spreading_tree tree_grid cfg = Ok g' ∧ shape g' = grid_shape cfg.
Proof.
  destruct cfg_proportioned.
  pose proof (spreading_height_fits (stem_height cfg) (crown_height cfg)
                (crown_offset cfg)) as Hz.
  repeat specialize (Hz ltac:(done)).
  pose proof (columnar_height_fits (stem_height cfg) (crown_height cfg)
                (crown_offset cfg)) as [HB _]; [done..|].
  unfold add_spreading_tree. rewrite np_setitem_ok.
  { eexists. split; [done|]. by rewrite shape_set_cells. }
  rewrite tree_grid_shape. apply list.Forall_forall.
  intros c ([[i j] k] & -> & [Hm Hc]%list_elem_of_filter)%list_elem_of_fmap.
  rewrite spreading_mask_spec in Hm. apply andb_true_iff in Hm as [_ Hk%Z.leb_le].
  rewrite elem_of_meshgrid3, !elem_of_np_arange in Hc. simpl in Hc, Hk.
  apply in_bounds_spec. unfold grid_shape. simpl.
  pose proof (crown_range_on_side i ltac:(lia)).
  pose proof (crown_range_on_side j ltac:(lia)). lia.
Qed.

End FillFacts.

(** ** [add_tree] *)

Lemma crown_fill_inv name fill g cfg :
  crown_type_to_function name = Some fill →
  match fill g cfg with
  | Ok g' => shape g' = shape g
  | Err e => e = IndexError
  end.
Proof.
  unfold crown_type_to_function. intros H.
  repeat match type of H with
         | (if ?b then _ else _) = _ => destruct b
         end; simplify_eq.
  - apply np_setitem_inv.
  - apply for_each_setitem_inv.
  - apply np_setitem_inv.
Qed.

Lemma add_stem_inv g sd sh :
  match add_stem g sd sh with
  | Ok g' => shape g' = shape g
  | Err e => e = IndexError
  end.
Proof. unfold add_stem. apply for_each_setitem_inv. Qed.

Lemma np_zeros_checked_inv sh :
  match np_zeros_checked sh with
  | Ok g => shape g = sh ∧ 0 ≤ sh.1.1 ∧ 0 ≤ sh.1.2 ∧ 0 ≤ sh.2
  | Err e => e = ValueError ∧ (sh.1.1 < 0 ∨ sh.1.2 < 0 ∨ sh.2 < 0)
  end.
Proof.
  destruct sh as [[nx ny] nz]. unfold np_zeros_checked. simpl.
  destruct (Z.ltb_spec nx 0), (Z.ltb_spec ny 0), (Z.ltb_spec nz 0); simpl;
    (split; [done | lia]).
Qed.

(** What [build_tree] returns or raises. *)
Lemma build_tree_inv pos id cfg :
  match build_tree pos id cfg with
  | Ok t =>
      shape (grid t) = grid_shape cfg ∧ configuration_identifier t = id ∧
      position t = (py_int (pos.1.1 / cube_size), py_int (pos.1.2 / cube_size),
                    py_int (pos.2 / cube_size))
  | Err e =>
      (e = ValueError ∧
       ((grid_shape cfg).1.1 < 0 ∨ (grid_shape cfg).1.2 < 0 ∨ (grid_shape cfg).2 < 0))
      ∨ ((e = IndexError ∨ e = KeyError) ∧
         0 ≤ (grid_shape cfg).1.1 ∧ 0 ≤ (grid_shape cfg).1.2 ∧ 0 ≤ (grid_shape cfg).2)
  end.
Proof.
  unfold build_tree.
  pose proof (np_zeros_checked_inv (grid_shape cfg)) as H0.
  destruct (np_zeros_checked (grid_shape cfg)) as [g0|e]; cbn [rbind]; [|by left].
  destruct H0 as [Hsh0 Hdims].
  pose proof (add_stem_inv g0 (stem_diameter cfg) (stem_height cfg)) as H1.
  destruct (add_stem g0 (stem_diameter cfg) (stem_height cfg)) as [g1|e];
    cbn [rbind]; [|right; split; [by left | done]].
  destruct (crown_type_to_function (crown_type cfg)) as [fill|] eqn:Hfill;
    cbn [rbind of_option]; [|right; split; [by right | done]].
  pose proof (crown_fill_inv _ fill g1 cfg Hfill) as H2.
  destruct (fill g1 cfg) as [g2|e]; cbn [rbind]; [|right; split; [by left | done]].
  simpl. split; [congruence | done].
Qed.

Lemma known_crown_type_fill name :
  known_crown_type name = true →
  crown_type_to_function name = Some add_ellipsoid_tree ∨
  crown_type_to_function name = Some add_columnar_tree ∨
  crown_type_to_function name = Some add_spreading_tree.
Proof.
  unfold known_crown_type, crown_type_to_function.
  destruct (String.eqb name "ellipsoid"); [by left|].
  destruct (String.eqb name "columnar"); [by right; left|].
  destruct (String.eqb name "spreading"); [by right; right | done].
Qed.

Lemma build_tree_ok pos id cfg :
  well_proportioned cfg = true → ∃ t, build_tree pos id cfg = Ok t.
Proof.
  intros [Hcfg Hname]%well_proportioned_spec. unfold build_tree.
  pose proof Hcfg as [].
  pose proof (radius_fits (stem_diameter cfg) (crown_width cfg)) as (Hr & Hrh & Hh);
    [done..|].
  pose proof (stem_height_fits (stem_height cfg) (crown_height cfg) (crown_offset cfg))
    as [HS HSz]; [done..|].
  pose proof (np_zeros_checked_inv (grid_shape cfg)) as H0.
  destruct (np_zeros_checked (grid_shape cfg)) as [g0|e]; cbn [rbind].
  2:{ destruct H0 as [_ H0]. unfold grid_shape in H0. simpl in H0. lia. }
  destruct H0 as [Hsh0 _].
  destruct (add_stem_ok cfg g0 Hcfg Hsh0) as (g1 & -> & Hsh1). cbn [rbind].
  destruct (known_crown_type_fill _ Hname) as [-> | [-> | ->]]; cbn [rbind of_option].
  - destruct (add_ellipsoid_tree_ok cfg g1 Hcfg Hsh1) as (g2 & -> & _). by eexists.
  - destruct (add_columnar_tree_ok cfg g1 Hcfg Hsh1) as (g2 & -> & _). by eexists.
  - destruct (add_spreading_tree_ok cfg g1 Hcfg Hsh1) as (g2 & -> & _). by eexists.
Qed.




(** ** What [add_tree] builds *)

(** Every cell is Empty, Stem or Crown. *)
Definition plain (g : ndarray Z) : bool :=
  forallb (λ v, (value no_tree <=? v) && (v <=? value crown)) (data g).

(** The grid of the tree is well formed and plain. *)
Definition plain_tree (t : tree) : bool :=
  well_formed (grid t) && plain (grid t).

Lemma plain_spec g :
  plain g = true ↔ Forall (λ v, 0 ≤ v ≤ 2) (data g).
Proof.
  unfold plain. induction (data g) as [|v l IH]; simpl.
  - split; [constructor | done].
  - rewrite list.Forall_cons, <- IH, !andb_true_iff, !Z.leb_le. done.
Qed.

Lemma plain_no_marker g : plain g = true → no_marker g = true.
Proof.
  unfold plain, no_marker. rewrite !forallb_forall. intros H v Hv.
  specialize (H v Hv). apply andb_true_iff in H as [_ H%Z.leb_le].
  apply negb_true_iff, Z.eqb_neq. simpl in *. lia.
Qed.

Lemma plain_tree_clean t : plain_tree t = true → clean_tree t = true.
Proof.
  unfold plain_tree, clean_tree. rewrite !andb_true_iff.
  intros [? ?]. split; [done|]. by apply plain_no_marker.
Qed.

(** A property of arrays that writing [v] to a cell keeps is kept by the
    fancy-index assignments of [v]. *)
Section Preserved.
Variable I : ndarray Z → Prop.
Variable v : Z.
Hypothesis I_set : ∀ a c, I a → I (set a c v).

Lemma set_cells_preserves g cells : I g → I (set_cells g cells v).
Proof.
  revert g. induction cells as [|c cells IH]; intros g Hg; [done|].
  unfold set_cells in *. simpl. by apply IH, I_set.
Qed.

Lemma np_setitem_preserves g cells g' :
  I g → np_setitem g cells v = Ok g' → I g'.
Proof.
  intros Hg. unfold np_setitem.
  destruct (mapM (normalize_cell (shape g)) cells) as [cs|]; [|done].
  simpl. intros [= <-]. by apply (set_cells_preserves g cs).
Qed.

Lemma for_each_setitem_preserves {A} (xs : list A)
    (cells : A → ndarray Z → list cell) g g' :
  I g → for_each xs (λ x g, np_setitem g (cells x g) v) g = Ok g' → I g'.
Proof.
  revert g. induction xs as [|x xs IH]; intros g Hg; simpl; [by intros [= <-]|].
  destruct (np_setitem g (cells x g) v) as [g1|] eqn:H1; [|done]. simpl.
  apply IH. by eapply np_setitem_preserves.
Qed.

End Preserved.

(** Well formed and plain. *)
Definition built (g : ndarray Z) : Prop := wf_array g ∧ plain g = true.

Lemma built_set g c v : 0 ≤ v ≤ 2 → built g → built (set g c v).
Proof.
  intros Hv [Hwf Hp]. split; [by apply wf_set|].
  apply plain_spec. apply plain_spec in Hp. unfold set.
  destruct (in_bounds (shape g) c); [|done]. simpl. by apply Forall_insert.
Qed.

Lemma built_np_zeros sh : wf_shape sh → built (np_zeros sh).
Proof.
  intros Hsh. split; [by apply wf_tabulate|]. apply plain_spec.
  unfold np_zeros, tabulate. simpl. apply Forall_fmap, list.Forall_forall.
  intros c _. simpl. lia.
Qed.

Lemma build_tree_built pos id cfg t :
  build_tree pos id cfg = Ok t → built (grid t).
Proof.
  unfold build_tree.
  pose proof (np_zeros_checked_inv (grid_shape cfg)) as H0.
  destruct (np_zeros_checked (grid_shape cfg)) as [g0|] eqn:E0; cbn [rbind]; [|done].
  assert (B0 : built g0).
  { destruct (grid_shape cfg) as [[nx ny] nz]. unfold np_zeros_checked in E0.
    destruct ((nx <? 0) || (ny <? 0) || (nz <? 0)); [done|].
    injection E0 as <-. apply built_np_zeros. simpl in *. lia. }
  destruct (add_stem g0 (stem_diameter cfg) (stem_height cfg)) as [g1|] eqn:E1;
    cbn [rbind]; [|done].
  assert (B1 : built g1).
  { unfold add_stem in E1.
    eapply (for_each_setitem_preserves built (value stem)); [|exact B0|exact E1].
    intros a c. apply built_set. simpl. lia. }
  destruct (crown_type_to_function (crown_type cfg)) as [fill|] eqn:Hfill;
    cbn [rbind of_option]; [|done].
  destruct (fill g1 cfg) as [g2|] eqn:E2; cbn [rbind]; [|done].
  intros [= <-]. simpl.
  assert (Hset : ∀ a c, built a → built (set a c (value crown))).
  { intros a c. apply built_set. simpl. lia. }
  unfold crown_type_to_function in Hfill.
  repeat match type of Hfill with
         | (if ?b then _ else _) = _ => destruct b
         end; simplify_eq.
  - unfold add_ellipsoid_tree in E2. by eapply (np_setitem_preserves built).
  - unfold add_columnar_tree in E2.
    eapply (for_each_setitem_preserves built (value crown));
      [exact Hset | exact B1 | exact E2].
  - unfold add_spreading_tree in E2. by eapply (np_setitem_preserves built).
Qed.

(** [add_tree] keeps a forest of well-formed plain trees one: the grid of
    the tree it appends has as many elements as its shape says and holds
    only Empty, Stem and Crown, never the collision marker. *)
Theorem add_tree_keeps_forest_plain (self : VoxelGrid) (pos : Q * Q * Q)
    (identifier : Z) (cfg : tree_configuration) :
  forallb plain_tree (trees self) = true →
  forallb plain_tree (trees (add_tree self pos identifier cfg).1) = true.
Proof.
  intros Hself. unfold add_tree.
  destruct (build_tree pos identifier cfg) as [t|] eqn:Ht; cbn [fst trees]; [|done].
  rewrite forallb_app, Hself. simpl. rewrite andb_true_r.
  apply build_tree_built in Ht as [Hwf Hp].
  unfold plain_tree. by rewrite (wf_well_formed _ Hwf), Hp.
Qed.

Lemma add_tree_keeps_forest_plain_witness :
  forallb plain_tree
    (trees (add_tree (MkVoxelGrid true [Tree (0, 0, 0) 0 crown_row])
              (3, 0, 0)%Q 1 small_spreading).1) = true.
Proof.
  apply (add_tree_keeps_forest_plain (MkVoxelGrid true [Tree (0, 0, 0) 0 crown_row])).
  reflexivity.
Defined.

(** ** Crowns too thin to exist *)

Lemma py_int_small q : (- (1) < q)%Q → (q < 1)%Q → py_int q = 0.
Proof.
  destruct q as [n d]. unfold Qlt, py_int. simpl. intros Hlo Hhi.
  destruct (Z.le_gt_cases 0 n).
  - apply Z.quot_small. lia.
  - rewrite <- (Z.opp_involutive n), Z.quot_opp_l by lia.
    rewrite Z.quot_small; lia.
Qed.

Lemma ellipsoid_mask_degenerate hw hh c :
  (hw = 0 ∧ c.1.1 = 0) ∨ (hh = 0 ∧ c.2 = 0) → ellipsoid_mask hw hh c = false.
Proof.
  unfold ellipsoid_mask, ellipsoid_sum.
  destruct c as [[i j] k]. simpl. intros [[-> ->]|[-> ->]].
  - change (true_divide 0 0) with NaN. simpl. done.
  - change (true_divide 0 0) with NaN.
    set (x := float_add (float_square (true_divide i hw))
                        (float_square (true_divide j hw))).
    by destruct x.
Qed.

Lemma filter_nil_all {A} (P : A → Prop) `{∀ x, Decision (P x)} (l : list A) :
  (∀ x, x ∈ l → ¬ P x) → filter P l = [].
Proof.
  induction l as [|x l IH]; intros Hl; [done|].
  rewrite filter_cons, decide_False by (apply Hl; left).
  apply IH. intros y Hy. apply Hl. by right.
Qed.

(** The ellipsoid and the spreading crown are empty when the crown is
    less than one unit wide or less than one unit high: the half width or
    half height in cells is 0, the mask divides 0 by 0, and a comparison
    with not-a-number is false.  Both fills return the grid as it was,
    whatever its shape. *)
Theorem thin_crown_is_empty (tree_grid : ndarray Z) (cfg : tree_configuration) :
  ((- (1) < crown_width cfg)%Q ∧ (crown_width cfg < 1)%Q) ∨
  ((- (1) < crown_height cfg)%Q ∧ (crown_height cfg < 1)%Q) →
  add_ellipsoid_tree tree_grid cfg = Ok tree_grid ∧
  add_spreading_tree tree_grid cfg = Ok tree_grid.
Proof.
  intros Hthin.
  assert (Hz : half_width cfg = 0 ∨ half_height cfg = 0).
  { unfold half_width, half_height. rewrite !half_div_cube_size.
    destruct Hthin as [[? ?]|[? ?]]; [left | right]; by apply py_int_small. }
  assert (Hmask : ∀ c,
    c ∈ meshgrid3
          (np_arange (- half_width cfg) (half_width cfg + 1))
          (np_arange (- half_width cfg) (half_width cfg + 1))
          (np_arange (- half_height cfg) (half_height cfg + 1)) →
    ellipsoid_mask (half_width cfg) (half_height cfg) c = false).
  { intros c Hc. rewrite elem_of_meshgrid3, !elem_of_np_arange in Hc.
    apply ellipsoid_mask_degenerate. destruct Hz as [Hz|Hz]; [left | right]; lia. }
  unfold add_ellipsoid_tree, add_spreading_tree.
  fold (half_width cfg). fold (half_height cfg).
  rewrite !filter_nil_all; [done| |].
  - intros c Hc. rewrite spreading_mask_spec, (Hmask c Hc). done.
  - intros c Hc. by rewrite (Hmask c Hc).
Qed.

Definition sapling : tree_configuration :=
  TreeConfiguration 2 (1 # 2) (3 # 4) 3 0 "ellipsoid".

Lemma thin_crown_is_empty_witness :
  add_ellipsoid_tree (np_zeros (grid_shape sapling)) sapling
  = Ok (np_zeros (grid_shape sapling)) ∧
  add_spreading_tree (np_zeros (grid_shape sapling)) sapling
  = Ok (np_zeros (grid_shape sapling)).
Proof.
  apply (thin_crown_is_empty (np_zeros (grid_shape sapling)) sapling).
  left. split; reflexivity.
Defined.

(** ** What collision resolution conserves

    Beside the pairing invariant the resolver keeps track of every cell:
    a cell outside the overlap keeps the value it had, and a cell of the
    overlap is marked in both grids or Crown in one grid and Empty in the
    other. *)

Record tracked (f : cell → cell) (oa ob ga gb : ndarray Z) : Prop := {
  t_frame_a : ∀ c, ¬ (holds oa c crown ∧ holds ob (f c) crown) →
                   get ga c = get oa c;
  t_frame_b : ∀ c, ¬ (holds oa c crown ∧ holds ob (f c) crown) →
                   get gb (f c) = get ob (f c);
  t_award : ∀ c, holds oa c crown → holds ob (f c) crown →
    (holds ga c collision ∧ holds gb (f c) collision) ∨
    (holds ga c crown ∧ holds gb (f c) no_tree) ∨
    (holds ga c no_tree ∧ holds gb (f c) crown)
}.

Lemma tracked_sym f finv oa ob ga gb :
  (∀ c, finv (f c) = c) → (∀ c, f (finv c) = c) →
  tracked f oa ob ga gb → tracked finv ob oa gb ga.
Proof.
  intros Hl Hr []. split.
  - intros c Hc. rewrite <- (Hr c). apply t_frame_b0. rewrite Hr. tauto.
  - intros c Hc. apply t_frame_a0. rewrite Hr. tauto.
  - intros c Hb Ha. destruct (t_award0 (finv c)) as [H|[H|H]];
      [done | by rewrite Hr | ..]; rewrite Hr in H; tauto.
Qed.

Lemma marked_in_overlap f finv oa ob ga gb c :
  paired f finv oa ob ga gb → holds ga c collision →
  holds oa c crown ∧ holds ob (f c) crown.
Proof.
  intros [] Hc. split.
  - apply p_sub_a0. by right.
  - apply p_sub_b0. right. by apply p_mark_ab0.
Qed.

Lemma tracked_award f finv oa ob ga gb (won : list cell) :
  paired f finv oa ob ga gb → tracked f oa ob ga gb →
  (∀ c, c ∈ won → holds ga c collision) →
  tracked f oa ob
    (set_cells ga won (value crown))
    (set_cells gb (f <$> won) (value no_tree)).
Proof.
  intros Hp [] Hwon.
  destruct (paired_award f finv oa ob ga gb won Hp Hwon) as (Ba & Bb & _).
  assert (Hover : ∀ c, c ∈ won → holds oa c crown ∧ holds ob (f c) crown).
  { intros c Hc. eapply marked_in_overlap; [exact Hp | by apply Hwon]. }
  destruct Hp.
  assert (Hmem : ∀ c, f c ∈ f <$> won ↔ c ∈ won).
  { intros c. by rewrite (elem_of_fmap_bij f finv), p_inv_l0. }
  split.
  - intros c Hc. rewrite get_set_cells by done.
    rewrite decide_False by (intros Hin; by apply Hc, Hover). by apply t_frame_a0.
  - intros c Hc. rewrite get_set_cells by done.
    rewrite decide_False by (rewrite Hmem; intros Hin; by apply Hc, Hover).
    by apply t_frame_b0.
  - intros c Ha Hb. unfold holds. rewrite !get_set_cells by done.
    destruct (decide (c ∈ won)) as [Hc|Hc].
    + rewrite decide_True by (by apply Hmem). right. by left.
    + rewrite decide_False by (by rewrite Hmem). by apply t_award0.
Qed.

Lemma tracked_fallback f finv oa ob ga gb keep :
  paired f finv oa ob ga gb → tracked f oa ob ga gb →
  tracked f oa ob (fallback_a ga keep) (fallback_b f ga gb keep).
Proof.
  intros Hp [].
  pose proof (marked_in_overlap f finv oa ob ga gb) as Hover.
  pose proof (fallback_awards f finv ga gb keep) as Haward.
  destruct Hp.
  destruct (fallback_gets f finv ga gb keep p_wf_a0 p_wf_b0 p_inv_l0 p_inv_r0
              p_mark_ab0) as (Hcl & Hfa & Hmem & Ga & Gb).
  set (marked := argwhere_eq ga (value collision)) in *.
  set (closer := filter (λ c, keep c = true) marked) in *.
  set (farther := filter (λ c, negb (keep c) = true) marked) in *.
  assert (Hfree : ∀ c, ¬ holds ga c collision →
            get (fallback_a ga keep) c = get ga c ∧
            get (fallback_b f ga gb keep) (f c) = get gb (f c)).
  { intros c Hc. rewrite Ga, Gb.
    rewrite !decide_False; [done|..]; rewrite ?Hmem, ?Hcl, ?Hfa; tauto. }
  split.
  - intros c Hc. destruct (Hfree c) as [-> _]; [|by apply t_frame_a0].
    intros Hm. by apply Hc, (Hover c ltac:(by split)).
  - intros c Hc. destruct (Hfree c) as [_ ->]; [|by apply t_frame_b0].
    intros Hm. by apply Hc, (Hover c ltac:(by split)).
  - intros c Ha Hb. destruct (t_award0 c Ha Hb) as [[Hm _]|Hdone].
    + specialize (Haward c p_wf_a0 p_wf_b0 p_inv_l0 p_inv_r0 p_mark_ab0 Hm).
      destruct (keep c); [right; by left | right; by right].
    + destruct (Hfree c) as [Ea Eb].
      { intros Hm. destruct Hdone as [[H _]|[H _]];
          by pose proof (holds_unique _ _ _ _ Hm H). }
      unfold holds. rewrite Ea, Eb. by right.
Qed.

Lemma tracked_mark f finv ga gb :
  wf_array ga → wf_array gb →
  (∀ c, finv (f c) = c) → (∀ c, f (finv c) = c) →
  tracked f ga gb
    (set_cells ga (finv <$> colliding f ga gb) (value collision))
    (set_cells gb (colliding f ga gb) (value collision)).
Proof.
  intros Ha Hb Hl Hr.
  set (K := colliding f ga gb).
  assert (HK : ∀ c, c ∈ K ↔ holds ga (finv c) crown ∧ holds gb c crown).
  { intros c. by apply elem_of_colliding. }
  assert (HK1 : ∀ c, c ∈ finv <$> K ↔ holds ga c crown ∧ holds gb (f c) crown).
  { intros c. rewrite (elem_of_fmap_bij finv f) by done. by rewrite HK, Hl. }
  assert (HK2 : ∀ c, f c ∈ K ↔ holds ga c crown ∧ holds gb (f c) crown).
  { intros c. by rewrite HK, Hl. }
  assert (Ba : all_in_bounds (shape ga) (finv <$> K)).
  { apply list.Forall_forall. intros c Hc. apply HK1 in Hc as [Hc _].
    by eapply holds_in_bounds. }
  assert (Bb : all_in_bounds (shape gb) K).
  { apply list.Forall_forall. intros c Hc. apply HK in Hc as [_ Hc].
    by eapply holds_in_bounds. }
  split.
  - intros c Hc. rewrite get_set_cells by done.
    by rewrite decide_False by (by rewrite HK1).
  - intros c Hc. rewrite get_set_cells by done.
    by rewrite decide_False by (by rewrite HK2).
  - intros c H1 H2. left. unfold holds. rewrite !get_set_cells by done.
    rewrite !decide_True; [done|..]; rewrite ?HK1, ?HK2; done.
Qed.

Lemma tracked_refl f g1 g2 :
  colliding f g1 g2 = [] → wf_array g1 → wf_array g2 →
  ∀ finv, (∀ c, finv (f c) = c) → (∀ c, f (finv c) = c) →
  tracked f g1 g2 g1 g2.
Proof.
  intros HK W1 W2 finv Hl Hr. split; [done..|].
  intros c H1 H2.
  assert (Hc : f c ∈ colliding f g1 g2).
  { apply (elem_of_colliding f finv); [done..|]. by rewrite Hl. }
  rewrite HK in Hc. by apply elem_of_nil in Hc.
Qed.

Lemma award_store_tracked ra rb f finv oa ob mask s :
  ra ≠ rb →
  paired f finv oa ob (grid_of ra s) (grid_of rb s) →
  tracked f oa ob (grid_of ra s) (grid_of rb s) →
  all_in_bounds (shape (grid_of ra s)) mask →
  let won := filter (λ c, (item 0 (grid_of ra s) c =? value collision) = true) mask in
  let s1 := record_access (shape (grid_of ra s)) mask s in
  let s2 := with_grid ra (set_cells (grid_of ra s) won (value crown))
              (record_access (shape (grid_of ra s)) won s1) in
  let s3 := with_grid rb (set_cells (grid_of rb s) (f <$> won) (value no_tree))
              (record_access (shape (grid_of rb s)) (f <$> won) s2) in
  tracked f oa ob (grid_of ra s3) (grid_of rb s3).
Proof.
  intros Hne Hp Htr Hmask won s1 s2 s3.
  assert (Hwon : ∀ c, c ∈ won → holds (grid_of ra s) c collision).
  { intros c Hc. apply list_elem_of_filter in Hc as [Hv Hc].
    apply item_eqb in Hv; [done | by destruct Hp |].
    by eapply list.Forall_forall in Hmask. }
  assert (Ea : grid_of ra s3 = set_cells (grid_of ra s) won (value crown)).
  { unfold s3, s2.
    by rewrite grid_of_with_grid_ne, grid_of_record_access, grid_of_with_grid. }
  assert (Eb : grid_of rb s3 = set_cells (grid_of rb s) (f <$> won) (value no_tree)).
  { unfold s3. by rewrite grid_of_with_grid. }
  rewrite Ea, Eb. by eapply tracked_award.
Qed.

Lemma wp_award_tracked ra rb f finv oa ob cands (k : M unit) Q s :
  ra ≠ rb →
  paired f finv oa ob (grid_of ra s) (grid_of rb s) →
  tracked f oa ob (grid_of ra s) (grid_of rb s) → trace_ok s →
  (∀ s', paired f finv oa ob (grid_of ra s') (grid_of rb s') →
         tracked f oa ob (grid_of ra s') (grid_of rb s') → trace_ok s' →
         wp k Q s') →
  wp (mask <- trim_mask rb cands ;;
      mask <- trim_mask ra (finv <$> mask) ;;
      vals <- getitem ra mask ;;
      setitem ra (select mask ((λ v, v =? value collision) <$> vals))
        (value crown) ;;;
      setitem rb (f <$> select mask ((λ v, v =? value collision) <$> vals))
        (value no_tree) ;;;
      k) Q s.
Proof.
  intros Hne Hp Htr Ht Hk.
  apply wp_bind, wp_trim_mask. cbv beta.
  apply wp_bind, wp_trim_mask. cbv beta.
  set (mask := filter (λ c, in_bounds (shape (grid_of ra s)) c = true) _).
  assert (Hmask : all_in_bounds (shape (grid_of ra s)) mask).
  { by apply all_in_bounds_filter. }
  destruct (award_store ra rb f finv oa ob mask s Hne Hp Ht Hmask)
    as (Ba & Bb & E2 & Hp' & Ht' & Hd).
  pose proof (award_store_tracked ra rb f finv oa ob mask s Hne Hp Htr Hmask)
    as Htr'.
  apply wp_bind, wp_getitem; [by destruct Hp | done |]. cbv beta.
  rewrite <- list_fmap_compose, select_flags.
  apply wp_bind, wp_setitem; [by rewrite grid_of_record_access|].
  apply wp_bind, wp_setitem.
  - destruct ra, rb; done.
  - apply Hk; destruct ra, rb; done.
Qed.

Lemma wp_award_tracked_last ra rb f finv oa ob cands Q s :
  ra ≠ rb →
  paired f finv oa ob (grid_of ra s) (grid_of rb s) →
  tracked f oa ob (grid_of ra s) (grid_of rb s) → trace_ok s →
  (∀ s', paired f finv oa ob (grid_of ra s') (grid_of rb s') →
         tracked f oa ob (grid_of ra s') (grid_of rb s') → trace_ok s' →
         Q tt s') →
  wp (mask <- trim_mask rb cands ;;
      mask <- trim_mask ra (finv <$> mask) ;;
      vals <- getitem ra mask ;;
      setitem ra (select mask ((λ v, v =? value collision) <$> vals))
        (value crown) ;;;
      setitem rb (f <$> select mask ((λ v, v =? value collision) <$> vals))
        (value no_tree)) Q s.
Proof.
  intros Hne Hp Htr Ht Hk.
  apply wp_bind, wp_trim_mask. cbv beta.
  apply wp_bind, wp_trim_mask. cbv beta.
  set (mask := filter (λ c, in_bounds (shape (grid_of ra s)) c = true) _).
  assert (Hmask : all_in_bounds (shape (grid_of ra s)) mask).
  { by apply all_in_bounds_filter. }
  destruct (award_store ra rb f finv oa ob mask s Hne Hp Ht Hmask)
    as (Ba & Bb & E2 & Hp' & Ht' & Hd).
  pose proof (award_store_tracked ra rb f finv oa ob mask s Hne Hp Htr Hmask)
    as Htr'.
  apply wp_bind, wp_getitem; [by destruct Hp | done |]. cbv beta.
  rewrite <- list_fmap_compose, select_flags.
  apply wp_bind, wp_setitem; [by rewrite grid_of_record_access|].
  apply wp_setitem.
  - destruct ra, rb; done.
  - apply Hk; destruct ra, rb; done.
Qed.

(** The pairing invariant together with the record of every cell. *)
Definition conserving (t : cell) (o1 o2 : ndarray Z) (s : store) : Prop :=
  resolving t o1 o2 s ∧
  tracked (λ c, cell_add c t) o1 o2 (tree1_grid s) (tree2_grid s).

Section ConservationFacts.
Variable random_source : nat → nat.
Variable distance_transform_edt : ndarray bool → ndarray Q.
Hypothesis edt_shape : ∀ m, shape (distance_transform_edt m) = shape m.
Hypothesis edt_wf : ∀ m, wf_array m → wf_array (distance_transform_edt m).

Lemma wp_growth_round_conserving t o1 o2 e1 e2 s :
  conserving t o1 o2 s → e1 ≠ [] → e2 ≠ [] →
  wp (growth_round random_source e1 e2 t) (λ _ s', conserving t o1 o2 s') s.
Proof.
  intros [[Hp Ht] Htr] H1 H2. unfold growth_round. cbv zeta.
  apply wp_bind, wp_randint; [lia|]. intros r Hr. cbv beta.
  apply wp_bind, wp_choice; [done|]. intros x1 Hx1. cbv beta.
  apply (wp_award_tracked Tree1 Tree2 (λ c, cell_add c t) (λ c, cell_sub c t)
           o1 o2); [done | exact Hp | exact Htr | exact Ht |].
  intros s1 Hp1 Htr1 Ht1.
  apply wp_bind, wp_choice; [done|]. intros x2 Hx2. cbv beta.
  apply (wp_award_tracked_last Tree2 Tree1 (λ c, cell_sub c t) (λ c, cell_add c t)
           o2 o1); [done | by apply paired_sym | | exact Ht1 |].
  - apply (tracked_sym (λ c, cell_add c t) (λ c, cell_sub c t)); [| |exact Htr1].
    + intros c. apply cell_add_sub.
    + intros c. apply cell_sub_add.
  - intros s2 Hp2 Htr2 Ht2. split; [split; [by apply paired_sym | done]|].
    apply (tracked_sym (λ c, cell_sub c t) (λ c, cell_add c t)); [| |exact Htr2].
    + intros c. apply cell_sub_add.
    + intros c. apply cell_add_sub.
Qed.

Lemma wp_assign_rest_conserving t o1 o2 s :
  conserving t o1 o2 s →
  wp (assign_rest_of_collision_cells distance_transform_edt t)
     (λ _ s', resolved t o1 o2 s' ∧
              tracked (λ c, cell_add c t) o1 o2 (tree1_grid s') (tree2_grid s')) s.
Proof.
  intros [[Hp Ht] Htr]. apply (wp_assign_rest distance_transform_edt edt_shape edt_wf);
    [by destruct Hp | by destruct Hp | done | by destruct Hp |].
  intros s' E1 E2 Ht'.
  destruct (paired_fallback _ _ _ _ _ _
              (tree1_closer distance_transform_edt t (tree1_grid s) (tree2_grid s)) Hp)
    as (Hp' & N1 & N2).
  pose proof (tracked_fallback _ _ _ _ _ _
                (tree1_closer distance_transform_edt t (tree1_grid s) (tree2_grid s))
                Hp Htr) as Htr'.
  unfold resolved, resolving, unmarked. by rewrite E1, E2.
Qed.

Lemma wp_assign_collision_cells_conserving t o1 o2 e1 e2 s :
  conserving t o1 o2 s →
  wp (assign_collision_cells random_source distance_transform_edt e1 e2 t)
     (λ _ s', resolved t o1 o2 s' ∧
              tracked (λ c, cell_add c t) o1 o2 (tree1_grid s') (tree2_grid s')) s.
Proof.
  intros Hr. unfold assign_collision_cells. cbv zeta.
  destruct (decide (length e1 = 0%nat ∨ length e2 = 0%nat)) as [Hz|Hnz].
  - by apply wp_assign_rest_conserving.
  - apply wp_bind.
    eapply wp_mono;
      [|apply (wp_for_range _ _ (conserving t o1 o2)); [|exact Hr]].
    + intros u s' Hs'. by apply wp_assign_rest_conserving.
    + intros s' Hs'. apply wp_growth_round_conserving; [done | |].
      * intros ->. apply Hnz. by left.
      * intros ->. apply Hnz. by right.
Qed.

Lemma wp_resolve_collision_conserving tree1 tree2 s :
  wf_array (tree1_grid s) → wf_array (tree2_grid s) →
  unmarked (tree1_grid s) → unmarked (tree2_grid s) → trace_ok s →
  wp (resolve_collision random_source distance_transform_edt tree1 tree2)
     (λ _ s',
        resolved (cell_sub tree1 tree2) (tree1_grid s) (tree2_grid s) s' ∧
        tracked (λ c, cell_add c (cell_sub tree1 tree2)) (tree1_grid s) (tree2_grid s)
          (tree1_grid s') (tree2_grid s'))
     s.
Proof.
  intros W1 W2 N1 N2 Ht. unfold resolve_collision. cbv zeta.
  set (t := cell_sub tree1 tree2).
  destruct (paired_mark (λ c, cell_add c t) (λ c, cell_sub c t)
              (tree1_grid s) (tree2_grid s) W1 W2
              (λ c, cell_add_sub c t) (λ c, cell_sub_add c t) N1 N2)
    as (_ & _ & Hp).
  pose proof (tracked_mark (λ c, cell_add c t) (λ c, cell_sub c t)
                (tree1_grid s) (tree2_grid s) W1 W2
                (λ c, cell_add_sub c t) (λ c, cell_sub_add c t)) as Htr.
  apply wp_bind, wp_mark_collision_cells; try done.
  - intros HK s' E1 E2 Ht'. apply wp_ret.
    rewrite HK in Hp. unfold resolved, resolving. rewrite E1, E2.
    split; [done|].
    apply (tracked_refl _ _ _ HK W1 W2 (λ c, cell_sub c t));
      intros c; [apply cell_add_sub | apply cell_sub_add].
  - intros HK s' E1 E2 Ht'. apply wp_assign_collision_cells_conserving.
    unfold conserving, resolving. by rewrite E1, E2.
Qed.

End ConservationFacts.

(** Resolution of two clean grids returns, and records every cell. *)
Lemma resolve_collision_conserves_run rand edt tree1 tree2 g1 g2 n :
  shape_preserving edt →
  wf_array g1 → wf_array g2 → no_marker g1 = true → no_marker g2 = true →
  ∃ s', resolve_collision rand edt tree1 tree2 (initial_store g1 g2 n)
          = Ok (tt, s') ∧
        resolved (cell_sub tree1 tree2) g1 g2 s' ∧
        tracked (λ c, cell_add c (cell_sub tree1 tree2)) g1 g2
          (tree1_grid s') (tree2_grid s').
Proof.
  intros [E1 E2] W1 W2 N1 N2.
  destruct (wp_resolve_collision_conserving rand edt E1 E2 tree1 tree2
              (initial_store g1 g2 n) W1 W2
              (no_marker_unmarked _ N1) (no_marker_unmarked _ N2))
    as ([] & s' & Hrun & Hres); [by apply Forall_nil|].
  by exists s'.
Qed.

(** ** Every contested cell goes to one tree, every other cell stays *)

(** Each cell of the overlap, Crown in both grids before the call, is
    afterwards Crown in exactly one of the two grids and Empty in the
    other: resolution loses no cell of the overlap and duplicates none. *)
Theorem resolve_collision_awards_overlap
    (rand : nat → nat) (edt : ndarray bool → ndarray Q)
    (tree1 tree2 : cell) (g1 g2 : ndarray Z) (n : nat) :
  shape_preserving edt →
  well_formed g1 = true → well_formed g2 = true →
  no_marker g1 = true → no_marker g2 = true →
  ∃ s', resolve_collision rand edt tree1 tree2 (initial_store g1 g2 n)
          = Ok (tt, s') ∧
    ∀ c, holds g1 c crown →
         holds g2 (cell_add c (cell_sub tree1 tree2)) crown →
         (holds (tree1_grid s') c crown ∧
          holds (tree2_grid s') (cell_add c (cell_sub tree1 tree2)) no_tree) ∨
         (holds (tree1_grid s') c no_tree ∧
          holds (tree2_grid s') (cell_add c (cell_sub tree1 tree2)) crown).
Proof.
  intros He W1 W2 N1 N2.
  destruct (resolve_collision_conserves_run rand edt tree1 tree2 g1 g2 n He
              (well_formed_wf _ W1) (well_formed_wf _ W2) N1 N2)
    as (s' & Hrun & (_ & U1 & _) & Htr).
  exists s'. split; [done|]. intros c H1 H2.
  destruct (t_award _ _ _ _ _ Htr c H1 H2) as [[Hm _]|Hdone]; [|done].
  by apply U1 in Hm.
Qed.

Lemma resolve_collision_awards_overlap_witness :
  ∃ s', resolve_collision (λ n, n) plane_distance (1, 0, 0) (0, 0, 0)
          (initial_store crown_row crown_row 0) = Ok (tt, s') ∧
    ∀ c, holds crown_row c crown →
         holds crown_row (cell_add c (cell_sub (1, 0, 0) (0, 0, 0))) crown →
         (holds (tree1_grid s') c crown ∧
          holds (tree2_grid s') (cell_add c (cell_sub (1, 0, 0) (0, 0, 0))) no_tree) ∨
         (holds (tree1_grid s') c no_tree ∧
          holds (tree2_grid s') (cell_add c (cell_sub (1, 0, 0) (0, 0, 0))) crown).
Proof.
  apply (resolve_collision_awards_overlap (λ n, n) plane_distance
           (1, 0, 0) (0, 0, 0) crown_row crown_row 0);
    [exact plane_distance_shape_preserving | reflexivity ..].
Defined.

(** A cell outside the overlap keeps its value in its grid: Stem and Empty
    cells never change, and a Crown cell that meets no Crown cell of the
    other tree stays Crown.  The shapes stay as well. *)
Theorem resolve_collision_keeps_other_cells
    (rand : nat → nat) (edt : ndarray bool → ndarray Q)
    (tree1 tree2 : cell) (g1 g2 : ndarray Z) (n : nat) :
  shape_preserving edt →
  well_formed g1 = true → well_formed g2 = true →
  no_marker g1 = true → no_marker g2 = true →
  ∃ s', resolve_collision rand edt tree1 tree2 (initial_store g1 g2 n)
          = Ok (tt, s') ∧
    shape (tree1_grid s') = shape g1 ∧ shape (tree2_grid s') = shape g2 ∧
    (∀ c, ¬ (holds g1 c crown ∧
             holds g2 (cell_add c (cell_sub tree1 tree2)) crown) →
          get (tree1_grid s') c = get g1 c) ∧
    (∀ c, ¬ (holds g1 (cell_sub c (cell_sub tree1 tree2)) crown ∧
             holds g2 c crown) →
          get (tree2_grid s') c = get g2 c).
Proof.
  intros He W1 W2 N1 N2.
  destruct (resolve_collision_conserves_run rand edt tree1 tree2 g1 g2 n He
              (well_formed_wf _ W1) (well_formed_wf _ W2) N1 N2)
    as (s' & Hrun & ([Hp _] & _) & Htr).
  exists s'. split; [done|].
  split; [by destruct Hp|]. split; [by destruct Hp|]. split.
  - apply (t_frame_a _ _ _ _ _ Htr).
  - intros c Hc.
    rewrite <- (cell_sub_add c (cell_sub tree1 tree2)).
    apply (t_frame_b _ _ _ _ _ Htr). by rewrite cell_sub_add.
Qed.

(** A Stem cell beside two Crown cells. *)
Definition stem_and_crown : ndarray Z := NDArray (3, 1, 1) [1; 2; 2].

Lemma resolve_collision_keeps_other_cells_witness :
  ∃ s', resolve_collision (λ n, n) plane_distance (1, 0, 0) (0, 0, 0)
          (initial_store stem_and_crown crown_row 0) = Ok (tt, s') ∧
    shape (tree1_grid s') = shape stem_and_crown ∧
    shape (tree2_grid s') = shape crown_row ∧
    (∀ c, ¬ (holds stem_and_crown c crown ∧
             holds crown_row (cell_add c (cell_sub (1, 0, 0) (0, 0, 0))) crown) →
          get (tree1_grid s') c = get stem_and_crown c) ∧
    (∀ c, ¬ (holds stem_and_crown (cell_sub c (cell_sub (1, 0, 0) (0, 0, 0))) crown ∧
             holds crown_row c crown) →
          get (tree2_grid s') c = get crown_row c).
Proof.
  apply (resolve_collision_keeps_other_cells (λ n, n) plane_distance
           (1, 0, 0) (0, 0, 0) stem_and_crown crown_row 0);
    [exact plane_distance_shape_preserving | reflexivity ..].
Defined.

(** ** The evaluation pass over a forest *)

(** No Crown cell of [t1] lands, after the translation between the two
    anchors, on a Crown cell of [t2]. *)
Definition separated (t1 t2 : tree) : Prop :=
  ∀ c, holds (grid t1) c crown →
       ¬ holds (grid t2) (cell_add c (cell_sub (position t1) (position t2))) crown.

(** [t'] is [t] with some Crown cells emptied and nothing else changed. *)
Definition pruned (t t' : tree) : Prop :=
  position t' = position t ∧
  configuration_identifier t' = configuration_identifier t ∧
  shape (grid t') = shape (grid t) ∧
  ∀ c, get (grid t') c = get (grid t) c ∨
       (holds (grid t) c crown ∧ holds (grid t') c no_tree).

Lemma pruned_refl t : pruned t t.
Proof. repeat split. intros c. by left. Qed.

Lemma pruned_trans t1 t2 t3 : pruned t1 t2 → pruned t2 t3 → pruned t1 t3.
Proof.
  intros (P1 & I1 & S1 & C1) (P2 & I2 & S2 & C2).
  split; [congruence|]. split; [congruence|]. split; [congruence|].
  intros c. destruct (C2 c) as [E2|[H2 H3]].
  - rewrite E2. unfold holds in *. rewrite E2. apply C1.
  - right. split; [|done]. destruct (C1 c) as [E1|[_ H1]].
    + unfold holds in *. by rewrite <- E1.
    + by pose proof (holds_unique _ _ _ _ H1 H2).
Qed.

Lemma pruned_crown t t' c :
  pruned t t' → holds (grid t') c crown → holds (grid t) c crown.
Proof.
  intros (_ & _ & _ & C) Hc. destruct (C c) as [E|[_ H]].
  - unfold holds in *. by rewrite <- E.
  - by pose proof (holds_unique _ _ _ _ Hc H).
Qed.

Lemma separated_pruned t1 t2 t1' t2' :
  separated t1 t2 → pruned t1 t1' → pruned t2 t2' → separated t1' t2'.
Proof.
  intros Hs H1 H2 c Hc Hc'.
  pose proof H1 as (P1 & _). pose proof H2 as (P2 & _).
  rewrite P1, P2 in Hc'.
  apply (Hs c); by eapply pruned_crown.
Qed.

(** What one resolution leaves of the two grids, as trees. *)
Lemma resolved_pruned rand edt (ti tj : tree) n :
  shape_preserving edt → clean_tree ti = true → clean_tree tj = true →
  ∃ s', resolve_collision rand edt (position ti) (position tj)
          (Store (grid ti) (grid tj) [] n) = Ok (tt, s') ∧
    pruned ti (with_tree_grid ti (tree1_grid s')) ∧
    pruned tj (with_tree_grid tj (tree2_grid s')) ∧
    clean_tree (with_tree_grid ti (tree1_grid s')) = true ∧
    clean_tree (with_tree_grid tj (tree2_grid s')) = true ∧
    separated (with_tree_grid ti (tree1_grid s')) (with_tree_grid tj (tree2_grid s')).
Proof.
  intros He [Wi Ni]%andb_true_iff [Wj Nj]%andb_true_iff.
  destruct (resolve_collision_conserves_run rand edt (position ti) (position tj)
              (grid ti) (grid tj) n He
              (well_formed_wf _ Wi) (well_formed_wf _ Wj) Ni Nj)
    as (s' & Hrun & ([Hp _] & U1 & U2) & Htr).
  exists s'. split; [done|].
  set (t := cell_sub (position ti) (position tj)) in *.
  assert (Hcase : ∀ c,
    (get (tree1_grid s') c = get (grid ti) c ∨
     (holds (grid ti) c crown ∧ holds (tree1_grid s') c no_tree)) ∧
    (get (tree2_grid s') (cell_add c t) = get (grid tj) (cell_add c t) ∨
     (holds (grid tj) (cell_add c t) crown ∧
      holds (tree2_grid s') (cell_add c t) no_tree))).
  { intros c.
    destruct (decide (get (grid ti) c = Some (value crown) ∧
                      get (grid tj) (cell_add c t) = Some (value crown)))
      as [[H1 H2]|Hno].
    - destruct (t_award _ _ _ _ _ Htr c H1 H2) as [[Hm _]|[[Ha Hb]|[Ha Hb]]].
      + by apply U1 in Hm.
      + split; [left | right; done]. unfold holds in *. congruence.
      + split; [right; done | left]. unfold holds in *. congruence.
    - split; left.
      + by apply (t_frame_a _ _ _ _ _ Htr).
      + by apply (t_frame_b _ _ _ _ _ Htr). }
  split; [|split; [|split; [|split]]].
  - repeat split; simpl; [by destruct Hp|]. intros c. apply Hcase.
  - repeat split; simpl; [by destruct Hp|]. intros c.
    rewrite <- (cell_sub_add c t). apply Hcase.
  - unfold clean_tree. simpl. apply andb_true_iff. split.
    + apply wf_well_formed. by destruct Hp.
    + apply unmarked_no_marker; [by destruct Hp | done].
  - unfold clean_tree. simpl. apply andb_true_iff. split.
    + apply wf_well_formed. by destruct Hp.
    + apply unmarked_no_marker; [by destruct Hp | done].
  - intros c. simpl. apply (p_disjoint _ _ _ _ _ _ Hp).
Qed.

Lemma Forall2_pruned_insert trees i t t' :
  trees !! i = Some t → pruned t t' →
  Forall2 pruned trees (<[i:=t']> trees).
Proof.
  intros Hi Hp. rewrite <- (list_insert_id trees i t Hi) at 1.
  apply Forall2_insert; [|done].
  apply Forall_Forall2_diag, list.Forall_forall. intros x _. apply pruned_refl.
Qed.

Lemma Forall2_pruned_trans l1 l2 l3 :
  Forall2 pruned l1 l2 → Forall2 pruned l2 l3 → Forall2 pruned l1 l3.
Proof.
  intros H12. revert l3. induction H12 as [|x y l1 l2 Hxy _ IH]; intros l3 H23.
  - by apply Forall2_nil_inv_l in H23 as ->.
  - apply Forall2_cons_inv_l in H23 as (z & l3' & Hyz & H23 & ->).
    constructor; [by eapply pruned_trans | by apply IH].
Qed.

Lemma resolve_trees_spec rand edt trees (p : nat * nat) n :
  shape_preserving edt →
  forallb clean_tree trees = true → valid_pair (length trees) p = true →
  ∃ trees' n', resolve_trees rand edt trees p n = Ok (trees', n') ∧
    Forall2 pruned trees trees' ∧ forallb clean_tree trees' = true ∧
    (∀ ti tj, trees' !! p.1 = Some ti → trees' !! p.2 = Some tj → separated ti tj) ∧
    (∀ k, k ≠ p.1 → k ≠ p.2 → trees' !! k = trees !! k).
Proof.
  intros He Hc Hp. destruct p as [i j]. unfold valid_pair in Hp. simpl in *.
  apply andb_true_iff in Hp as [Hij%Nat.ltb_lt Hj%Nat.ltb_lt].
  destruct (lookup_lt_is_Some_2 trees i ltac:(lia)) as [ti Hti].
  destruct (lookup_lt_is_Some_2 trees j Hj) as [tj Htj].
  assert (Hall : ∀ t, t ∈ trees → clean_tree t = true).
  { intros t Ht. rewrite forallb_forall in Hc. by apply Hc, list_elem_of_In. }
  destruct (resolved_pruned rand edt ti tj n He)
    as (s' & Hrun & Pi & Pj & Ci & Cj & Hsep).
  { by eapply Hall, list_elem_of_lookup_2. }
  { by eapply Hall, list_elem_of_lookup_2. }
  unfold resolve_trees. simpl. rewrite Hti, Htj. simpl. rewrite Hrun. simpl.
  set (ti' := with_tree_grid ti (tree1_grid s')) in *.
  set (tj' := with_tree_grid tj (tree2_grid s')) in *.
  eexists _, _. split; [done|].
  assert (Hi' : (<[j:=tj']> (<[i:=ti']> trees)) !! i = Some ti').
  { rewrite list_lookup_insert_ne by lia. apply list_lookup_insert_eq.
    apply lookup_lt_Some in Hti. done. }
  assert (Hj' : (<[j:=tj']> (<[i:=ti']> trees)) !! j = Some tj').
  { apply list_lookup_insert_eq. by rewrite length_insert. }
  split; [|split; [|split]].
  - eapply Forall2_pruned_trans; [by eapply (Forall2_pruned_insert trees i)|].
    apply (Forall2_pruned_insert _ j tj); [|done].
    by rewrite list_lookup_insert_ne by lia.
  - apply forallb_forall. intros t Ht. apply list_elem_of_In in Ht.
    apply elem_of_insert_inv in Ht as [->|Ht]; [done|].
    apply elem_of_insert_inv in Ht as [->|Ht]; [done|]. by apply Hall.
  - intros ti0 tj0. rewrite Hi', Hj'. by intros [= <-] [= <-].
  - intros k Hki Hkj. by rewrite !list_lookup_insert_ne by done.
Qed.

(** The pass over the candidate pairs: it returns, it only prunes, and it
    leaves every pair separated. *)
Lemma evaluate_pairs_spec rand edt pairs trees n :
  shape_preserving edt →
  forallb clean_tree trees = true →
  forallb (valid_pair (length trees)) pairs = true →
  ∃ trees' n', evaluate_pairs rand edt pairs trees n = Ok (trees', n') ∧
    Forall2 pruned trees trees' ∧ forallb clean_tree trees' = true ∧
    (∀ p ti tj, p ∈ pairs → trees' !! p.1 = Some ti → trees' !! p.2 = Some tj →
                separated ti tj) ∧
    (∀ k, (∀ p, p ∈ pairs → k ≠ p.1 ∧ k ≠ p.2) → trees' !! k = trees !! k).
Proof.
  intros He. revert trees n. induction pairs as [|p rest IH]; intros trees n Hc Hp.
  - exists trees, n. split; [done|]. split.
    { apply Forall_Forall2_diag, list.Forall_forall. intros x _. apply pruned_refl. }
    split; [done|]. split; [|done]. intros p ti tj Hin. by apply elem_of_nil in Hin.
  - simpl in Hp. apply andb_true_iff in Hp as [Hp Hrest].
    destruct (resolve_trees_spec rand edt trees p n He Hc Hp)
      as (trees1 & n1 & Hrun & Hpr1 & Hc1 & Hsep1 & Hfr1).
    pose proof (list.Forall2_length _ _ _ Hpr1) as Hlen.
    destruct (IH trees1 n1 Hc1) as (trees2 & n2 & Hrun2 & Hpr2 & Hc2 & Hsep2 & Hfr2).
    { by rewrite <- Hlen. }
    exists trees2, n2. simpl. rewrite Hrun. simpl.
    split; [done|]. split; [by eapply Forall2_pruned_trans|]. split; [done|]. split.
    + intros q ti tj [->|Hq]%elem_of_cons Hi Hj; [|by eapply Hsep2].
      destruct (Forall2_lookup_r _ _ _ _ _ Hpr2 Hi) as (ti1 & Hi1 & Pi).
      destruct (Forall2_lookup_r _ _ _ _ _ Hpr2 Hj) as (tj1 & Hj1 & Pj).
      eapply separated_pruned; [by eapply Hsep1 | done | done].
    + intros k Hk. rewrite Hfr2, Hfr1.
      * done.
      * apply (Hk p). left.
      * apply (Hk p). left.
      * intros q Hq. apply Hk. by right.
Qed.

(** ** The candidate pairs of [evaluate_forest] *)

Lemma elem_of_set_add {A} `{EqDecision A} (x y : A) (s : list A) :
  y ∈ set_add x s ↔ y = x ∨ y ∈ s.
Proof.
  unfold set_add. destruct (decide (x ∈ s)) as [Hx|Hx].
  - split; [by right|]. by intros [->|].
  - rewrite elem_of_app, list_elem_of_singleton. tauto.
Qed.

Lemma NoDup_set_add {A} `{EqDecision A} (x : A) (s : list A) :
  NoDup s → NoDup (set_add x s).
Proof.
  intros Hs. unfold set_add. destruct (decide (x ∈ s)) as [Hx|Hx]; [done|].
  apply list.NoDup_app. split; [done|]. split.
  - intros y Hy ->%list_elem_of_singleton. done.
  - apply NoDup_singleton.
Qed.

Lemma add_pairs_spec i cands pairs :
  (∀ p, p ∈ add_pairs i cands pairs ↔
        p ∈ pairs ∨ ∃ j, j ∈ cands ∧ j ≠ i ∧ p = (i `min` j, i `max` j)%nat) ∧
  (NoDup pairs → NoDup (add_pairs i cands pairs)).
Proof.
  revert pairs. unfold add_pairs. induction cands as [|j cands IH]; intros pairs.
  - split; [|done]. intros p. split; [by left|].
    intros [|(j & Hj & _)]; [done|]. by apply elem_of_nil in Hj.
  - simpl. destruct (decide (j = i)) as [->|Hne].
    + destruct (IH pairs) as [Hin Hnd]. split; [|done].
      intros p. rewrite Hin. split.
      * intros [|(j & Hj & Hji & ->)]; [by left|]. right. exists j.
        split; [by right | done].
      * intros [|(j & [->|Hj]%elem_of_cons & Hji & ->)]; [by left | done |].
        right. by exists j.
    + destruct (IH (set_add (i `min` j, i `max` j)%nat pairs)) as [Hin Hnd].
      split; [|intros; by apply Hnd, NoDup_set_add].
      intros p. rewrite Hin, elem_of_set_add. split.
      * intros [[->|]|(k & Hk & Hki & ->)]; [|by left|].
        -- right. exists j. split; [left | done].
        -- right. exists k. split; [by right | done].
      * intros [|(k & [->|Hk]%elem_of_cons & Hki & ->)]; [left; by right|..].
        -- left. by left.
        -- right. by exists k.
Qed.

Section ForestFacts.
Variable query_ball_point : list cell → cell → Q → list nat.

(** Tree [j] is reported near tree [i]. *)
Definition near (all_trees : list tree) (tree_widths : list Q) (max_range : Q)
    (i j : nat) : Prop :=
  ∃ t w, all_trees !! i = Some t ∧ tree_widths !! i = Some w ∧
         j ∈ query_ball_point (position <$> all_trees) (position t) (max_range + w)%Q.

Lemma collect_pairs_spec all_trees tree_widths max_range :
  (∀ p, p ∈ collect_pairs query_ball_point all_trees tree_widths max_range ↔
        ∃ i j, near all_trees tree_widths max_range i j ∧ j ≠ i ∧
               p = (i `min` j, i `max` j)%nat) ∧
  NoDup (collect_pairs query_ball_point all_trees tree_widths max_range).
Proof.
  unfold collect_pairs, near.
  set (points := position <$> all_trees).
  assert (Hz : ∀ i t w, zip all_trees tree_widths !! i = Some (t, w) ↔
                        all_trees !! i = Some t ∧ tree_widths !! i = Some w).
  { intros i t w. rewrite lookup_zip_with_Some. split.
    - intros (x & y & [= -> ->] & ? & ?). done.
    - intros [? ?]. by exists t, w. }
  revert Hz. generalize (zip all_trees tree_widths). intros l Hz.
  assert (Hgen : ∀ l0,
    (∀ p, p ∈ foldl (λ pairs (it : nat * (tree * Q)),
                       add_pairs it.1
                         (query_ball_point points (position it.2.1)
                            (max_range + it.2.2)%Q) pairs)
                [] (imap (λ i tw, (i, tw)) l0) ↔
          ∃ i j t w, l0 !! i = Some (t, w) ∧
                     j ∈ query_ball_point points (position t) (max_range + w)%Q ∧
                     j ≠ i ∧ p = (i `min` j, i `max` j)%nat) ∧
    NoDup (foldl (λ pairs (it : nat * (tree * Q)),
                    add_pairs it.1
                      (query_ball_point points (position it.2.1)
                         (max_range + it.2.2)%Q) pairs)
             [] (imap (λ i tw, (i, tw)) l0))).
  { induction l0 as [|[t w] l0 [IHin IHnd]] using rev_ind.
    - split; [|constructor]. intros p. split; [by intros ?%elem_of_nil|].
      intros (i & j & t & w & Hi & _). done.
    - rewrite imap_app, foldl_app. simpl. rewrite Nat.add_0_r.
      destruct (add_pairs_spec (length l0)
                  (query_ball_point points (position t) (max_range + w)%Q)
                  (foldl (λ pairs (it : nat * (tree * Q)),
                            add_pairs it.1
                              (query_ball_point points (position it.2.1)
                                 (max_range + it.2.2)%Q) pairs)
                     [] (imap (λ i tw, (i, tw)) l0))) as [Hin Hnd].
      split; [|by apply Hnd].
      intros p. rewrite Hin, IHin. split.
      + intros [(i & j & t' & w' & Hi & Hj & Hji & ->)|(j & Hj & Hji & ->)].
        * exists i, j, t', w'. split; [|done]. by apply lookup_app_l_Some.
        * exists (length l0), j, t, w. split; [|done].
          rewrite lookup_app_r by lia. by rewrite Nat.sub_diag.
      + intros (i & j & t' & w' & Hi & Hj & Hji & ->).
        apply lookup_app_Some in Hi as [Hi|[Hlen Hi]].
        * left. by exists i, j, t', w'.
        * right. destruct (i - length l0)%nat as [|k] eqn:Hk; [|by destruct k].
          injection Hi as <- <-. replace i with (length l0) in * by lia.
          by exists j. }
  destruct (Hgen l) as [Hin Hnd]. split; [|done].
  intros p. rewrite Hin. split.
  - intros (i & j & t & w & Hi%Hz & Hj & Hji & ->). exists i, j.
    split; [|done]. destruct Hi. by exists t, w.
  - intros (i & j & (t & w & Ht & Hw & Hj) & Hji & ->). exists i, j, t, w.
    split; [by apply Hz|done].
Qed.

End ForestFacts.

(** The identifier of the tree indexes the list of configurations. *)
Definition valid_identifier (tree_configurations : list tree_configuration)
    (t : tree) : bool :=
  (- Z.of_nat (length tree_configurations) <=? configuration_identifier t)
  && (configuration_identifier t <? Z.of_nat (length tree_configurations)).

(** The crown width [evaluate_forest] looks up for a tree. *)
Definition tree_width (tree_configurations : list tree_configuration)
    (t : tree) : Q :=
  match py_list_get tree_configurations (configuration_identifier t) with
  | Ok cfg => crown_width cfg
  | Err _ => 0%Q
  end.

(** The largest of the widths. *)
Definition max_width (tree_widths : list Q) : Q :=
  match np_max tree_widths with
  | Ok m => m
  | Err _ => 0%Q
  end.

Lemma py_list_get_ok {A} (xs : list A) i :
  - Z.of_nat (length xs) ≤ i < Z.of_nat (length xs) →
  ∃ x, py_list_get xs i = Ok x.
Proof.
  intros Hi. unfold py_list_get, normalize_index.
  destruct (Z.leb_spec 0 i), (Z.ltb_spec i (Z.of_nat (length xs))); simpl; try lia.
  - destruct (lookup_lt_is_Some_2 xs (Z.to_nat i) ltac:(lia)) as [x Hx].
    exists x. by rewrite Hx.
  - destruct (Z.leb_spec (- Z.of_nat (length xs)) i), (Z.ltb_spec i 0); simpl; try lia.
    destruct (lookup_lt_is_Some_2 xs (Z.to_nat (i + Z.of_nat (length xs)))
                ltac:(lia)) as [x Hx].
    exists x. by rewrite Hx.
Qed.

Lemma comprehension_widths tree_configurations (ts : list tree) :
  forallb (valid_identifier tree_configurations) ts = true →
  comprehension
    (λ t, rbind (py_list_get tree_configurations (configuration_identifier t))
                (λ cfg, Ok (crown_width cfg))) ts
  = Ok (tree_width tree_configurations <$> ts).
Proof.
  induction ts as [|t ts IH]; [done|]. simpl.
  intros [Ht Hts]%andb_true_iff. rewrite (IH Hts). unfold tree_width at 2.
  unfold valid_identifier in Ht. apply andb_true_iff in Ht as [H1%Z.leb_le H2%Z.ltb_lt].
  destruct (py_list_get_ok tree_configurations (configuration_identifier t))
    as [cfg ->]; [lia|]. done.
Qed.

Section EvaluationFacts.
Variable random_source : nat → nat.
Variable distance_transform_edt : ndarray bool → ndarray Q.
Variable query_ball_point : list cell → cell → Q → list nat.
Variable list_of_set : list (nat * nat) → list (nat * nat).
Variable shuffle : list (nat * nat) → nat → list (nat * nat) * nat.

(** What is assumed of the libraries: the k-d tree reports indices of its
    points, listing a set and shuffling a list permute. *)
Hypothesis edt_shape_preserving : shape_preserving distance_transform_edt.
Hypothesis query_in_range :
  ∀ points x r j, j ∈ query_ball_point points x r → (j < length points)%nat.
Hypothesis list_of_set_perm : ∀ l, list_of_set l ≡ₚ l.
Hypothesis shuffle_perm : ∀ l n, (shuffle l n).1 ≡ₚ l.

Lemma evaluate_forest_spec tree_configurations self n :
  trees self ≠ [] →
  forallb clean_tree (trees self) = true →
  forallb (valid_identifier tree_configurations) (trees self) = true →
  ∃ self' n',
    evaluate_forest random_source distance_transform_edt query_ball_point
      list_of_set shuffle tree_configurations self n = Ok (self', n') ∧
    evaluated_forest self' = true ∧
    Forall2 pruned (trees self) (trees self') ∧
    forallb clean_tree (trees self') = true ∧
    ∀ i j ti tj,
      near query_ball_point (trees self)
        (tree_width tree_configurations <$> trees self)
        (max_width (tree_width tree_configurations <$> trees self)) i j →
      j ≠ i →
      trees self' !! (i `min` j)%nat = Some ti →
      trees self' !! (i `max` j)%nat = Some tj →
      separated ti tj.
Proof.
  intros Hne Hclean Hids. unfold evaluate_forest. cbn [trees evaluated_forest].
  rewrite (comprehension_widths _ _ Hids). cbn [rbind].
  set (widths := tree_width tree_configurations <$> trees self).
  assert (Hmax : np_max widths = Ok (max_width widths)).
  { unfold max_width. destruct widths as [|w ws] eqn:E; [|done].
    apply fmap_nil_inv in E. done. }
  rewrite Hmax. cbn [rbind].
  destruct (collect_pairs_spec query_ball_point (trees self) widths (max_width widths))
    as [Hpairs _].
  set (pairs := collect_pairs query_ball_point (trees self) widths (max_width widths))
    in *.
  pose proof (shuffle_perm (list_of_set pairs) n) as Hperm.
  destruct (shuffle (list_of_set pairs) n) as [l n1]. cbn [fst] in Hperm.
  rewrite list_of_set_perm in Hperm.
  assert (Hvalid : forallb (valid_pair (length (trees self))) l = true).
  { apply forallb_forall. intros p Hp%list_elem_of_In. rewrite Hperm in Hp.
    apply Hpairs in Hp as (i & j & (t & w & Ht & _ & Hj) & Hji & ->).
    apply lookup_lt_Some in Ht. apply query_in_range in Hj.
    rewrite length_fmap in Hj. unfold valid_pair. cbn [fst snd].
    apply andb_true_iff. split; apply Nat.ltb_lt; lia. }
  destruct (evaluate_pairs_spec random_source distance_transform_edt l (trees self) n1
              edt_shape_preserving Hclean Hvalid)
    as (trees' & n' & Hrun & Hpr & Hc' & Hsep & _).
  rewrite Hrun. cbn [rbind fst snd].
  eexists _, _. split; [done|]. cbn [trees evaluated_forest].
  split; [done|]. split; [done|]. split; [done|].
  intros i j ti tj Hnear Hji Hi Hj.
  apply (Hsep (i `min` j, i `max` j)%nat); [|done..].
  rewrite Hperm. apply Hpairs. by exists i, j.
Qed.

End EvaluationFacts.

(** ** Claims about the evaluation of a forest *)

(** Three overlapping rows of Crown cells. *)
Definition row_forest : list tree :=
  [Tree (1, 0, 0) 0 crown_row; Tree (0, 0, 0) 0 crown_row;
   Tree (2, 0, 0) 1 crown_row].

(** After the pass over a list of candidate pairs [(i, j)] with [i < j],
    run on a forest of clean trees, no pair of the list shares a Crown
    cell: a later resolution only removes Crown cells and so cannot bring
    an earlier pair back into collision. *)
Theorem evaluate_pairs_separates
    (rand : nat → nat) (edt : ndarray bool → ndarray Q)
    (pairs : list (nat * nat)) (forest : list tree) (n : nat) :
  shape_preserving edt →
  forallb clean_tree forest = true →
  forallb (valid_pair (length forest)) pairs = true →
  ∃ forest' n', evaluate_pairs rand edt pairs forest n = Ok (forest', n') ∧
    ∀ p ti tj, p ∈ pairs →
      forest' !! p.1 = Some ti → forest' !! p.2 = Some tj → separated ti tj.
Proof.
  intros He Hc Hp.
  destruct (evaluate_pairs_spec rand edt pairs forest n He Hc Hp)
    as (forest' & n' & Hrun & _ & _ & Hsep & _).
  by exists forest', n'.
Qed.

Lemma evaluate_pairs_separates_witness :
  ∃ forest' n',
    evaluate_pairs (λ n, n) plane_distance [(0, 1); (1, 2); (0, 2)]%nat
      row_forest 0 = Ok (forest', n') ∧
    ∀ p ti tj, p ∈ [(0, 1); (1, 2); (0, 2)]%nat →
      forest' !! p.1 = Some ti → forest' !! p.2 = Some tj → separated ti tj.
Proof.
  apply (evaluate_pairs_separates (λ n, n) plane_distance
           [(0, 1); (1, 2); (0, 2)]%nat row_forest 0);
    [exact plane_distance_shape_preserving | reflexivity ..].
Defined.

(** The pass only prunes: every tree keeps its position, its identifier
    and the shape of its grid, every cell keeps its value or goes from
    Crown to Empty, and a tree that is in no pair of the list is not
    touched at all. *)
Theorem evaluate_pairs_only_prunes
    (rand : nat → nat) (edt : ndarray bool → ndarray Q)
    (pairs : list (nat * nat)) (forest : list tree) (n : nat) :
  shape_preserving edt →
  forallb clean_tree forest = true →
  forallb (valid_pair (length forest)) pairs = true →
  ∃ forest' n', evaluate_pairs rand edt pairs forest n = Ok (forest', n') ∧
    Forall2 pruned forest forest' ∧
    ∀ k, (∀ p, p ∈ pairs → k ≠ p.1 ∧ k ≠ p.2) → forest' !! k = forest !! k.
Proof.
  intros He Hc Hp.
  destruct (evaluate_pairs_spec rand edt pairs forest n He Hc Hp)
    as (forest' & n' & Hrun & Hpr & _ & _ & Hfr).
  by exists forest', n'.
Qed.

Lemma evaluate_pairs_only_prunes_witness :
  ∃ forest' n',
    evaluate_pairs (λ n, n) plane_distance [(0, 1)]%nat row_forest 0
    = Ok (forest', n') ∧
    Forall2 pruned row_forest forest' ∧
    ∀ k, (∀ p, p ∈ [(0, 1)]%nat → k ≠ p.1 ∧ k ≠ p.2) →
         forest' !! k = row_forest !! k.
Proof.
  apply (evaluate_pairs_only_prunes (λ n, n) plane_distance [(0, 1)]%nat
           row_forest 0);
    [exact plane_distance_shape_preserving | reflexivity ..].
Defined.

(** What [evaluate_forest] assumes of the libraries: the distance
    transform keeps the shape, the k-d tree reports indices of its points,
    and listing a set and shuffling a list permute. *)
Definition library_contract (edt : ndarray bool → ndarray Q)
    (query_ball_point : list cell → cell → Q → list nat)
    (list_of_set : list (nat * nat) → list (nat * nat))
    (shuffle : list (nat * nat) → nat → list (nat * nat) * nat) : Prop :=
  shape_preserving edt ∧
  (∀ points x r j, j ∈ query_ball_point points x r → (j < length points)%nat) ∧
  (∀ l, list_of_set l ≡ₚ l) ∧
  (∀ l n, (shuffle l n).1 ≡ₚ l).

(** Libraries for the examples: every point is near every point, a set is
    listed in insertion order, shuffling takes one draw and reverses. *)
Definition every_point (points : list cell) (x : cell) (r : Q) : list nat :=
  seq 0 (length points).

Definition reversing (l : list (nat * nat)) (n : nat) : list (nat * nat) * nat :=
  (reverse l, S n).

Lemma example_libraries :
  library_contract plane_distance every_point (λ l, l) reversing.
Proof.
  split; [exact plane_distance_shape_preserving|]. split; [|split].
  - intros points x r j Hj. unfold every_point in Hj.
    apply list_elem_of_In, in_seq in Hj. lia.
  - done.
  - intros l n. simpl. apply reverse_Permutation.
Defined.

(** [evaluate_forest] on a forest of clean trees that is not empty and
    whose identifiers index the configurations returns with
    [evaluated_forest] set; it only prunes; and afterwards every tree
    shares no Crown cell with any other tree the k-d tree reported near
    it. *)
Theorem evaluate_forest_separates_neighbours
    (rand : nat → nat) (edt : ndarray bool → ndarray Q)
    (query_ball_point : list cell → cell → Q → list nat)
    (list_of_set : list (nat * nat) → list (nat * nat))
    (shuffle : list (nat * nat) → nat → list (nat * nat) * nat)
    (tree_configurations : list tree_configuration) (self : VoxelGrid) (n : nat) :
  library_contract edt query_ball_point list_of_set shuffle →
  trees self ≠ [] →
  forallb clean_tree (trees self) = true →
  forallb (valid_identifier tree_configurations) (trees self) = true →
  ∃ self' n',
    evaluate_forest rand edt query_ball_point list_of_set shuffle
      tree_configurations self n = Ok (self', n') ∧
    evaluated_forest self' = true ∧
    Forall2 pruned (trees self) (trees self') ∧
    ∀ i j ti tj,
      near query_ball_point (trees self)
        (tree_width tree_configurations <$> trees self)
        (max_width (tree_width tree_configurations <$> trees self)) i j →
      j ≠ i →
      trees self' !! (i `min` j)%nat = Some ti →
      trees self' !! (i `max` j)%nat = Some tj →
      separated ti tj.
Proof.
  intros (He & Hq & Hl & Hs) Hne Hc Hids.
  destruct (evaluate_forest_spec rand edt query_ball_point list_of_set shuffle
              He Hq Hl Hs tree_configurations self n Hne Hc Hids)
    as (self' & n' & Hrun & Hflag & Hpr & _ & Hsep).
  by exists self', n'.
Qed.

Lemma evaluate_forest_separates_neighbours_witness :
  ∃ self' n',
    evaluate_forest (λ n, n) plane_distance every_point (λ l, l) reversing
      [small_spreading; columnar_without_width] (MkVoxelGrid false row_forest) 0
    = Ok (self', n') ∧
    evaluated_forest self' = true ∧
    Forall2 pruned row_forest (trees self') ∧
    ∀ i j ti tj,
      near every_point row_forest
        (tree_width [small_spreading; columnar_without_width] <$> row_forest)
        (max_width (tree_width [small_spreading; columnar_without_width]
                    <$> row_forest)) i j →
      j ≠ i →
      trees self' !! (i `min` j)%nat = Some ti →
      trees self' !! (i `max` j)%nat = Some tj →
      separated ti tj.
Proof.
  apply (evaluate_forest_separates_neighbours (λ n, n) plane_distance every_point
           (λ l, l) reversing [small_spreading; columnar_without_width]
           (MkVoxelGrid false row_forest) 0);
    [exact example_libraries | done | reflexivity ..].
Defined.

(** On an empty forest [evaluate_forest] raises [ValueError]: the largest
    width of no tree does not exist.  So does [generate_forest] when the
    sampler returns no point and the forest was empty. *)
Theorem empty_forest_cannot_be_evaluated
    (rand : nat → nat) (edt : ndarray bool → ndarray Q)
    (query_ball_point : list cell → cell → Q → list nat)
    (list_of_set : list (nat * nat) → list (nat * nat))
    (shuffle : list (nat * nat) → nat → list (nat * nat) * nat)
    (tree_configurations : list tree_configuration) (self : VoxelGrid) (n : nat) :
  trees self = [] →
  evaluate_forest rand edt query_ball_point list_of_set shuffle
    tree_configurations self n = Err ValueError ∧
  generate_forest rand edt query_ball_point list_of_set shuffle
    tree_configurations [] self n = Err ValueError.
Proof.
  intros Hempty. unfold generate_forest, evaluate_forest. simpl.
  by rewrite Hempty.
Qed.

Lemma empty_forest_cannot_be_evaluated_witness :
  evaluate_forest (λ n, n) plane_distance every_point (λ l, l) reversing
    [small_spreading] (MkVoxelGrid false []) 0 = Err ValueError ∧
  generate_forest (λ n, n) plane_distance every_point (λ l, l) reversing
    [small_spreading] [] (MkVoxelGrid false []) 0 = Err ValueError.
Proof.
  apply (empty_forest_cannot_be_evaluated (λ n, n) plane_distance every_point
           (λ l, l) reversing [small_spreading] (MkVoxelGrid false []) 0).
  reflexivity.
Defined.

(** ** Generating a forest *)

(** The configuration index of the sampled point indexes the list of
    configurations. *)
Definition valid_sample (tree_configurations : list tree_configuration)
    (sampled_point : Q * Q * Z) : bool :=
  (- Z.of_nat (length tree_configurations) <=? sampled_point.2)
  && (sampled_point.2 <? Z.of_nat (length tree_configurations)).

Lemma py_list_get_elem_of {A} (xs : list A) i x :
  py_list_get xs i = Ok x → x ∈ xs.
Proof.
  unfold py_list_get.
  destruct (normalize_index (Z.of_nat (length xs)) i) as [k|]; [|done]. simpl.
  destruct (xs !! Z.to_nat k) as [y|] eqn:Hy; [|done]. simpl.
  intros [= <-]. by eapply list_elem_of_lookup_2.
Qed.

Lemma add_sampled_trees_spec tree_configurations sampled_points self :
  forallb well_proportioned tree_configurations = true →
  forallb (valid_sample tree_configurations) sampled_points = true →
  forallb plain_tree (trees self) = true →
  forallb (valid_identifier tree_configurations) (trees self) = true →
  ∃ planted new,
    add_sampled_trees tree_configurations sampled_points self = Ok planted ∧
    trees planted = trees self ++ new ∧
    Forall2 (λ (p : Q * Q * Z) t, configuration_identifier t = p.2)
      sampled_points new ∧
    forallb plain_tree (trees planted) = true ∧
    forallb (valid_identifier tree_configurations) (trees planted) = true.
Proof.
  intros Hcfgs. revert self.
  induction sampled_points as [|[[x y] idx] rest IH]; intros self Hpts Hplain Hids.
  - exists self, []. simpl. by rewrite app_nil_r.
  - simpl in Hpts. apply andb_true_iff in Hpts as [Hpt Hrest].
    pose proof Hpt as Hidx. unfold valid_sample in Hidx. simpl in Hidx.
    apply andb_true_iff in Hidx as [H1%Z.leb_le H2%Z.ltb_lt].
    destruct (py_list_get_ok tree_configurations idx ltac:(lia)) as [cfg Hcfg].
    assert (Hwp : well_proportioned cfg = true).
    { rewrite forallb_forall in Hcfgs.
      by eapply Hcfgs, list_elem_of_In, py_list_get_elem_of. }
    simpl. rewrite Hcfg. cbn [rbind].
    destruct (build_tree_ok (x, y, 0%Q) idx cfg Hwp) as [t Ht].
    pose proof (build_tree_inv (x, y, 0%Q) idx cfg) as Hinv.
    pose proof (build_tree_built _ _ _ _ Ht) as [Hwf Hpl].
    rewrite Ht in Hinv. destruct Hinv as (_ & Hid & _).
    unfold add_tree. rewrite Ht. cbn [fst snd rbind trees evaluated_forest].
    destruct (IH (MkVoxelGrid false (trees self ++ [t])) Hrest)
      as (planted & new & Hrun & Htrees & Hnew & Hplain' & Hids').
    { cbn [trees]. rewrite forallb_app, Hplain. simpl.
      unfold plain_tree. by rewrite (wf_well_formed _ Hwf), Hpl. }
    { cbn [trees]. rewrite forallb_app, Hids. simpl.
      unfold valid_identifier. rewrite Hid, andb_true_r.
      apply andb_true_iff. split; [by apply Z.leb_le | by apply Z.ltb_lt]. }
    exists planted, (t :: new). split; [done|]. cbn [trees] in Htrees.
    split; [by rewrite Htrees, <- app_assoc|]. split; [|done].
    constructor; done.
Qed.



(** ** The growth sphere *)

(** [get_cells_for_sphere] returns exactly the integer points within
    [radius] of the origin, each once; none when the radius is
    negative. *)
Theorem get_cells_for_sphere_spec (radius : Z) :
  (∀ c, c ∈ get_cells_for_sphere radius ↔
        0 ≤ radius ∧ c.1.1 ^ 2 + c.1.2 ^ 2 + c.2 ^ 2 ≤ radius ^ 2) ∧
  NoDup (get_cells_for_sphere radius).
Proof.
  unfold get_cells_for_sphere. split.
  - intros [[x y] z]. rewrite list_elem_of_filter. simpl. split.
    + intros [Hle (z' & (x' & (y' & [= -> -> ->]%list_elem_of_singleton
                               & Hy)%list_elem_of_bind
                         & Hx)%list_elem_of_bind & Hz)%list_elem_of_bind].
      apply elem_of_np_arange in Hz. split; [lia | done].
    + intros [Hr Hle]. split; [done|].
      assert (- radius ≤ x ≤ radius ∧ - radius ≤ y ≤ radius ∧ - radius ≤ z ≤ radius)
        as (Hx & Hy & Hz) by nia.
      apply list_elem_of_bind. exists z. split; [|apply elem_of_np_arange; lia].
      apply list_elem_of_bind. exists x. split; [|apply elem_of_np_arange; lia].
      apply list_elem_of_bind. exists y. split; [|apply elem_of_np_arange; lia].
      by apply list_elem_of_singleton.
  - apply list.NoDup_filter.
    assert (Hr : NoDup (np_arange (- radius) (radius + 1))) by apply NoDup_seqZ.
    apply NoDup_bind; [| |done].
    + intros z1 z2 c _ _ (x1 & (y1 & ->%list_elem_of_singleton & _)%list_elem_of_bind
                              & _)%list_elem_of_bind
                         (x2 & (y2 & [= _ _ ->]%list_elem_of_singleton & _)%list_elem_of_bind
                              & _)%list_elem_of_bind.
      done.
    + intros z _. apply NoDup_bind; [| |done].
      * intros x1 x2 c _ _ (y1 & ->%list_elem_of_singleton & _)%list_elem_of_bind
                           (y2 & [= -> _]%list_elem_of_singleton & _)%list_elem_of_bind.
        done.
      * intros x _. apply NoDup_bind; [| |done].
        -- intros y1 y2 c _ _ ->%list_elem_of_singleton [= ->]%list_elem_of_singleton.
           done.
        -- intros y _. apply NoDup_singleton.
Qed.

(** ** The boxes of the mesher are boxes *)

(** The plane or quad is empty: an end before its start. *)
Definition improper_plane (z : Z) (p : plane) : nat :=
  Nat.b2n ((p.1.2 <? p.1.1.1) || (p.2 <? p.1.1.2)).

Definition proper_quad (q : quad) : Prop :=
  let '(x_start, y_start, z_start, x_end, y_end, z_end) := q in
  x_start ≤ x_end ∧ y_start ≤ y_end ∧ z_start ≤ z_end.

(** Adding a segment under a key adds at most its weight. *)
Lemma weigh_add_le {K Sg} `{EqDecision K} `{EqDecision Sg}
    (k : K) (x : Sg) (d : list (K * list Sg)) w :
  (weigh w (match dict_get k d with
            | Some segs => dict_set k (set_add x segs) d
            | None => dict_set k [x] d
            end) ≤ weigh w d + w k x)%nat.
Proof.
  destruct (dict_get k d) as [segs|] eqn:Hg.
  - pose proof (weigh_dict_set w k segs (set_add x segs) d Hg) as Hs.
    destruct (decide (x ∈ segs)) as [Hin|Hnin].
    + unfold set_add in *. rewrite decide_True in * by done. lia.
    + pose proof (weigh_set_add w k x segs Hnin). lia.
  - rewrite weigh_dict_set_new by done. unfold weigh_set. simpl. lia.
Qed.

(** [capture_quad] returns a box over the plane it was given, from a
    layer at or below [z] to a layer at or above it, and only removes
    planes. *)
Lemma capture_quad_box z x_start y_start x_end y_end planes pls :
  dict_get z planes = Some pls → (x_start, y_start, x_end, y_end) ∈ pls →
  ∃ z_start z_end planes',
    capture_quad z x_start y_start x_end y_end planes
    = Ok ((x_start, y_start, z_start, x_end, y_end, z_end), planes') ∧
    z_start ≤ z ≤ z_end ∧
    ∀ w, (weigh w planes' ≤ weigh w planes)%nat.
Proof.
  intros Hg Hin. unfold capture_quad, plane_matches_segment_length.
  destruct (while_matches_run (λ o, z + o) (x_start, y_start, x_end, y_end)
              (S (dict_size planes)) 0 (-1) planes (Nat.lt_succ_diag_r _))
    as (n1 & planes1 & Hrun1 & Hw1 & Hne1 & Hfirst).
  assert (Hn1 : (1 ≤ n1)%nat).
  { apply (Hfirst pls); [by rewrite Z.add_0_r | done]. }
  cbv beta in Hrun1. rewrite Hrun1. cbn [rbind fst snd].
  destruct (while_matches_run (λ o, z + o) (x_start, y_start, x_end, y_end)
              (S (dict_size planes1)) 1 1 planes1 (Nat.lt_succ_diag_r _))
    as (n2 & planes2 & Hrun2 & Hw2 & Hne2 & _).
  cbv beta in Hrun2. rewrite Hrun2. cbn [rbind fst snd].
  eexists _, _, planes2. split; [done|]. split; [lia|].
  intros w. rewrite (Hw1 w), (Hw2 w). lia.
Qed.

Section BoxFacts.
Variable segment_order : list segment → nat.
Variable plane_order : list plane → nat.

Lemma capture_planes_loop_proper fuel rows planes planes' :
  capture_planes_loop segment_order fuel rows planes = Ok planes' →
  no_empty rows → weigh backwards rows = 0%nat →
  weigh improper_plane planes = 0%nat →
  weigh improper_plane planes' = 0%nat.
Proof.
  revert rows planes. induction fuel as [|fuel IH];
    intros rows planes Hrun Hne Hback Hprop; [done|].
  destruct rows as [|[[y z] row_set] rest].
  - simpl in Hrun. by injection Hrun as <-.
  - cbn [capture_planes_loop] in Hrun.
    set (rows := ((y, z), row_set) :: rest) in *.
    assert (Hrs : row_set ≠ []).
    { by inversion_clear Hne. }
    assert (Hg : dict_get (y, z) rows = Some row_set).
    { simpl. by rewrite decide_True. }
    destruct (next_iter_elem_of segment_order row_set Hrs)
      as ([x_start x_end] & Hnext & Hin).
    rewrite Hnext in Hrun. cbn [rbind fst snd] in Hrun.
    destruct (capture_plane_spec y z x_start x_end rows row_set Hg Hin)
      as (pl & rows' & Hplane & _ & Hle & _ & Hne' & Hcell).
    rewrite Hplane in Hrun. cbn [rbind fst snd] in Hrun.
    assert (Hx : x_start ≤ x_end).
    { pose proof (weigh_elem_le backwards rows (y, z) row_set (x_start, x_end)
                    (dict_get_elem_of _ _ _ Hg) Hin) as Hb.
      rewrite Hback in Hb. unfold backwards in Hb. simpl in Hb.
      destruct (Z.ltb_spec x_end x_start); simpl in Hb; lia. }
    specialize (Hcell Hx).
    apply IH in Hrun; [done | auto | |].
    + specialize (Hle backwards). lia.
    + pose proof (weigh_add_le z pl planes improper_plane) as Hadd.
      assert (Hpl : improper_plane z pl = 0%nat).
      { destruct pl as [[[xs ys] xe] ye]. unfold covers_plane in Hcell.
        unfold improper_plane. simpl in *.
        rewrite !andb_true_iff, !Z.leb_le in Hcell.
        destruct (Z.ltb_spec xe xs), (Z.ltb_spec ye ys); simpl; lia. }
      lia.
Qed.

Lemma capture_quads_loop_proper fuel planes quads quads' :
  capture_quads_loop plane_order fuel planes quads = Ok quads' →
  no_empty planes → weigh improper_plane planes = 0%nat →
  Forall proper_quad quads → Forall proper_quad quads'.
Proof.
  revert planes quads. induction fuel as [|fuel IH];
    intros planes quads Hrun Hne Hprop Hquads; [done|].
  destruct planes as [|[z plane_set] rest].
  - simpl in Hrun. by injection Hrun as <-.
  - cbn [capture_quads_loop] in Hrun.
    set (planes := (z, plane_set) :: rest) in *.
    assert (Hps : plane_set ≠ []).
    { by inversion_clear Hne. }
    assert (Hg : dict_get z planes = Some plane_set).
    { simpl. by rewrite decide_True. }
    destruct (next_iter_elem_of plane_order plane_set Hps)
      as ([[[x_start y_start] x_end] y_end] & Hnext & Hin).
    rewrite Hnext in Hrun. cbn [rbind] in Hrun.
    destruct (capture_quad_spec z x_start y_start x_end y_end planes plane_set
                Hg Hin) as (q & planes' & Hquad & _ & _ & Hne').
    destruct (capture_quad_box z x_start y_start x_end y_end planes plane_set
                Hg Hin) as (z0 & z1 & planes'' & Hbox & Hz & Hle).
    rewrite Hquad in Hbox. injection Hbox as -> <-.
    rewrite Hquad in Hrun. cbn [rbind fst snd] in Hrun.
    apply IH in Hrun; [done | auto | |].
    + specialize (Hle improper_plane). lia.
    + apply Forall_app. split; [done|]. constructor; [|done].
      pose proof (weigh_elem_le improper_plane planes z plane_set
                    (x_start, y_start, x_end, y_end)
                    (dict_get_elem_of _ _ _ Hg) Hin) as Hp.
      rewrite Hprop in Hp. unfold improper_plane in Hp. simpl in Hp |- *.
      destruct (Z.ltb_spec x_end x_start), (Z.ltb_spec y_end y_start);
        simpl in Hp; lia.
Qed.

(** [capture_quads] on the grid of a tree: it returns, every cell is
    covered as often as it is Crown (once or never), and every box has
    its start before its end. *)
Lemma capture_quads_boxes (forest : list tree) (index : nat) (t : tree) :
  forest !! index = Some t → wf_array (grid t) →
  ∃ quads,
    capture_quads segment_order plane_order forest index = Ok quads ∧
    (∀ c, count_quads quads c = Nat.b2n (crown_at (grid t) c)) ∧
    Forall proper_quad quads.
Proof.
  intros Ht Hwf.
  set (chi := λ c, Nat.b2n (crown_at (grid t) c)).
  assert (Hchi : ∀ c, (chi c ≤ 1)%nat).
  { intros c. unfold chi. destruct (crown_at (grid t) c); simpl; lia. }
  destruct (capture_rows_spec (grid t) Hwf) as (rows & Hrows & Hw & Hne & Hback).
  destruct (capture_planes_loop_spec segment_order chi Hchi
              (S (dict_size rows)) rows [] (Nat.lt_succ_diag_r _) Hne
              ltac:(constructor) Hback)
    as (planes & Hplanes & Hnep & Hwp).
  { intros c. rewrite Hw. unfold weigh. simpl. unfold chi. lia. }
  destruct (capture_quads_loop_spec plane_order chi
              (S (dict_size planes)) planes [] (Nat.lt_succ_diag_r _) Hnep)
    as (quads & Hquads & Hcount).
  { intros c. rewrite Hwp. unfold count_quads. simpl. lia. }
  exists quads. split; [|split; [done|]].
  - unfold capture_quads, capture_planes. rewrite Ht. cbn [of_option rbind].
    rewrite Hrows. cbn [rbind]. rewrite Hplanes. cbn [rbind]. exact Hquads.
  - eapply capture_quads_loop_proper; [exact Hquads | done | | constructor].
    eapply capture_planes_loop_proper; [exact Hplanes | done | done | done].
Qed.

End BoxFacts.

(** The box lies in a grid of the given shape and has its start before
    its end on every axis. *)
Definition box_in_grid (sh : cell) (q : quad) : Prop :=
  let '(x_start, y_start, z_start, x_end, y_end, z_end) := q in
  (0 ≤ x_start ∧ x_start ≤ x_end ∧ x_end < sh.1.1) ∧
  (0 ≤ y_start ∧ y_start ≤ y_end ∧ y_end < sh.1.2) ∧
  (0 ≤ z_start ∧ z_start ≤ z_end ∧ z_end < sh.2).

(** The first corner of a box. *)
Definition start_corner (q : quad) : cell := (q.1.1.1.1.1, q.1.1.1.1.2, q.1.1.1.2).

Lemma proper_quad_covers_corners q :
  proper_quad q →
  covers_quad q (start_corner q) = true ∧
  covers_quad q (q.1.1.2, q.1.2, q.2) = true.
Proof.
  destruct q as [[[[[xs ys] zs] xe] ye] ze]. unfold proper_quad, covers_quad.
  simpl. intros (Hx & Hy & Hz).
  rewrite !andb_true_iff, !Z.leb_le. lia.
Qed.

(** A quad of the list that covers a cell makes the cell Crown, when the
    cells are covered as often as they are Crown. *)
Lemma covered_is_crown g quads q c :
  (∀ c, count_quads quads c = Nat.b2n (crown_at g c)) →
  q ∈ quads → covers_quad q c = true →
  get g c = Some (value crown).
Proof.
  intros Hcount Hq Hc.
  assert (H1 : (1 ≤ count_quads quads c)%nat).
  { apply count_quads_covered. by exists q. }
  rewrite Hcount in H1. unfold crown_at in H1.
  case_bool_decide; [done | simpl in H1; lia].
Qed.

(** Every box [capture_quads] returns lies in the grid and has its start
    before its end on every axis: no box is empty or sticks out. *)
Theorem capture_quads_boxes_in_grid (segment_order : list segment → nat)
    (plane_order : list plane → nat) (forest : list tree) (index : nat)
    (t : tree) :
  forest !! index = Some t →
  well_formed (grid t) = true →
  ∃ quads,
    capture_quads segment_order plane_order forest index = Ok quads ∧
    Forall (box_in_grid (shape (grid t))) quads.
Proof.
  intros Ht Hwf%well_formed_wf.
  destruct (capture_quads_boxes segment_order plane_order forest index t Ht Hwf)
    as (quads & Hrun & Hcount & Hproper).
  exists quads. split; [done|]. apply list.Forall_forall. intros q Hq.
  eapply list.Forall_forall in Hproper; [|exact Hq].
  destruct (proper_quad_covers_corners q Hproper) as [H1 H2].
  apply (covered_is_crown _ _ _ _ Hcount Hq), get_Some_in_bounds, in_bounds_spec in H1.
  apply (covered_is_crown _ _ _ _ Hcount Hq), get_Some_in_bounds, in_bounds_spec in H2.
  destruct q as [[[[[xs ys] zs] xe] ye] ze]. unfold proper_quad in Hproper.
  unfold box_in_grid, start_corner in *. simpl in *. lia.
Qed.

Lemma capture_quads_boxes_in_grid_witness :
  ∃ quads,
    capture_quads (λ _, 0%nat) (λ _, 1%nat)
      [Tree (0, 0, 0) 0 crown_row; Tree (4, 0, 0) 1 crown_corner] 1 = Ok quads ∧
    Forall (box_in_grid (shape crown_corner)) quads.
Proof.
  apply (capture_quads_boxes_in_grid (λ _, 0%nat) (λ _, 1%nat)
           [Tree (0, 0, 0) 0 crown_row; Tree (4, 0, 0) 1 crown_corner] 1
           (Tree (4, 0, 0) 1 crown_corner)); reflexivity.
Defined.

(** [capture_quads] returns at most as many boxes as the grid has Crown
    cells; for a grid without a Crown cell it returns no box. *)
Theorem capture_quads_at_most_one_box_per_cell (segment_order : list segment → nat)
    (plane_order : list plane → nat) (forest : list tree) (index : nat)
    (t : tree) :
  forest !! index = Some t →
  well_formed (grid t) = true →
  ∃ quads,
    capture_quads segment_order plane_order forest index = Ok quads ∧
    (length quads ≤ count_crown (grid t))%nat ∧
    (count_crown (grid t) = 0%nat → quads = []).
Proof.
  intros Ht Hwf%well_formed_wf.
  destruct (capture_quads_boxes segment_order plane_order forest index t Ht Hwf)
    as (quads & Hrun & Hcount & Hproper).
  exists quads. split; [done|].
  assert (Hlen : (length quads ≤ count_crown (grid t))%nat).
  { unfold count_crown. rewrite <- (length_fmap start_corner quads).
    apply submseteq_length, NoDup_submseteq.
    - apply NoDup_alt. intros i j c Hi Hj.
      rewrite list_lookup_fmap in Hi, Hj.
      destruct (quads !! i) as [qi|] eqn:Hqi; [|done].
      destruct (quads !! j) as [qj|] eqn:Hqj; [|done].
      simpl in Hi, Hj. injection Hi as <-.
      destruct (decide (i = j)) as [|Hij]; [done|].
      pose proof (sum_list_with_two (λ q, Nat.b2n (covers_quad q (start_corner qi)))
                    quads i j qi qj Hqi Hqj Hij) as Hsum.
      fold (count_quads quads (start_corner qi)) in Hsum. rewrite Hcount in Hsum.
      assert (Pi : proper_quad qi).
      { eapply list.Forall_forall; [exact Hproper|]. by eapply list_elem_of_lookup_2. }
      assert (Pj : proper_quad qj).
      { eapply list.Forall_forall; [exact Hproper|]. by eapply list_elem_of_lookup_2. }
      destruct (proper_quad_covers_corners qi Pi) as [Ci _].
      destruct (proper_quad_covers_corners qj Pj) as [Cj _].
      assert (Hj' : start_corner qj = start_corner qi) by congruence.
      rewrite Hj' in Cj. simpl in Hsum. rewrite Ci, Cj in Hsum.
      destruct (crown_at (grid t) (start_corner qi)); simpl in Hsum; lia.
    - intros c (q & -> & Hq)%list_elem_of_fmap.
      apply elem_of_argwhere_eq; [done|].
      eapply covered_is_crown; [exact Hcount | exact Hq |].
      apply proper_quad_covers_corners.
      eapply list.Forall_forall; [exact Hproper | done]. }
  split; [done|]. intros Hz. rewrite Hz in Hlen.
  destruct quads; [done | simpl in Hlen; lia].
Qed.

(** A grid of Stem and Empty cells only. *)
Definition bare_stem : ndarray Z := NDArray (1, 1, 3) [1; 1; 0].

Lemma capture_quads_at_most_one_box_per_cell_witness :
  ∃ quads,
    capture_quads (λ _, 0%nat) (λ _, 1%nat)
      [Tree (0, 0, 0) 0 bare_stem; Tree (4, 0, 0) 1 crown_corner] 0 = Ok quads ∧
    (length quads ≤ count_crown bare_stem)%nat ∧
    (count_crown bare_stem = 0%nat → quads = []).
Proof.
  apply (capture_quads_at_most_one_box_per_cell (λ _, 0%nat) (λ _, 1%nat)
           [Tree (0, 0, 0) 0 bare_stem; Tree (4, 0, 0) 1 crown_corner] 0
           (Tree (0, 0, 0) 0 bare_stem)); reflexivity.
Defined.

(** ** The rows are the maximal runs *)

Lemma elem_of_dict_set {K V} `{EqDecision K} (k : K) (v : V) d kv :
  kv ∈ dict_set k v d → kv = (k, v) ∨ kv ∈ d.
Proof.
  induction d as [|[k0 v0] d IH]; simpl.
  - intros ->%list_elem_of_singleton. by left.
  - destruct (decide (k0 = k)) as [->|Hne].
    + intros [->|H]%elem_of_cons; [by left | right; by right].
    + intros [->|H]%elem_of_cons; [right; left|].
      destruct (IH H) as [->|H']; [by left | right; by right].
Qed.

Lemma dict_set_keys {K V} `{EqDecision K} (k : K) (v : V) d :
  NoDup d.*1 → NoDup (dict_set k v d).*1 ∧
  ∀ k', k' ∈ (dict_set k v d).*1 → k' = k ∨ k' ∈ d.*1.
Proof.
  induction d as [|[k0 v0] d IH]; simpl.
  - intros _. split; [apply NoDup_singleton|].
    intros k' ->%list_elem_of_singleton. by left.
  - intros [Hk0 Hd]%list.NoDup_cons. destruct (IH Hd) as [IH1 IH2].
    destruct (decide (k0 = k)) as [->|Hne]; simpl.
    + split; [by apply list.NoDup_cons|].
      intros k' [->|H]%elem_of_cons; [by left | right; by right].
    + split.
      * apply list.NoDup_cons. split; [|done]. intros H.
        destruct (IH2 _ H) as [->|H']; done.
      * intros k' [->|H]%elem_of_cons; [right; left|].
        destruct (IH2 _ H) as [->|H']; [by left | right; by right].
Qed.

Lemma dict_get_unique {K V} `{EqDecision K} (k : K) (v : V) d :
  NoDup d.*1 → (k, v) ∈ d → dict_get k d = Some v.
Proof.
  induction d as [|[k0 v0] d IH]; simpl; [by intros _ ?%elem_of_nil|].
  intros [Hk0 Hd]%list.NoDup_cons [[= -> ->]|H]%elem_of_cons.
  - by rewrite decide_True.
  - rewrite decide_False; [by apply IH|]. intros ->. apply Hk0.
    apply list_elem_of_fmap. by exists (k, v).
Qed.

Lemma sum_list_with_pos {A} (f : A → nat) (l : list A) :
  (1 ≤ sum_list_with f l)%nat → ∃ x, x ∈ l ∧ (1 ≤ f x)%nat.
Proof.
  induction l as [|x l IH]; simpl; [lia|]. intros H.
  destruct (decide (1 ≤ f x)%nat) as [Hx|Hx].
  - exists x. split; [left | done].
  - destruct IH as (y & Hy & Hfy); [lia|]. exists y. split; [by right | done].
Qed.

Lemma weigh_pos_elem_of {K Sg} (w : K → Sg → nat) (d : list (K * list Sg)) :
  (1 ≤ weigh w d)%nat → ∃ k segs x, (k, segs) ∈ d ∧ x ∈ segs ∧ (1 ≤ w k x)%nat.
Proof.
  unfold weigh. intros ([k segs] & Hin & Hs)%sum_list_with_pos.
  apply sum_list_with_pos in Hs as (x & Hx & Hw). by exists k, segs, x.
Qed.

Section RowRuns.
Variable g : ndarray Z.
Hypothesis g_wf : wf_array g.

(** Every stored segment starts at a start and ends at an end of a run on
    its line, and no key is stored twice. *)
Definition borders_only (rows : list (Z * Z * list segment)) : Prop :=
  NoDup rows.*1 ∧
  ∀ k segs s, (k, segs) ∈ rows → s ∈ segs →
              is_start g s.1 k.1 k.2 ∧ is_end g s.2 k.1 k.2.

Lemma pair_borders_borders_only rest start_map rows rows' :
  pair_borders rest start_map rows = Ok rows' →
  Forall (border g) rest →
  (∀ y z s, dict_get (y, z) start_map = Some s → is_start g s y z) →
  borders_only rows → borders_only rows'.
Proof.
  revert start_map rows. induction rest as [|[[[x y] z] flag] rest IH];
    intros start_map rows Hrun Hrest Hmap Hrows.
  - simpl in Hrun. by injection Hrun as <-.
  - inversion_clear Hrest as [|? ? Hhead Hrest'].
    destruct Hhead as [[-> Hstart]|[-> Hend]].
    + simpl in Hrun. eapply IH; [exact Hrun | done | | done].
      intros y' z' s. destruct (decide ((y, z) = (y', z'))) as [[= <- <-]|Hne].
      * rewrite dict_get_set_eq. by intros [= <-].
      * rewrite dict_get_set_ne by done. apply Hmap.
    + simpl in Hrun.
      destruct (dict_get (y, z) start_map) as [s|] eqn:Hs; [|done].
      cbn [of_option rbind] in Hrun.
      pose proof (Hmap _ _ _ Hs) as Hss.
      destruct Hrows as [Hkeys Hsegs].
      assert (Hnew : ∀ segs0,
        (∀ s0, s0 ∈ segs0 → s0 = (s, x) ∨
               ∃ segs, ((y, z), segs) ∈ rows ∧ s0 ∈ segs) →
        borders_only (dict_set (y, z) segs0 rows)).
      { intros segs0 Hsegs0. split; [by apply dict_set_keys|].
        intros k segs s0 [[= -> ->]|Hin]%elem_of_dict_set Hs0.
        - destruct (Hsegs0 _ Hs0) as [->|(segs & Hin & Hs0')]; [done|].
          by apply (Hsegs _ _ _ Hin).
        - by apply (Hsegs _ _ _ Hin). }
      destruct (dict_get (y, z) rows) as [row_set|] eqn:Hg.
      * eapply IH; [exact Hrun | done | done |]. apply Hnew.
        intros s0 [->|Hs0]%elem_of_set_add; [by left|]. right.
        exists row_set. split; [by apply dict_get_elem_of | done].
      * eapply IH; [exact Hrun | done | done |]. apply Hnew.
        intros s0 ->%list_elem_of_singleton. by left.
Qed.

Lemma capture_rows_runs :
  ∃ rows,
    capture_rows g = Ok rows ∧
    ∀ y z s e,
      (∃ segs, dict_get (y, z) rows = Some segs ∧ (s, e) ∈ segs) ↔ run g y z s e.
Proof.
  destruct (capture_rows_spec g g_wf) as (rows & Hrun & Hw & Hne & Hback).
  exists rows. split; [done|].
  assert (Hb : borders_only rows).
  { unfold capture_rows in Hrun.
    eapply pair_borders_borders_only; [exact Hrun | | done |].
    - apply list.Forall_forall. intros b Hb. rewrite sorted_perm in Hb.
      by apply (elem_of_border_positions g g_wf).
    - split; [constructor|]. by intros k segs s ?%elem_of_nil. }
  destruct Hb as [Hkeys Hsegs].
  assert (Hstored : ∀ y z segs s e,
            ((y, z), segs) ∈ rows → (s, e) ∈ segs → run g y z s e).
  { intros y z segs s e Hin Hse.
    destruct (Hsegs _ _ _ Hin Hse) as [[_ Hbefore] [_ Hafter]]. simpl in *.
    assert (Hle : s ≤ e).
    { pose proof (weigh_elem_le backwards rows (y, z) segs (s, e) Hin Hse) as H.
      rewrite Hback in H. unfold backwards in H. simpl in H.
      destruct (Z.ltb_spec e s); simpl in H; lia. }
    split; [done|]. split; [|done].
    intros x Hx.
    pose proof (weigh_elem_le (row_weight (x, y, z)) rows (y, z) segs (s, e) Hin Hse)
      as H.
    rewrite Hw in H. unfold row_weight, covers_row in H. simpl in H.
    rewrite !Z.eqb_refl in H.
    destruct (Z.leb_spec s x), (Z.leb_spec x e); try lia.
    destruct (crown_at g (x, y, z)); [done | simpl in H; lia]. }
  intros y z s e. split.
  - intros (segs & Hg & Hse). eapply Hstored; [|exact Hse].
    by apply dict_get_elem_of.
  - intros Hr. pose proof Hr as (Hle & Hall & _).
    assert (Hc : crown_at g (s, y, z) = true) by (apply Hall; lia).
    assert (H1 : (1 ≤ weigh (row_weight (s, y, z)) rows)%nat).
    { rewrite Hw, Hc. done. }
    apply weigh_pos_elem_of in H1 as ([y' z'] & segs & [s' e'] & Hin & Hse & Hcov).
    unfold row_weight, covers_row in Hcov. simpl in Hcov.
    destruct (Z.eqb_spec y y') as [<-|]; [|simpl in Hcov; lia].
    destruct (Z.eqb_spec z z') as [<-|]; [|simpl in Hcov; lia].
    destruct (Z.leb_spec s' s), (Z.leb_spec s e'); simpl in Hcov; try lia.
    pose proof (Hstored _ _ _ _ _ Hin Hse) as Hr'.
    destruct (run_unique g y z s e s' e' s Hr Hr' ltac:(lia) ltac:(lia)) as [<- <-].
    exists segs. split; [by apply dict_get_unique | done].
Qed.

End RowRuns.

(** [capture_rows] stores under [(y, z)] exactly the maximal runs of Crown
    cells along x on that line: [(x_start, x_end)] is stored when and only
    when the cells from [x_start] to [x_end] are Crown and the cells
    before [x_start] and after [x_end] are not Crown or outside the
    grid. *)
Theorem capture_rows_maximal_runs (g : ndarray Z) :
  well_formed g = true →
  ∃ rows,
    capture_rows g = Ok rows ∧
    ∀ y z x_start x_end,
      (∃ segs, dict_get (y, z) rows = Some segs ∧ (x_start, x_end) ∈ segs) ↔
      (x_start ≤ x_end ∧
       (∀ x, x_start ≤ x ≤ x_end → get g (x, y, z) = Some (value crown)) ∧
       get g (x_start - 1, y, z) ≠ Some (value crown) ∧
       get g (x_end + 1, y, z) ≠ Some (value crown)).
Proof.
  intros Hwf%well_formed_wf.
  destruct (capture_rows_runs g Hwf) as (rows & Hrun & Hrows).
  exists rows. split; [done|]. intros y z s e. rewrite Hrows.
  unfold run, crown_at. rewrite !bool_decide_eq_false.
  split; intros (H1 & H2 & H3 & H4); (split; [done|]); (split; [|done]);
    intros x Hx; specialize (H2 x Hx).
  - by apply bool_decide_eq_true in H2.
  - by apply bool_decide_eq_true.
Qed.

Lemma capture_rows_maximal_runs_witness :
  ∃ rows,
    capture_rows stem_and_crown = Ok rows ∧
    ∀ y z x_start x_end,
      (∃ segs, dict_get (y, z) rows = Some segs ∧ (x_start, x_end) ∈ segs) ↔
      (x_start ≤ x_end ∧
       (∀ x, x_start ≤ x ≤ x_end →
             get stem_and_crown (x, y, z) = Some (value crown)) ∧
       get stem_and_crown (x_start - 1, y, z) ≠ Some (value crown) ∧
       get stem_and_crown (x_end + 1, y, z) ≠ Some (value crown)).
Proof.
  apply (capture_rows_maximal_runs stem_and_crown). reflexivity.
Defined.

(** ** The balance of Crown cells *)

(** The Crown cells of [g1] that land, after the translation, on a Crown
    cell of [g2]. *)
Definition overlap (t : cell) (g1 g2 : ndarray Z) : list cell :=
  filter (λ c, get g2 (cell_add c t) = Some (value crown))
    (argwhere_eq g1 (value crown)).

Lemma NoDup_argwhere_eq g v : wf_array g → NoDup (argwhere_eq g v).
Proof.
  intros [Hsh _]. unfold argwhere_eq. by apply list.NoDup_filter, NoDup_all_cells.
Qed.

Lemma crown_balance t o1 o2 g1 g2 :
  paired (λ c, cell_add c t) (λ c, cell_sub c t) o1 o2 g1 g2 →
  tracked (λ c, cell_add c t) o1 o2 g1 g2 →
  unmarked g1 → unmarked g2 → wf_array o1 → wf_array o2 →
  (count_crown g1 + count_crown g2 + length (overlap t o1 o2)
   = count_crown o1 + count_crown o2)%nat.
Proof.
  intros Hp Htr U1 U2 W1 W2.
  pose proof Hp as [Wa Wb _ _ Hl0 Hr0 _ _ _ Hsa Hsb].
  set (f := λ c, cell_add c t) in *. set (finv := λ c, cell_sub c t) in *.
  assert (Hl : ∀ c, finv (f c) = c) by exact Hl0.
  assert (Hr : ∀ c, f (finv c) = c) by exact Hr0.
  set (Ov := overlap t o1 o2).
  assert (HOv : ∀ c, c ∈ Ov ↔ holds o1 c crown ∧ holds o2 (f c) crown).
  { intros c. unfold Ov, overlap.
    rewrite list_elem_of_filter, elem_of_argwhere_eq by done. unfold holds. tauto. }
  assert (NOv : NoDup Ov).
  { apply list.NoDup_filter. by apply NoDup_argwhere_eq. }
  assert (Haward : ∀ c, c ∈ Ov →
            (holds g1 c crown ∧ holds g2 (f c) no_tree) ∨
            (holds g1 c no_tree ∧ holds g2 (f c) crown)).
  { intros c [H1 H2]%HOv.
    destruct (t_award _ _ _ _ _ Htr c H1 H2) as [[Hm _]|H]; [|done].
    by apply U1 in Hm. }
  set (won := filter (λ c, get g1 c = Some (value crown)) Ov).
  set (lost := filter (λ c, get g1 c = Some (value no_tree)) Ov).
  assert (E0 : Ov ≡ₚ won ++ lost).
  { apply NoDup_Permutation; [done| |].
    - apply list.NoDup_app. split; [by apply list.NoDup_filter|].
      split; [|by apply list.NoDup_filter].
      intros c [Hc _]%list_elem_of_filter [Hc' _]%list_elem_of_filter.
      rewrite Hc in Hc'. by injection Hc'.
    - intros c. unfold won, lost. rewrite elem_of_app, !list_elem_of_filter. split.
      + intros Hc. destruct (Haward c Hc) as [[H _]|[H _]]; [left | right]; done.
      + tauto. }
  assert (E1 : argwhere_eq o1 (value crown) ≡ₚ argwhere_eq g1 (value crown) ++ lost).
  { apply NoDup_Permutation; [by apply NoDup_argwhere_eq| |].
    - apply list.NoDup_app. split; [by apply NoDup_argwhere_eq|].
      split; [|by apply list.NoDup_filter].
      intros c Hc%elem_of_argwhere_eq [Hc' _]%list_elem_of_filter; [|done].
      rewrite Hc in Hc'. by injection Hc'.
    - intros c. unfold lost.
      rewrite elem_of_app, list_elem_of_filter, !elem_of_argwhere_eq by done. split.
      + intros Hc.
        destruct (decide (get o2 (f c) = Some (value crown))) as [H2|H2].
        * assert (Hin : c ∈ Ov) by (by apply HOv).
          destruct (Haward c Hin) as [[H _]|[H _]]; [by left | by right].
        * left. rewrite (t_frame_a _ _ _ _ _ Htr c); [done|]. by intros [_ ?].
      + intros [Hc|[_ Hc]]; [apply Hsa; by left | by apply HOv in Hc as [? _]]. }
  assert (E2 : argwhere_eq o2 (value crown)
               ≡ₚ argwhere_eq g2 (value crown) ++ (f <$> won)).
  { apply NoDup_Permutation; [by apply NoDup_argwhere_eq| |].
    - apply list.NoDup_app. split; [by apply NoDup_argwhere_eq|]. split.
      + intros c Hc%elem_of_argwhere_eq (c0 & -> & [Hc0 Hin]%list_elem_of_filter)
                                         %list_elem_of_fmap; [|done].
        destruct (Haward c0 Hin) as [[_ H]|[H _]]; unfold holds in *;
          [rewrite Hc in H | rewrite Hc0 in H]; by injection H.
      + apply NoDup_fmap_2; [|by apply list.NoDup_filter].
        intros c1 c2 E. transitivity (finv (f c1)); [by rewrite Hl|].
        transitivity (finv (f c2)); [|by rewrite Hl]. f_equal. exact E.
    - intros c. unfold won.
      rewrite elem_of_app, list_elem_of_fmap, !elem_of_argwhere_eq by done. split.
      + intros Hc.
        destruct (decide (get o1 (finv c) = Some (value crown))) as [H1|H1].
        * assert (Hin : finv c ∈ Ov) by (apply HOv; by rewrite Hr).
          destruct (Haward _ Hin) as [[H _]|[_ H]].
          -- right. exists (finv c). rewrite Hr. split; [done|].
             by apply list_elem_of_filter.
          -- left. by rewrite Hr in H.
        * left. rewrite <- (Hr c).
          rewrite (t_frame_b _ _ _ _ _ Htr (finv c)); [by rewrite Hr|].
          by intros [? _].
      + intros [Hc|(c0 & -> & [_ Hc0]%list_elem_of_filter)].
        * apply Hsb. by left.
        * by apply HOv in Hc0 as [_ ?]. }
  unfold count_crown.
  pose proof (Permutation_length E0) as L0.
  pose proof (Permutation_length E1) as L1.
  pose proof (Permutation_length E2) as L2.
  rewrite !length_app in *. rewrite length_fmap in L2. fold Ov. lia.
Qed.

(** Resolution removes exactly one Crown cell for every cell of the
    overlap: the two grids together hold afterwards as many Crown cells as
    before, less the number of Crown cells of tree 1 that landed on a
    Crown cell of tree 2. *)
Theorem resolve_collision_crown_balance
    (rand : nat → nat) (edt : ndarray bool → ndarray Q)
    (tree1 tree2 : cell) (g1 g2 : ndarray Z) (n : nat) :
  shape_preserving edt →
  well_formed g1 = true → well_formed g2 = true →
  no_marker g1 = true → no_marker g2 = true →
  ∃ s', resolve_collision rand edt tree1 tree2 (initial_store g1 g2 n)
          = Ok (tt, s') ∧
    (count_crown (tree1_grid s') + count_crown (tree2_grid s')
     + length (overlap (cell_sub tree1 tree2) g1 g2)
     = count_crown g1 + count_crown g2)%nat.
Proof.
  intros He W1%well_formed_wf W2%well_formed_wf N1 N2.
  destruct (resolve_collision_conserves_run rand edt tree1 tree2 g1 g2 n He
              W1 W2 N1 N2)
    as (s' & Hrun & ([Hp _] & U1 & U2) & Htr).
  exists s'. split; [done|]. by apply crown_balance.
Qed.

Lemma resolve_collision_crown_balance_witness :
  ∃ s', resolve_collision (λ n, n) plane_distance (1, 0, 0) (0, 0, 0)
          (initial_store stem_and_crown crown_row 0) = Ok (tt, s') ∧
    (count_crown (tree1_grid s') + count_crown (tree2_grid s')
     + length (overlap (cell_sub (1, 0, 0)%Z (0, 0, 0)%Z) stem_and_crown crown_row)
     = count_crown stem_and_crown + count_crown crown_row)%nat.
Proof.
  apply (resolve_collision_crown_balance (λ n, n) plane_distance
           (1, 0, 0) (0, 0, 0) stem_and_crown crown_row 0);
    [exact plane_distance_shape_preserving | reflexivity ..].
Defined.

(** ** The voxel mesher *)

Lemma for_every_app {A S} (xs ys : list A) (body : A → S → option S) s :
  for_every (xs ++ ys) body s = for_every xs body s ≫= for_every ys body.
Proof.
  revert s. induction xs as [|x xs IH]; intros s; simpl; [done|].
  destruct (body x s) as [s'|]; simpl; [apply IH | done].
Qed.

(** The face the code makes on side [i] of the cube around [p]. *)
Definition side_face (p : vertex) (size : Q) (i : nat) : list vertex :=
  match index_to_face_direction !! i ≫= add_face_to_bmesh [] p size with
  | Some [f] => f
  | _ => []
  end.

(** The sides of the voxel at [c] whose neighbour is not Crown. *)
Definition open_sides (g : ndarray Z) (c : cell) : list nat :=
  fst <$> filter (λ io : nat * cell,
                    get g (cell_add c io.2) ≠ Some (value crown))
                 (enumerate offsets).

Lemma is_filled_spec x y z g :
  is_filled x y z g = bool_decide (get g (x, y, z) = Some (value crown)).
Proof.
  unfold is_filled, get.
  by destruct (in_bounds (shape g) (x, y, z)).
Qed.

Lemma add_face_to_bmesh_side_face bm p size i name :
  index_to_face_direction !! i = Some name →
  add_face_to_bmesh bm p size name = Some (bm ++ [side_face p size i]).
Proof.
  intros Hi. unfold side_face. rewrite Hi. simpl.
  destruct p as [[x y] z].
  do 6 (destruct i as [|i]; [injection Hi as <-; reflexivity|]).
  done.
Qed.

Lemma add_sides_spec (g : ndarray Z) (c : cell) (size : Q)
    (ios : list (nat * cell)) (bm : bmesh) :
  Forall (λ io : nat * cell, is_Some (index_to_face_direction !! io.1)) ios →
  for_every
    ((λ io : nat * cell,
        (io.1, is_filled (c.1.1 + io.2.1.1) (c.1.2 + io.2.1.2) (c.2 + io.2.2) g))
     <$> ios)
    (λ '(index, neighbor) bm,
       if negb neighbor then
         face ← index_to_face_direction !! index;
         add_face_to_bmesh bm (voxel_pos c size) size face
       else Some bm)
    bm
  = Some (bm ++ (side_face (voxel_pos c size) size <$>
                 (fst <$> filter (λ io : nat * cell,
                                    get g (cell_add c io.2) ≠ Some (value crown))
                                 ios))).
Proof.
  intros Hios. revert bm.
  induction Hios as [|[i o] ios [name Hi] _ IH]; intros bm.
  { simpl. by rewrite app_nil_r. }
  rewrite fmap_cons, filter_cons. cbn [for_every fst snd].
  rewrite is_filled_spec.
  destruct c as [[x y] z], o as [[u v] w]. cbn [fst snd cell_add] in *.
  destruct (decide (get g (x + u, y + v, z + w) ≠ Some (value crown))) as [H|H].
  - rewrite bool_decide_eq_false_2 by done. cbn [negb].
    rewrite Hi. cbn [mbind option_bind].
    rewrite (add_face_to_bmesh_side_face _ _ _ i) by done. cbn [mbind option_bind].
    rewrite IH, <- app_assoc. done.
  - rewrite bool_decide_eq_true_2 by (by destruct (decide (get g (x + u, y + v, z + w) = Some (value crown)))).
    cbn [negb mbind option_bind]. apply IH.
Qed.

Lemma add_voxel_to_bmesh_spec bm x y z g size :
  add_voxel_to_bmesh bm x y z g size
  = Some (bm ++ (side_face (voxel_pos (x, y, z) size) size
                 <$> open_sides g (x, y, z))).
Proof.
  unfold open_sides. rewrite <- add_sides_spec.
  - reflexivity.
  - unfold enumerate, offsets. simpl. repeat constructor; by eexists.
Qed.

Definition grid_cells (g : ndarray Z) : list cell :=
  let '(nx, ny, nz) := shape g in
  meshgrid3 (np_arange 0 nx) (np_arange 0 ny) (np_arange 0 nz).

Lemma elem_of_grid_cells g c : c ∈ grid_cells g ↔ in_bounds (shape g) c = true.
Proof.
  unfold grid_cells. rewrite in_bounds_spec.
  destruct (shape g) as [[nx ny] nz].
  rewrite elem_of_meshgrid3, !elem_of_np_arange. simpl. lia.
Qed.

Lemma NoDup_np_arange start stop : NoDup (np_arange start stop).
Proof. apply NoDup_seqZ. Qed.

Lemma NoDup_meshgrid3 is_ js ks :
  NoDup is_ → NoDup js → NoDup ks → NoDup (meshgrid3 is_ js ks).
Proof.
  intros Hi Hj Hk. unfold meshgrid3.
  apply NoDup_bind; [| |done].
  - intros i i' c _ _ (j & (k & Hc & _)%list_elem_of_bind & _)%list_elem_of_bind
                      (j' & (k' & Hc' & _)%list_elem_of_bind & _)%list_elem_of_bind.
    apply list_elem_of_singleton in Hc, Hc'. congruence.
  - intros i _. apply NoDup_bind; [| |done].
    + intros j j' c _ _ (k & Hc & _)%list_elem_of_bind
                        (k' & Hc' & _)%list_elem_of_bind.
      apply list_elem_of_singleton in Hc, Hc'. congruence.
    + intros j _. apply NoDup_bind; [| |done].
      * intros k k' c _ _ Hc Hc'.
        apply list_elem_of_singleton in Hc, Hc'. congruence.
      * intros k _. apply NoDup_singleton.
Qed.

Lemma NoDup_grid_cells g : NoDup (grid_cells g).
Proof.
  unfold grid_cells. destruct (shape g) as [[nx ny] nz].
  apply NoDup_meshgrid3; apply NoDup_np_arange.
Qed.

(** The voxel and the side of every face of the mesh, in the order in
    which the faces are made. *)
Definition mesh_keys (g : ndarray Z) : list (cell * nat) :=
  c ← filter (λ c, get g c = Some (value crown)) (grid_cells g);
  (λ i, (c, i)) <$> open_sides g c.

Definition key_face (k : cell * nat) : list vertex :=
  side_face (voxel_pos k.1 cube_size) cube_size k.2.

Lemma elem_of_enumerate {A} (xs : list A) i x :
  (i, x) ∈ enumerate xs ↔ xs !! i = Some x.
Proof.
  unfold enumerate. rewrite list_elem_of_lookup. split.
  - intros (j & (a & b & [= -> ->] & Ha & Hb)%lookup_zip_with_Some).
    apply lookup_seq in Ha as [-> _]. done.
  - intros Hx. exists i. apply lookup_zip_with_Some. exists i, x.
    split; [done|]. split; [|done].
    apply lookup_seq. split; [done|]. by apply lookup_lt_Some in Hx.
Qed.

Lemma elem_of_open_sides g c i :
  i ∈ open_sides g c ↔
  ∃ o, offsets !! i = Some o ∧ get g (cell_add c o) ≠ Some (value crown).
Proof.
  unfold open_sides. rewrite list_elem_of_fmap. split.
  - intros ([j o] & -> & [Ho Hin]%list_elem_of_filter).
    apply elem_of_enumerate in Hin. by exists o.
  - intros (o & Hi & Ho). exists (i, o). split; [done|].
    apply list_elem_of_filter. split; [done|]. by apply elem_of_enumerate.
Qed.

Lemma NoDup_open_sides g c : NoDup (open_sides g c).
Proof.
  unfold open_sides.
  eapply sublist_NoDup; [|apply fmap_sublist, sublist_filter].
  unfold enumerate, offsets. simpl. apply (NoDup_seq 0 6).
Qed.

Lemma elem_of_mesh_keys g c i :
  (c, i) ∈ mesh_keys g ↔
  get g c = Some (value crown) ∧
  ∃ o, offsets !! i = Some o ∧ get g (cell_add c o) ≠ Some (value crown).
Proof.
  unfold mesh_keys. rewrite list_elem_of_bind. split.
  - intros (c' & (j & [= -> ->] & Hj)%list_elem_of_fmap
               & [Hc _]%list_elem_of_filter).
    split; [done|]. by apply elem_of_open_sides.
  - intros [Hc Hi]. exists c. split.
    + apply list_elem_of_fmap. exists i. split; [done|].
      by apply elem_of_open_sides.
    + apply list_elem_of_filter. split; [done|].
      apply elem_of_grid_cells. by apply get_Some_in_bounds in Hc.
Qed.

Lemma NoDup_mesh_keys g : NoDup (mesh_keys g).
Proof.
  unfold mesh_keys. apply NoDup_bind.
  - intros c c' k _ _ (i & -> & _)%list_elem_of_fmap
                      (i' & [= -> _] & _)%list_elem_of_fmap. done.
  - intros c _. apply NoDup_fmap_2; [|apply NoDup_open_sides].
    by intros i i' [=].
  - apply list.NoDup_filter, NoDup_grid_cells.
Qed.

Lemma voxel_loop_spec g (cells : list cell) (bm : bmesh) :
  wf_array g →
  (∀ c, c ∈ cells → in_bounds (shape g) c = true) →
  for_every cells
    (λ '(x, y, z) bm,
       v ← get g (x, y, z);
       if v =? value crown
       then add_voxel_to_bmesh bm x y z g cube_size
       else Some bm)
    bm
  = Some (bm ++ (key_face <$>
                 (c ← filter (λ c, get g c = Some (value crown)) cells;
                  (λ i, (c, i)) <$> open_sides g c))).
Proof.
  intros Hwf. revert bm. induction cells as [|[[x y] z] cells IH]; intros bm Hin.
  { simpl. by rewrite app_nil_r. }
  cbn [for_every]. rewrite filter_cons.
  destruct (get_is_Some g (x, y, z) Hwf) as [v Hv]; [apply Hin; left|].
  rewrite Hv. cbn [mbind option_bind].
  destruct (decide (Some v = Some (value crown))) as [E|E].
  - injection E as ->. rewrite Z.eqb_refl, add_voxel_to_bmesh_spec.
    cbn [mbind option_bind]. rewrite IH by (intros; apply Hin; by right).
    rewrite bind_cons, fmap_app, <- app_assoc, <- list_fmap_compose. done.
  - destruct (Z.eqb_spec v (value crown)) as [->|_]; [done|].
    apply IH. intros; apply Hin; by right.
Qed.

Lemma generate_crown_mesh_spec self index t :
  py_list_get (trees self) index = Ok t → wf_array (grid t) →
  generate_crown_mesh self index
  = Some (BlenderObject (voxel_pos (position t) cube_size)
            (key_face <$> mesh_keys (grid t))).
Proof.
  intros Ht Hwf. unfold generate_crown_mesh. rewrite Ht.
  pose proof (voxel_loop_spec (grid t) (grid_cells (grid t)) [] Hwf) as H.
  unfold grid_cells in H. unfold mesh_keys, grid_cells.
  destruct (shape (grid t)) as [[nx ny] nz] eqn:Hsh.
  rewrite H; [done|].
  intros c Hc. pose proof (elem_of_grid_cells (grid t) c) as E.
  unfold grid_cells in E. rewrite Hsh in E. by apply E.
Qed.

(** *** Where the faces lie *)

Definition vertex_eq (u v : vertex) : Prop :=
  (u.1.1 == v.1.1 ∧ u.1.2 == v.1.2 ∧ u.2 == v.2)%Q.

Definition vertex_sum (f : list vertex) : vertex :=
  foldr (λ v s, (v.1.1 + s.1.1, v.1.2 + s.1.2, v.2 + s.2)%Q) (0, 0, 0)%Q f.

(** The mean of the vertices of a face. *)
Definition centre (f : list vertex) : vertex :=
  let n := inject_Z (Z.of_nat (length f)) in
  let s := vertex_sum f in
  (s.1.1 / n, s.1.2 / n, s.2 / n)%Q.

Lemma offsets_cases (i : nat) (o : cell) :
  offsets !! i = Some o →
  (i = 0%nat ∧ o = (-1, 0, 0)) ∨ (i = 1%nat ∧ o = (1, 0, 0)) ∨
  (i = 2%nat ∧ o = (0, -1, 0)) ∨ (i = 3%nat ∧ o = (0, 1, 0)) ∨
  (i = 4%nat ∧ o = (0, 0, -1)) ∨ (i = 5%nat ∧ o = (0, 0, 1)).
Proof.
  intros H. do 6 (destruct i as [|i]; [injection H as <-; tauto|]). done.
Qed.

(** The centre of a face of the mesh lies halfway between the voxel and
    its neighbour: at [(2 c + o) / 4] for cubes of size a half. *)
Lemma centre_key_face (c : cell) (i : nat) (o : cell) :
  offsets !! i = Some o →
  vertex_eq (centre (key_face (c, i)))
    (inject_Z (2 * c.1.1 + o.1.1) / 4, inject_Z (2 * c.1.2 + o.1.2) / 4,
     inject_Z (2 * c.2 + o.2) / 4)%Q.
Proof.
  intros Ho. destruct c as [[x y] z].
  destruct (offsets_cases _ _ Ho) as [[-> ->]|[[-> ->]|[[-> ->]|[[-> ->]|[[-> ->]|[-> ->]]]]]];
    unfold vertex_eq, centre, key_face, side_face; simpl;
    repeat split; unfold Qeq; simpl; lia.
Qed.

Lemma quarter_inj (a b : Z) : (inject_Z a / 4 == inject_Z b / 4)%Q → a = b.
Proof. unfold Qeq. simpl. lia. Qed.

Lemma cell_eq (a b : cell) :
  a.1.1 = b.1.1 → a.1.2 = b.1.2 → a.2 = b.2 → a = b.
Proof. destruct a as [[? ?] ?], b as [[? ?] ?]. simpl. by intros -> -> ->. Qed.

(** Two faces of the mesh with the same centre are the same side of the
    same voxel: the only other candidate, the opposite side of the
    neighbour, is on a cell that is not Crown. *)
Lemma key_centre_inj g (k k' : cell * nat) :
  k ∈ mesh_keys g → k' ∈ mesh_keys g →
  vertex_eq (centre (key_face k)) (centre (key_face k')) → k = k'.
Proof.
  destruct k as [c i], k' as [c' i'].
  intros (Hc & o & Ho & Hn)%elem_of_mesh_keys
         (Hc' & o' & Ho' & Hn')%elem_of_mesh_keys E.
  pose proof (centre_key_face c i o Ho) as (X & Y & Z).
  pose proof (centre_key_face c' i' o' Ho') as (X' & Y' & Z').
  destruct E as (EX & EY & EZ).
  rewrite X, X' in EX. rewrite Y, Y' in EY. rewrite Z, Z' in EZ.
  apply quarter_inj in EX, EY, EZ. clear X Y Z X' Y' Z'.
  destruct c as [[x y] z], c' as [[x' y'] z'].
  destruct (offsets_cases _ _ Ho) as [[-> ->]|[[-> ->]|[[-> ->]|[[-> ->]|[[-> ->]|[-> ->]]]]]];
  destruct (offsets_cases _ _ Ho') as [[-> ->]|[[-> ->]|[[-> ->]|[[-> ->]|[[-> ->]|[-> ->]]]]]];
    simpl in EX, EY, EZ;
    first
      [ exfalso; lia
      | f_equal; apply cell_eq; simpl; lia
      | exfalso; apply Hn; rewrite <- Hc'; f_equal; apply cell_eq; simpl; lia ].
Qed.

(** For a tree of the forest, [generate_crown_mesh] returns an object
    whose faces are exactly the sides between a Crown voxel and a
    neighbouring cell that is not Crown, be it a cell of another type or
    a cell outside the grid: one face, as [add_face_to_bmesh] makes it,
    for each such side, and no other face. *)
Theorem generate_crown_mesh_boundary_faces
    (self : VoxelGrid) (index : Z) (t : tree) :
  py_list_get (trees self) index = Ok t →
  well_formed (grid t) = true →
  ∃ obj, generate_crown_mesh self index = Some obj ∧
    ∀ f, f ∈ mesh obj ↔
      ∃ (c : cell) (i : nat) (o : cell) (name : string),
        get (grid t) c = Some (value crown) ∧
        offsets !! i = Some o ∧
        index_to_face_direction !! i = Some name ∧
        get (grid t) (cell_add c o) ≠ Some (value crown) ∧
        add_face_to_bmesh [] (voxel_pos c cube_size) cube_size name = Some [f].
Proof.
  intros Ht Hwf%well_formed_wf.
  eexists. split; [by apply generate_crown_mesh_spec|].
  intros f. cbn [mesh]. rewrite list_elem_of_fmap. split.
  - intros ([c i] & -> & (Hc & o & Ho & Hn)%elem_of_mesh_keys).
    assert (is_Some (index_to_face_direction !! i)) as [name Hname].
    { apply lookup_lt_is_Some. apply lookup_lt_Some in Ho. exact Ho. }
    exists c, i, o, name. repeat split; try done.
    by rewrite (add_face_to_bmesh_side_face _ _ _ i).
  - intros (c & i & o & name & Hc & Ho & Hname & Hn & Hf).
    exists (c, i). split.
    + rewrite (add_face_to_bmesh_side_face _ _ _ i) in Hf by done.
      by injection Hf as <-.
    + apply elem_of_mesh_keys. split; [done|]. by exists o.
Qed.

Definition lone_tree : VoxelGrid :=
  MkVoxelGrid true [Tree (0, 0, 0) 0 stem_and_crown].

Lemma generate_crown_mesh_boundary_faces_witness :
  ∃ obj, generate_crown_mesh lone_tree 0 = Some obj ∧
    ∀ f, f ∈ mesh obj ↔
      ∃ (c : cell) (i : nat) (o : cell) (name : string),
        get stem_and_crown c = Some (value crown) ∧
        offsets !! i = Some o ∧
        index_to_face_direction !! i = Some name ∧
        get stem_and_crown (cell_add c o) ≠ Some (value crown) ∧
        add_face_to_bmesh [] (voxel_pos c cube_size) cube_size name = Some [f].
Proof.
  apply (generate_crown_mesh_boundary_faces lone_tree 0
           (Tree (0, 0, 0) 0 stem_and_crown)); reflexivity.
Defined.

(** No two faces of the mesh have the same centre, so no face is made
    twice and no two faces coincide, whatever the order of their
    vertices: a side shared by two Crown voxels gets no face, and a side
    between a Crown voxel and another cell gets one. *)
Theorem generate_crown_mesh_faces_distinct
    (self : VoxelGrid) (index : Z) (t : tree) (obj : blender_object)
    (i j : nat) (f f' : list vertex) :
  py_list_get (trees self) index = Ok t →
  well_formed (grid t) = true →
  generate_crown_mesh self index = Some obj →
  mesh obj !! i = Some f → mesh obj !! j = Some f' →
  vertex_eq (centre f) (centre f') →
  i = j.
Proof.
  intros Ht Hwf%well_formed_wf Hobj Hi Hj E.
  rewrite (generate_crown_mesh_spec _ _ t) in Hobj by done.
  assert (Hm : mesh obj = key_face <$> mesh_keys (grid t))
    by (by injection Hobj as <-).
  rewrite Hm in Hi, Hj.
  apply list_lookup_fmap_Some in Hi as (k & -> & Hk).
  apply list_lookup_fmap_Some in Hj as (k' & -> & Hk').
  assert (k = k') as <-.
  { apply (key_centre_inj (grid t)); [| |done].
    - by eapply list_elem_of_lookup_2.
    - by eapply list_elem_of_lookup_2. }
  eapply NoDup_lookup; [apply (NoDup_mesh_keys (grid t))|done..].
Qed.

Lemma generate_crown_mesh_faces_distinct_witness :
  ∃ obj f, generate_crown_mesh lone_tree 0 = Some obj ∧
    mesh obj !! 0%nat = Some f ∧ 0%nat = 0%nat.
Proof.
  eexists _, _. split; [vm_compute; reflexivity|]. split; [reflexivity|].
  eapply (generate_crown_mesh_faces_distinct lone_tree 0
            (Tree (0, 0, 0) 0 stem_and_crown) _ 0 0);
    [reflexivity | reflexivity | vm_compute; reflexivity
    | reflexivity | reflexivity | repeat split; reflexivity].
Defined.

(** *** The shape of a face *)

(** [v] is a corner of the cube of edge [size] around [p]. *)
Definition corner (p : vertex) (size : Q) (v : vertex) : Prop :=
  ((v.1.1 - p.1.1 == size / 2 ∨ v.1.1 - p.1.1 == - (size / 2)) ∧
   (v.1.2 - p.1.2 == size / 2 ∨ v.1.2 - p.1.2 == - (size / 2)) ∧
   (v.2 - p.2 == size / 2 ∨ v.2 - p.2 == - (size / 2)))%Q.

(** [v] is on the side of that cube that faces the neighbour at offset
    [o]. *)
Definition toward (p : vertex) (size : Q) (o : cell) (v : vertex) : Prop :=
  (o.1.1 ≠ 0 → (v.1.1 - p.1.1 == inject_Z o.1.1 * (size / 2))%Q) ∧
  (o.1.2 ≠ 0 → (v.1.2 - p.1.2 == inject_Z o.1.2 * (size / 2))%Q) ∧
  (o.2 ≠ 0 → (v.2 - p.2 == inject_Z o.2 * (size / 2))%Q).

(** The face made for the neighbour [offsets[i]], under the name
    [index_to_face_direction[i]], is the side of the voxel's cube that
    faces that neighbour: four different corners of the cube, all on
    that side. *)
Theorem add_face_to_bmesh_faces_neighbour
    (bm : bmesh) (p : vertex) (size : Q) (i : nat) (o : cell) (name : string) :
  (0 < size)%Q →
  offsets !! i = Some o →
  index_to_face_direction !! i = Some name →
  ∃ f, add_face_to_bmesh bm p size name = Some (bm ++ [f]) ∧
    length f = 4%nat ∧
    (∀ (a b : nat) u v,
       f !! a = Some u → f !! b = Some v → vertex_eq u v → a = b) ∧
    Forall (λ v, corner p size v ∧ toward p size o v) f.
Proof.
  intros Hsize Ho Hname. destruct p as [[x y] z].
  assert (Hhs : (0 < size / 2)%Q).
  { apply Qlt_shift_div_l; [done|]. by rewrite Qmult_0_l. }
  set (hs := (size / 2)%Q) in *.
  destruct (offsets_cases _ _ Ho) as [[-> ->]|[[-> ->]|[[-> ->]|[[-> ->]|[[-> ->]|[-> ->]]]]]];
    injection Hname as <-;
    (eexists; split; [reflexivity|]; fold hs;
     split; [reflexivity|]; split;
     [ intros a b u v Ha Hb (E1 & E2 & E3);
       destruct a as [|[|[|[|a]]]]; try done;
       destruct b as [|[|[|[|b]]]]; try done;
       injection Ha as <-; injection Hb as <-; simpl in E1, E2, E3;
       exfalso; lra
     | unfold corner, toward; fold hs; cbn [fst snd];
       repeat apply List.Forall_cons; try apply List.Forall_nil;
       repeat split; try (intros ?; try done);
       cbn [fst snd]; unfold inject_Z;
       first [ lra | left; lra | right; lra ] ]).
Qed.

Lemma add_face_to_bmesh_faces_neighbour_witness :
  (0 < cube_size)%Q ∧ offsets !! 2%nat = Some (0, -1, 0) ∧
  ∃ f, add_face_to_bmesh [] (0, 0, 0)%Q cube_size "front" = Some ([] ++ [f]) ∧
    length f = 4%nat ∧
    (∀ (a b : nat) u v,
       f !! a = Some u → f !! b = Some v → vertex_eq u v → a = b) ∧
    Forall (λ v, corner (0, 0, 0)%Q cube_size v ∧
                 toward (0, 0, 0)%Q cube_size (0, -1, 0) v) f.
Proof.
  split; [reflexivity|]. split; [reflexivity|].
  apply (add_face_to_bmesh_faces_neighbour [] (0, 0, 0)%Q cube_size 2
           (0, -1, 0) "front"); reflexivity.
Defined.

(** ** The box mesher *)

(** The six faces the code makes for a quad. *)
Definition box (q : quad) : list (list vertex) :=
  match add_box q [] with Ok faces => faces | Err _ => [] end.

Lemma add_box_spec q bm : add_box q bm = Ok (bm ++ box q).
Proof. by destruct q as [[[[[xs ys] zs] xe] ye] ze]. Qed.

Lemma for_each_add_box quads bm :
  for_each quads add_box bm = Ok (bm ++ (quads ≫= box)).
Proof.
  revert bm. induction quads as [|q quads IH]; intros bm; simpl.
  - by rewrite app_nil_r.
  - rewrite add_box_spec. simpl. rewrite IH, <- app_assoc. done.
Qed.

Lemma length_bind_box quads : length (quads ≫= box) = (6 * length quads)%nat.
Proof.
  induction quads as [|q quads IH]; [done|].
  rewrite bind_cons, length_app, IH.
  destruct q as [[[[[xs ys] zs] xe] ye] ze]. simpl. lia.
Qed.

(** [v] is a corner of the cube this mesher gives the cell [c]: the cube
    of edge [cube_size] that ends at [c * cube_size] on every axis. *)
Definition cube_corner (c : cell) (v : vertex) : Prop :=
  ((v.1.1 == inject_Z c.1.1 * cube_size - cube_size
    ∨ v.1.1 == inject_Z c.1.1 * cube_size) ∧
   (v.1.2 == inject_Z c.1.2 * cube_size - cube_size
    ∨ v.1.2 == inject_Z c.1.2 * cube_size) ∧
   (v.2 == inject_Z c.2 * cube_size - cube_size
    ∨ v.2 == inject_Z c.2 * cube_size))%Q.

(** The vertices of [f] have one coordinate in common. *)
Definition flat (f : list vertex) : Prop :=
  (∃ q : Q, Forall (λ v : vertex, v.1.1 == q)%Q f) ∨
  (∃ q : Q, Forall (λ v : vertex, v.1.2 == q)%Q f) ∨
  (∃ q : Q, Forall (λ v : vertex, v.2 == q)%Q f).

Definition distinct_vertices (f : list vertex) : Prop :=
  ∀ (a b : nat) u v, f !! a = Some u → f !! b = Some v → vertex_eq u v → a = b.

Ltac corner_goal :=
  split;
  [ match goal with H : ∀ x y z : Z, _ |- _ => apply H; tauto end
  | unfold cube_corner; cbn [fst snd]; repeat split;
    first [ left; reflexivity | right; reflexivity ] ].

Lemma box_face_shape (q : quad) (f : list vertex) :
  proper_quad q → f ∈ box q →
  length f = 4%nat ∧ distinct_vertices f ∧ flat f ∧
  Forall (λ v, ∃ c, covers_quad q c = true ∧ cube_corner c v) f.
Proof.
  destruct q as [[[[[xs ys] zs] xe] ye] ze]. intros (Hx & Hy & Hz) Hf.
  assert (Hcov : ∀ x y z, (x = xs ∨ x = xe) → (y = ys ∨ y = ye) →
            (z = zs ∨ z = ze) →
            covers_quad (xs, ys, zs, xe, ye, ze) (x, y, z) = true).
  { intros x y z Hx' Hy' Hz'.
    unfold covers_quad. cbn [fst snd].
    rewrite !andb_true_iff, !Z.leb_le. lia. }
  rewrite Zle_Qle in Hx, Hy, Hz.
  unfold box, add_box in Hf. cbn in Hf.
  repeat (apply elem_of_cons in Hf as [-> | Hf]); [..|by apply elem_of_nil in Hf].
  all: split; [reflexivity|]; split; [|split].
  all: try (intros a b u v Ha Hb (E1 & E2 & E3);
            destruct a as [|[|[|[|a]]]]; try done;
            destruct b as [|[|[|[|b]]]]; try done;
            injection Ha as <-; injection Hb as <-;
            cbn [fst snd] in E1, E2, E3; unfold cube_size in *;
            exfalso; lra).
  all: try (first
         [ left; eexists;
           repeat apply List.Forall_cons; try apply List.Forall_nil;
           cbn [fst snd]; reflexivity
         | right; left; eexists;
           repeat apply List.Forall_cons; try apply List.Forall_nil;
           cbn [fst snd]; reflexivity
         | right; right; eexists;
           repeat apply List.Forall_cons; try apply List.Forall_nil;
           cbn [fst snd]; reflexivity ]).
  all: repeat apply List.Forall_cons; try apply List.Forall_nil.
  all: first
         [ exists (xs, ys, zs); corner_goal | exists (xe, ys, zs); corner_goal
         | exists (xs, ye, zs); corner_goal | exists (xe, ye, zs); corner_goal
         | exists (xs, ys, ze); corner_goal | exists (xe, ys, ze); corner_goal
         | exists (xs, ye, ze); corner_goal | exists (xe, ye, ze); corner_goal ].
Qed.

Section BoxMesherFacts.
Variable segment_order : list segment → nat.
Variable plane_order : list plane → nat.

Lemma greedy_meshing_spec (self : VoxelGrid) (index : nat) (t : tree) :
  trees self !! index = Some t → wf_array (grid t) →
  ∃ quads,
    capture_quads segment_order plane_order (trees self) index = Ok quads ∧
    (∀ c, count_quads quads c = Nat.b2n (crown_at (grid t) c)) ∧
    Forall proper_quad quads ∧
    greedy_meshing segment_order plane_order self index
    = Ok (configuration_identifier t,
          BlenderObject (voxel_pos (position t) cube_size) (quads ≫= box)).
Proof.
  intros Ht Hwf.
  destruct (capture_quads_boxes segment_order plane_order _ _ _ Ht Hwf)
    as (quads & Hrun & Hcount & Hproper).
  exists quads. repeat split; try done.
  unfold greedy_meshing. rewrite Hrun. simpl.
  rewrite for_each_add_box. simpl. rewrite Ht. done.
Qed.

End BoxMesherFacts.

(** For a tree of the forest, [greedy_meshing] returns the tree's
    configuration and an object with six faces for every quad of
    [capture_quads].  Every face is a rectangle that does not
    degenerate: four different vertices with one coordinate in common,
    each a corner of the cube of a Crown cell of the tree's grid.  So the
    mesh has no face of zero area and does not reach beyond the Crown
    cells. *)
Theorem greedy_meshing_faces (segment_order : list segment → nat)
    (plane_order : list plane → nat) (self : VoxelGrid) (index : nat)
    (t : tree) :
  trees self !! index = Some t →
  well_formed (grid t) = true →
  ∃ quads obj,
    capture_quads segment_order plane_order (trees self) index = Ok quads ∧
    greedy_meshing segment_order plane_order self index
    = Ok (configuration_identifier t, obj) ∧
    length (mesh obj) = (6 * length quads)%nat ∧
    ∀ f, f ∈ mesh obj →
      length f = 4%nat ∧ distinct_vertices f ∧ flat f ∧
      Forall (λ v, ∃ c, get (grid t) c = Some (value crown) ∧ cube_corner c v) f.
Proof.
  intros Ht Hwf%well_formed_wf.
  destruct (greedy_meshing_spec segment_order plane_order self index t Ht Hwf)
    as (quads & Hrun & Hcount & Hproper & Hmesh).
  eexists quads, _. split; [done|]. split; [exact Hmesh|]. cbn [mesh].
  split; [apply length_bind_box|].
  intros f (q & Hf & Hq)%list_elem_of_bind.
  eapply list.Forall_forall in Hproper; [|exact Hq].
  destruct (box_face_shape q f Hproper Hf) as (Hlen & Hdist & Hflat & Hcorner).
  repeat split; try done.
  eapply Forall_impl; [|exact Hcorner].
  intros v (c & Hc & Hv). exists c. split; [|done].
  by eapply covered_is_crown.
Qed.

Lemma greedy_meshing_faces_witness :
  ∃ quads obj,
    capture_quads (λ _, 0%nat) (λ _, 0%nat) (trees lone_tree) 0 = Ok quads ∧
    greedy_meshing (λ _, 0%nat) (λ _, 0%nat) lone_tree 0 = Ok (0, obj) ∧
    length (mesh obj) = (6 * length quads)%nat ∧
    ∀ f, f ∈ mesh obj →
      length f = 4%nat ∧ distinct_vertices f ∧ flat f ∧
      Forall (λ v, ∃ c, get stem_and_crown c = Some (value crown)
                        ∧ cube_corner c v) f.
Proof.
  apply (greedy_meshing_faces (λ _, 0%nat) (λ _, 0%nat) lone_tree 0
           (Tree (0, 0, 0) 0 stem_and_crown)); reflexivity.
Defined.

(** ** The two meshers side by side *)

Definition displace (d : Q) (v : vertex) : vertex :=
  (v.1.1 + d, v.1.2 + d, v.2 + d)%Q.

(** A face of the voxel mesher, moved back by half a cube, has its
    vertices on the corners of the cube the box mesher gives the same
    cell. *)
Lemma key_face_displaced (c : cell) (i : nat) (o : cell) :
  offsets !! i = Some o →
  Forall (λ v, cube_corner c (displace (- (cube_size / 2)) v)) (key_face (c, i)).
Proof.
  intros Ho. destruct c as [[x y] z].
  destruct (offsets_cases _ _ Ho) as [[-> ->]|[[-> ->]|[[-> ->]|[[-> ->]|[[-> ->]|[-> ->]]]]]];
    unfold key_face, side_face; simpl;
    repeat apply List.Forall_cons; try apply List.Forall_nil;
    unfold cube_corner, displace, cube_size; cbn [fst snd];
    repeat split;
    first [ left; unfold Qeq; simpl; lia | right; unfold Qeq; simpl; lia ].
Qed.

Lemma corners_apart (c c' : cell) (v v' : vertex) :
  cube_corner c (displace (- (cube_size / 2)) v) → cube_corner c' v' →
  ¬ vertex_eq v v'.
Proof.
  destruct c as [[x y] z], c' as [[x' y'] z'], v as [[a b] d], v' as [[a' b'] d'].
  change (cube_size / 2)%Q with (1 # 4)%Q.
  unfold cube_corner, displace, vertex_eq, cube_size. cbn [fst snd].
  intros (H1 & _) (H1' & _) (E & _).
  assert (Hodd : ∀ m n k : Z,
            ¬ (inject_Z m * (1 # 2) + (1 # 4) + inject_Z k * (1 # 2)
               == inject_Z n * (1 # 2))%Q).
  { intros m n k. unfold Qeq. simpl. lia. }
  destruct H1 as [H1|H1], H1' as [H1'|H1'].
  - apply (Hodd x x' 0). unfold inject_Z at 2. lra.
  - apply (Hodd x x' (-1)). unfold inject_Z at 2. lra.
  - apply (Hodd x x' 1). unfold inject_Z at 2. lra.
  - apply (Hodd x x' 0). unfold inject_Z at 2. lra.
Qed.

Lemma py_list_get_nat {A} (xs : list A) (i : nat) (x : A) :
  xs !! i = Some x → py_list_get xs (Z.of_nat i) = Ok x.
Proof.
  intros Hx. pose proof (lookup_lt_Some _ _ _ Hx) as Hlt.
  unfold py_list_get, normalize_index.
  destruct (Z.leb_spec 0 (Z.of_nat i)); [|lia].
  destruct (Z.ltb_spec (Z.of_nat i) (Z.of_nat (length xs))); [|lia].
  simpl. by rewrite Nat2Z.id, Hx.
Qed.

(** The two meshers do not put a tree in the same place.
    [generate_crown_mesh] centres the cube of the cell [c] at
    [c * cube_size]; [greedy_meshing] ends it there.  Every vertex of the
    voxel mesh, moved back by half a cube along each axis, is a corner of
    the cube that the box mesher gives a Crown cell, and no vertex of the
    voxel mesh is a vertex of the box mesh of the same tree. *)
Theorem meshers_half_a_cube_apart (segment_order : list segment → nat)
    (plane_order : list plane → nat) (self : VoxelGrid) (index : nat)
    (t : tree) :
  trees self !! index = Some t →
  well_formed (grid t) = true →
  ∃ voxels boxes,
    generate_crown_mesh self (Z.of_nat index) = Some voxels ∧
    greedy_meshing segment_order plane_order self index
    = Ok (configuration_identifier t, boxes) ∧
    location voxels = location boxes ∧
    ∀ f v, f ∈ mesh voxels → v ∈ f →
      (∃ c, get (grid t) c = Some (value crown) ∧
            cube_corner c (displace (- (cube_size / 2)) v)) ∧
      (∀ f' v', f' ∈ mesh boxes → v' ∈ f' → ¬ vertex_eq v v').
Proof.
  intros Ht Hwf.
  pose proof (py_list_get_nat _ _ _ Ht) as Hget.
  apply well_formed_wf in Hwf.
  destruct (greedy_meshing_spec segment_order plane_order self index t Ht Hwf)
    as (quads & _ & Hcount & Hproper & Hboxes).
  eexists _, _. split; [by apply (generate_crown_mesh_spec _ _ t)|].
  split; [exact Hboxes|]. split; [done|]. cbn [mesh].
  intros f v ([c i] & -> & (Hc & o & Ho & Hn)%elem_of_mesh_keys)%list_elem_of_fmap Hv.
  pose proof (key_face_displaced c i o Ho) as Hd.
  eapply list.Forall_forall in Hd; [|exact Hv].
  split; [by exists c|].
  intros f' v' (q & Hf' & Hq)%list_elem_of_bind Hv'.
  eapply list.Forall_forall in Hproper; [|exact Hq].
  destruct (box_face_shape q f' Hproper Hf') as (_ & _ & _ & Hcorner).
  eapply list.Forall_forall in Hcorner; [|exact Hv'].
  destruct Hcorner as (c' & _ & Hc').
  by eapply corners_apart.
Qed.

Lemma meshers_half_a_cube_apart_witness :
  ∃ voxels boxes,
    generate_crown_mesh lone_tree (Z.of_nat 0) = Some voxels ∧
    greedy_meshing (λ _, 0%nat) (λ _, 0%nat) lone_tree 0 = Ok (0, boxes) ∧
    location voxels = location boxes ∧
    ∀ f v, f ∈ mesh voxels → v ∈ f →
      (∃ c, get stem_and_crown c = Some (value crown) ∧
            cube_corner c (displace (- (cube_size / 2)) v)) ∧
      (∀ f' v', f' ∈ mesh boxes → v' ∈ f' → ¬ vertex_eq v v').
Proof.
  apply (meshers_half_a_cube_apart (λ _, 0%nat) (λ _, 0%nat) lone_tree 0
           (Tree (0, 0, 0) 0 stem_and_crown)); reflexivity.
Defined.

(** ** Evaluating a forest twice *)

Lemma separated_colliding (ti tj : tree) :
  wf_array (grid ti) → wf_array (grid tj) → separated ti tj →
  colliding (λ c, cell_add c (cell_sub (position ti) (position tj)))
    (grid ti) (grid tj) = [].
Proof.
  intros Wi Wj Hs. apply list.elem_of_nil_inv. intros c Hc.
  apply (elem_of_colliding _ (λ c, cell_sub c (cell_sub (position ti) (position tj))))
    in Hc as [H1 H2];
    [|done|done|intros; apply cell_add_sub|intros; apply cell_sub_add].
  apply (Hs _ H1). by rewrite cell_sub_add.
Qed.

(** Two trees that share no Crown cell are left as they are, and no
    random number is drawn. *)
Lemma resolve_collision_separated rand edt (ti tj : tree) n :
  wf_array (grid ti) → wf_array (grid tj) → separated ti tj →
  ∃ s', resolve_collision rand edt (position ti) (position tj)
          (Store (grid ti) (grid tj) [] n) = Ok (tt, s') ∧
    tree1_grid s' = grid ti ∧ tree2_grid s' = grid tj ∧ draws s' = n.
Proof.
  intros Wi Wj Hs. pose proof (separated_colliding ti tj Wi Wj Hs) as HK.
  unfold resolve_collision, mark_collision_cells. cbv zeta.
  unfold mbind_M at 1 2. unfold read at 1. cbv beta iota.
  unfold mbind_M at 1.
  rewrite get_colliding_cells_ok by done. cbn [grid_of tree1_grid tree2_grid].
  fold (colliding (λ c, cell_add c (cell_sub (position ti) (position tj)))
          (grid ti) (grid tj)).
  rewrite HK. simpl. by eexists.
Qed.

Lemma resolve_trees_separated rand edt trees (p : nat * nat) (ti tj : tree) n :
  trees !! p.1 = Some ti → trees !! p.2 = Some tj →
  clean_tree ti = true → clean_tree tj = true → separated ti tj →
  resolve_trees rand edt trees p n = Ok (trees, n).
Proof.
  intros Hi Hj [Wi%well_formed_wf _]%andb_true_iff
         [Wj%well_formed_wf _]%andb_true_iff Hs.
  unfold resolve_trees. rewrite Hi, Hj. cbn [of_option rbind].
  destruct (resolve_collision_separated rand edt ti tj n Wi Wj Hs)
    as (s' & Hrun & H1 & H2 & H3).
  rewrite Hrun. cbn [rbind fst snd]. rewrite H1, H2, H3. f_equal. f_equal.
  assert (E : ∀ t, with_tree_grid t (grid t) = t) by (by intros []).
  rewrite !E. rewrite (list_insert_id _ _ _ Hi). by rewrite (list_insert_id _ _ _ Hj).
Qed.

Lemma evaluate_pairs_separated rand edt pairs trees n :
  forallb clean_tree trees = true →
  (∀ p, p ∈ pairs → ∃ ti tj, trees !! p.1 = Some ti ∧ trees !! p.2 = Some tj ∧
                              separated ti tj) →
  evaluate_pairs rand edt pairs trees n = Ok (trees, n).
Proof.
  intros Hc. induction pairs as [|p rest IH]; intros Hp; [done|].
  destruct (Hp p) as (ti & tj & Hi & Hj & Hs); [by left|].
  assert (Hall : ∀ t, t ∈ trees → clean_tree t = true).
  { intros t Ht. rewrite forallb_forall in Hc. by apply Hc, list_elem_of_In. }
  simpl. rewrite (resolve_trees_separated _ _ _ _ ti tj); try done.
  - simpl. apply IH. intros q Hq. apply Hp. by right.
  - by eapply Hall, list_elem_of_lookup_2.
  - by eapply Hall, list_elem_of_lookup_2.
Qed.

Lemma pruned_positions ts ts' :
  Forall2 pruned ts ts' → position <$> ts' = position <$> ts.
Proof.
  induction 1 as [|t t' ts ts' (P & _) _ IH]; [done|].
  rewrite !fmap_cons. by f_equal.
Qed.

Lemma pruned_widths tree_configurations ts ts' :
  Forall2 pruned ts ts' →
  tree_width tree_configurations <$> ts' = tree_width tree_configurations <$> ts.
Proof.
  induction 1 as [|t t' ts ts' (_ & I & _) _ IH]; [done|].
  rewrite !fmap_cons. f_equal; [|done]. unfold tree_width. by rewrite I.
Qed.

Lemma pruned_valid_identifiers tree_configurations ts ts' :
  Forall2 pruned ts ts' →
  forallb (valid_identifier tree_configurations) ts = true →
  forallb (valid_identifier tree_configurations) ts' = true.
Proof.
  induction 1 as [|t t' ts ts' (_ & I & _) _ IH]; [done|]. simpl.
  intros [H1 H2]%andb_true_iff. apply andb_true_iff. split; [|by apply IH].
  unfold valid_identifier in *. by rewrite I.
Qed.

Section TwiceFacts.
Variable random_source : nat → nat.
Variable distance_transform_edt : ndarray bool → ndarray Q.
Variable query_ball_point : list cell → cell → Q → list nat.
Variable list_of_set : list (nat * nat) → list (nat * nat).
Variable shuffle : list (nat * nat) → nat → list (nat * nat) * nat.
Hypothesis libraries :
  library_contract distance_transform_edt query_ball_point list_of_set shuffle.

Lemma evaluate_forest_again tree_configurations self n :
  trees self ≠ [] →
  forallb clean_tree (trees self) = true →
  forallb (valid_identifier tree_configurations) (trees self) = true →
  ∃ self' n',
    evaluate_forest random_source distance_transform_edt query_ball_point
      list_of_set shuffle tree_configurations self n = Ok (self', n') ∧
    ∀ m, evaluate_forest random_source distance_transform_edt query_ball_point
           list_of_set shuffle tree_configurations self' m
         = Ok (self', (shuffle (list_of_set
                         (collect_pairs query_ball_point (trees self')
                            (tree_width tree_configurations <$> trees self')
                            (max_width (tree_width tree_configurations
                                        <$> trees self')))) m).2).
Proof.
  destruct libraries as (He & Hq & Hl & Hsh).
  intros Hne Hclean Hids.
  destruct (evaluate_forest_spec random_source distance_transform_edt
              query_ball_point list_of_set shuffle He Hq Hl Hsh
              tree_configurations self n Hne Hclean Hids)
    as (self' & n' & Hrun & Hev & Hpr & Hclean' & Hsep).
  exists self', n'. split; [done|]. intros m.
  pose proof (pruned_positions _ _ Hpr) as Hpos.
  pose proof (pruned_widths tree_configurations _ _ Hpr) as Hw.
  pose proof (pruned_valid_identifiers tree_configurations _ _ Hpr Hids) as Hids'.
  unfold evaluate_forest. cbn [trees evaluated_forest].
  rewrite (comprehension_widths _ _ Hids'). cbn [rbind].
  set (widths := tree_width tree_configurations <$> trees self') in *.
  assert (Hne' : trees self' ≠ []).
  { intros E. rewrite E in Hpr. by apply Forall2_nil_inv_r in Hpr. }
  assert (Hmax : np_max widths = Ok (max_width widths)).
  { unfold max_width. destruct widths as [|w ws] eqn:E; [|done].
    apply fmap_nil_inv in E. done. }
  rewrite Hmax. cbn [rbind].
  destruct (collect_pairs_spec query_ball_point (trees self') widths (max_width widths))
    as [Hpairs _].
  set (pairs := collect_pairs query_ball_point (trees self') widths (max_width widths))
    in *.
  pose proof (Hsh (list_of_set pairs) m) as Hperm.
  destruct (shuffle (list_of_set pairs) m) as [l m1]. cbn [fst snd] in *.
  rewrite Hl in Hperm.
  rewrite (evaluate_pairs_separated _ _ _ _ _ Hclean').
  - cbn [rbind fst snd]. destruct self' as [ev ts]. simpl in *. by subst ev.
  - intros p Hp. rewrite Hperm in Hp.
    apply Hpairs in Hp as (i & j & Hnear & Hji & ->). cbn [fst snd].
    pose proof Hnear as (t' & w & Ht' & Hwi & Hj).
    pose proof (Hq _ _ _ _ Hj) as Hjlt. rewrite length_fmap in Hjlt.
    pose proof (lookup_lt_Some _ _ _ Ht') as Hilt.
    destruct (lookup_lt_is_Some_2 (trees self') (i `min` j)%nat ltac:(lia)) as [ti Hti].
    destruct (lookup_lt_is_Some_2 (trees self') (i `max` j)%nat ltac:(lia)) as [tj Htj].
    exists ti, tj. split; [done|]. split; [done|].
    apply (Hsep i j); try done.
    destruct (Forall2_lookup_r _ _ _ _ _ Hpr Ht') as (t & Ht & (P & _)).
    exists t, w. rewrite Hw in Hwi, Hj. rewrite Hpos, P in Hj. done.
Qed.

End TwiceFacts.

(** Evaluating an evaluated forest changes nothing: [evaluate_forest]
    succeeds on a forest of clean trees, and called again on the forest
    it returned, with whatever state of the random source, it returns
    that same forest, every grid as it was. *)
Theorem evaluate_forest_twice_changes_nothing
    (rand : nat → nat) (edt : ndarray bool → ndarray Q)
    (query_ball_point : list cell → cell → Q → list nat)
    (list_of_set : list (nat * nat) → list (nat * nat))
    (shuffle : list (nat * nat) → nat → list (nat * nat) * nat)
    (tree_configurations : list tree_configuration) (self : VoxelGrid) (n : nat) :
  library_contract edt query_ball_point list_of_set shuffle →
  trees self ≠ [] →
  forallb clean_tree (trees self) = true →
  forallb (valid_identifier tree_configurations) (trees self) = true →
  ∃ self' n',
    evaluate_forest rand edt query_ball_point list_of_set shuffle
      tree_configurations self n = Ok (self', n') ∧
    ∀ m, ∃ m',
      evaluate_forest rand edt query_ball_point list_of_set shuffle
        tree_configurations self' m = Ok (self', m').
Proof.
  intros Hlib Hne Hclean Hids.
  destruct (evaluate_forest_again rand edt query_ball_point list_of_set shuffle
              Hlib tree_configurations self n Hne Hclean Hids)
    as (self' & n' & Hrun & Hagain).
  exists self', n'. split; [done|]. intros m. eexists. apply Hagain.
Qed.

Lemma evaluate_forest_twice_changes_nothing_witness :
  ∃ self' n',
    evaluate_forest (λ n, n) plane_distance every_point (λ l, l) reversing
      [small_spreading; columnar_without_width] (MkVoxelGrid false row_forest) 0
    = Ok (self', n') ∧
    ∀ m, ∃ m',
      evaluate_forest (λ n, n) plane_distance every_point (λ l, l) reversing
        [small_spreading; columnar_without_width] self' m = Ok (self', m').
Proof.
  apply (evaluate_forest_twice_changes_nothing (λ n, n) plane_distance every_point
           (λ l, l) reversing [small_spreading; columnar_without_width]
           (MkVoxelGrid false row_forest) 0);
    [exact example_libraries | done | reflexivity ..].
Defined.
